(** * Sample project: shell router, greeting cycler and preference store

    A shallow embedding of the JavaScript sources

      - shared/js/utils.js   ([Utils.storage], [Utils.data],
                              [Utils.format.template])
      - spa03/spa03.js       (application shell: hash routing, iframe loading)
      - spa02/spa02.js       (multi-language greeting cycler)

    The browser is modelled explicitly: [localStorage] is a finite map from
    strings to strings with a quota, the console is a list of entries, timers
    live in a pool with a clock, and the DOM is reduced to the attributes the
    scripts read or write.  JavaScript objects used as dictionaries are finite
    maps over their own keys. *)

From Stdlib Require Import ZArith Ascii String List Bool Lia.
From stdpp Require Import base option list gmap strings pretty.

Set Warnings "-register-all".

(** ** JavaScript values, completions and the effect monad *)

Module JS.

Inductive error := SyntaxError | QuotaExceededError | TypeError.

Definition error_name (e : error) : string :=
  match e with
  | SyntaxError => "SyntaxError"
  | QuotaExceededError => "QuotaExceededError"
  | TypeError => "TypeError"
  end.

(** The outcome of evaluating a piece of code: a value, or a thrown
    exception. *)
Inductive completion (A : Type) :=
| Normal (a : A)
| Throw (e : error).
Arguments Normal {A} a.
Arguments Throw {A} e.

(** Values that travel through [JSON.stringify] / [JSON.parse].  Numbers
    are the integers; the scripts store strings only. *)
Inductive jsval :=
| JNull
| JBool (b : bool)
| JNum (n : Z)
| JStr (s : string)
| JArr (items : list jsval)
| JObj (fields : list (string * jsval)).

(** [if (v)] *)
Definition truthy (v : jsval) : bool :=
  match v with
  | JNull => false
  | JBool b => b
  | JNum n => negb (n =? 0)%Z
  | JStr s => negb (String.eqb s "")
  | JArr _ | JObj _ => true
  end.

(** String conversion, as in a template literal or [v + "s"]. *)
Fixpoint to_string (v : jsval) : string :=
  match v with
  | JNull => "null"
  | JBool true => "true"
  | JBool false => "false"
  | JNum n => pretty n
  | JStr s => s
  | JArr items =>
      String.concat ","
        (map (λ x, match x with JNull => "" | _ => to_string x end) items)
  | JObj _ => "[object Object]"
  end.

Inductive log_entry :=
| ConsoleError (msg : string) (data : option string)
| ConsoleLog (msg : string).

(** State-and-exception monad: a computation runs on a state [S], may
    change it, and either returns or throws.  Effects performed before a
    throw persist. *)
Definition M (S A : Type) : Type := S → completion A * S.

Definition ret {S A} (a : A) : M S A := λ s, (Normal a, s).
Definition throw {S A} (e : error) : M S A := λ s, (Throw e, s).
Definition bind {S A B} (m : M S A) (k : A → M S B) : M S B :=
  λ s, match m s with
       | (Normal a, s') => k a s'
       | (Throw e, s') => (Throw e, s')
       end.
(** [try { body } catch (error) { handler }] *)
Definition try_catch {S A} (body : M S A) (handler : error → M S A) : M S A :=
  λ s, match body s with
       | (Normal a, s') => (Normal a, s')
       | (Throw e, s') => handler e s'
       end.
Definition gets {S A} (f : S → A) : M S A := λ s, (Normal (f s), s).
Definition modify {S} (f : S → S) : M S unit := λ s, (Normal tt, f s).
Definition lift {S A} (c : completion A) : M S A := λ s, (c, s).

(** The JSON codec is a builtin of the host, not code of the repository:
    it is an interface.  The only law used is that the empty text is not a
    JSON text. *)
Class JSON := {
  JSON_stringify : jsval → string;
  JSON_parse : string → completion jsval;
  JSON_parse_empty : JSON_parse "" = Throw SyntaxError
}.

(** A value survives serialization when parsing its text gives it back. *)
Definition json_serializable `{JSON} (v : jsval) : Prop :=
  JSON_parse (JSON_stringify v) = Normal v.

End JS.

Export JS.

Declare Scope js_scope.
Delimit Scope js_scope with js.
Notation "'let*' x ':=' c1 'in' c2" := (bind c1 (fun x => c2))
  (at level 10, x name, c1 at level 100, c2 at level 200) : js_scope.
Notation "c1 ;; c2" := (bind c1 (fun _ => c2))
  (at level 100, right associativity) : js_scope.

(** ** The host: localStorage and the console *)

Module Host.

Record host := mkHost {
  localStorage : gmap string string;
  storageQuota : nat;
  console : list log_entry
}.

Definition storage_size (m : gmap string string) : nat :=
  map_fold (λ k v n, String.length k + String.length v + n) 0 m.

(** [localStorage.setItem]: throws when the quota would be exceeded. *)
Definition setItem (k v : string) : M host unit :=
  λ h,
    let m := <[k := v]> (localStorage h) in
    if storage_size m <=? storageQuota h
    then (Normal tt, mkHost m (storageQuota h) (console h))
    else (Throw QuotaExceededError, h).

(** [localStorage.getItem]: [None] is JavaScript's [null]. *)
Definition getItem (k : string) : M host (option string) :=
  gets (λ h, localStorage h !! k).

(** [console.error(msg, data)], or [console.error(msg)] without data. *)
Definition console_error (msg : string) (data : option string) : M host unit :=
  modify (λ h, mkHost (localStorage h) (storageQuota h)
                      (console h ++ [ConsoleError msg data])).

Definition console_log (msg : string) : M host unit :=
  modify (λ h, mkHost (localStorage h) (storageQuota h)
                      (console h ++ [ConsoleLog msg])).

End Host.

Export Host.

(** ** shared/js/utils.js *)

Module Utils.
Local Open Scope js_scope.

Section Storage.
Context `{JSON}.

(** [namespace ? `${namespace}.${key}` : key].  The namespace argument is
    a string; the default [null] and the empty string are both falsy and
    take the same branch, so the absent namespace is the empty string. *)
Definition final_key (namespace key : string) : string :=
  if String.eqb namespace "" then key else namespace +:+ "." +:+ key.

Definition save_error (e : error) : log_entry :=
  ConsoleError "Error saving to localStorage:" (Some (error_name e)).
Definition read_error (e : error) : log_entry :=
  ConsoleError "Error reading from localStorage:" (Some (error_name e)).

(** [Utils.storage.set(key, value, namespace)] *)
Definition storage_set (key : string) (value : jsval) (namespace : string)
  : M host bool :=
  try_catch
    (let finalKey := final_key namespace key in
     setItem finalKey (JSON_stringify value) ;;
     ret true)
    (λ error,
     console_error "Error saving to localStorage:" (Some (error_name error)) ;;
     ret false).

(** [Utils.storage.get(key, defaultValue, namespace)] *)
Definition storage_get (key : string) (defaultValue : jsval)
    (namespace : string) : M host jsval :=
  try_catch
    (let finalKey := final_key namespace key in
     let* item := getItem finalKey in
     match item with
     | Some text =>
         if negb (String.eqb text "")
         then lift (JSON_parse text)
         else ret defaultValue
     | None => ret defaultValue
     end)
    (λ error,
     console_error "Error reading from localStorage:"
                   (Some (error_name error)) ;;
     ret defaultValue).

End Storage.

(** The class [\w] of the regular expression: letters, digits, underscore. *)
Definition is_word_char (c : ascii) : bool :=
  let n := nat_of_ascii c in
  ((48 <=? n) && (n <=? 57)) || ((65 <=? n) && (n <=? 90))
  || ((97 <=? n) && (n <=? 122)) || (n =? 95).

(** [placeholder key] is the text of the match [{key}]. *)
Definition placeholder (key : string) : string := "{" +:+ key +:+ "}".

(** The replacement callback of [template]:
    [values[key] !== undefined ? values[key] : match]. *)
Definition replacement (values : gmap string string) (key : string) : string :=
  match values !! key with
  | Some v => v
  | None => placeholder key
  end.

(** [template.replace(/\{(\w+)\}/g, ...)], as a left-to-right scan.
    [open] is [None] outside a candidate match and [Some key] after an
    opening brace followed by the word characters [key].  A candidate that
    is not closed by a brace after at least one word character is no match:
    its text is copied and the scan resumes at the offending character. *)
Fixpoint template_scan (values : gmap string string) (open : option string)
    (s : string) : string :=
  match s with
  | EmptyString =>
      match open with
      | None => ""
      | Some key => "{" +:+ key
      end
  | String c rest =>
      let outside :=
        if Ascii.eqb c "{"
        then template_scan values (Some "") rest
        else String c (template_scan values None rest) in
      match open with
      | None => outside
      | Some key =>
          if is_word_char c
          then template_scan values (Some (key +:+ String c "")) rest
          else if Ascii.eqb c "}" && negb (String.eqb key "")
          then replacement values key +:+ template_scan values None rest
          else "{" +:+ key +:+ outside
      end
  end.

(** [Utils.format.template(template, values)] *)
Definition template (tpl : string) (values : gmap string string) : string :=
  template_scan values None tpl.

(** [String.prototype.startsWith] *)
Fixpoint startsWith (s sub : string) : bool :=
  match sub, s with
  | EmptyString, _ => true
  | String a sub', String b s' => Ascii.eqb a b && startsWith s' sub'
  | String _ _, EmptyString => false
  end.

(** [String.prototype.includes] *)
Fixpoint includes (s sub : string) : bool :=
  startsWith s sub ||
  match s with
  | EmptyString => false
  | String _ rest => includes rest sub
  end.

End Utils.

(** ** spa03/spa03.js: the application shell *)

Module Shell.

Definition NAMESPACE : string := "spa03".

(** *** Metadata (spa03.json) and configuration *)

Record nav_item := mkNav {
  nav_id : string;
  nav_path : string;
  nav_title : string;
  nav_icon : string;
  nav_text : string
}.

Record messages := mkMessages {
  msg_unknown : string;
  msg_timeout : string;
  msg_notFound : string;
  msg_loadFailed : string
}.

Record metadata := mkMetadata {
  meta_title : string;
  settings_defaultSpa : string;
  settings_loadingDelay : Z;
  settings_iframeTimeout : Z;
  settings_mobileBreakpoint : Z;
  content_navigation : list nav_item;
  content_sidebar_title : string;
  content_error_messages : messages
}.

Record route := mkRoute {
  route_path : string;
  route_title : string
}.

Record config := mkConfig {
  defaultSpa : string;
  spaRoutes : gmap string route;
  loadingDelay : Z;
  iframeTimeout : Z;
  mobileBreakpoint : Z
}.

(** The route table of [loadMetadata]:
    [navigation.forEach(nav => spaRoutes[nav.id] = {path, title})]. *)
Definition build_routes (navs : list nav_item) : gmap string route :=
  foldl (λ routes nav,
           <[nav_id nav := mkRoute (nav_path nav) (nav_title nav)]> routes)
        ∅ navs.

Definition build_config (md : metadata) : config :=
  mkConfig (settings_defaultSpa md)
           (build_routes (content_navigation md))
           (settings_loadingDelay md)
           (settings_iframeTimeout md)
           (settings_mobileBreakpoint md).

(** *** The [state] object *)

Record state := mkState {
  st_metadata : metadata;
  st_config : config;
  currentSpa : option string;
  isMobile : bool;
  sidebarOpen : bool;
  loading : bool;
  loadingTimeout : option nat;
  iframeLoadTimeout : option nat
}.

(** *** The page: what the script reads and writes of the DOM *)

Record nav_link := mkLink {
  data_spa : string;
  link_active : bool;
  aria_current : bool
}.

Record dom := mkDom {
  loadingIndicator_show : bool;
  errorDisplay_show : bool;
  errorMessage_text : string;
  document_title : string;
  navLinks : list nav_link;
  contentFrame_src : string;
  sidebar_open : bool;
  sidebarOverlay_show : bool;
  appShell_sidebar_open : bool;
  focused_link : option string;
  location_hash : string;      (* the fragment, [location.hash.slice(1)] *)
  innerWidth : Z
}.

(** *** Timers *)

Inductive callback :=
| ShowLoadingCb       (* the arrow function of [state.loadingTimeout] *)
| IframeTimeoutCb     (* the arrow function of [state.iframeLoadTimeout] *)
| ResizeLaterCb.      (* [later] of the debounced [checkMobileState] *)

Record timer := mkTimer {
  tid : nat;
  due : Z;
  cb : callback
}.

Record pool := mkPool {
  pending : list timer;
  nextId : nat;
  now : Z
}.

Definition setTimeout (c : callback) (delay : Z) (p : pool) : nat * pool :=
  (nextId p,
   mkPool (pending p ++ [mkTimer (nextId p) (now p + Z.max 0 delay) c])
          (S (nextId p)) (now p)).

Definition cancel (id : nat) (l : list timer) : list timer :=
  filter (λ t, tid t ≠ id) l.

(** [clearTimeout(handle)]; [None] is [null], and an id that is not
    pending is ignored. *)
Definition clearTimeout (handle : option nat) (p : pool) : pool :=
  match handle with
  | Some id => mkPool (cancel id (pending p)) (nextId p) (now p)
  | None => p
  end.

Definition is_pending (id : nat) (p : pool) : bool :=
  existsb (λ t, tid t =? id) (pending p).

(** *** The world *)

Record world := mkWorld {
  st : state;
  page : dom;
  timers : pool;
  resizeTimeout : option nat;   (* [timeout] in the closure of [debounce] *)
  hst : host
}.

(** Field updates. *)
Definition set_currentSpa (v : option string) (s : state) : state :=
  mkState (st_metadata s) (st_config s) v (isMobile s) (sidebarOpen s)
          (loading s) (loadingTimeout s) (iframeLoadTimeout s).
Definition set_isMobile (v : bool) (s : state) : state :=
  mkState (st_metadata s) (st_config s) (currentSpa s) v (sidebarOpen s)
          (loading s) (loadingTimeout s) (iframeLoadTimeout s).
Definition set_sidebarOpen (v : bool) (s : state) : state :=
  mkState (st_metadata s) (st_config s) (currentSpa s) (isMobile s) v
          (loading s) (loadingTimeout s) (iframeLoadTimeout s).
Definition set_loading (v : bool) (s : state) : state :=
  mkState (st_metadata s) (st_config s) (currentSpa s) (isMobile s)
          (sidebarOpen s) v (loadingTimeout s) (iframeLoadTimeout s).
Definition set_loadingTimeout (v : option nat) (s : state) : state :=
  mkState (st_metadata s) (st_config s) (currentSpa s) (isMobile s)
          (sidebarOpen s) (loading s) v (iframeLoadTimeout s).
Definition set_iframeLoadTimeout (v : option nat) (s : state) : state :=
  mkState (st_metadata s) (st_config s) (currentSpa s) (isMobile s)
          (sidebarOpen s) (loading s) (loadingTimeout s) v.

Definition set_loadingIndicator_show (v : bool) (d : dom) : dom :=
  mkDom v (errorDisplay_show d) (errorMessage_text d) (document_title d)
        (navLinks d) (contentFrame_src d) (sidebar_open d)
        (sidebarOverlay_show d) (appShell_sidebar_open d) (focused_link d)
        (location_hash d) (innerWidth d).
Definition set_errorDisplay_show (v : bool) (d : dom) : dom :=
  mkDom (loadingIndicator_show d) v (errorMessage_text d) (document_title d)
        (navLinks d) (contentFrame_src d) (sidebar_open d)
        (sidebarOverlay_show d) (appShell_sidebar_open d) (focused_link d)
        (location_hash d) (innerWidth d).
Definition set_errorMessage_text (v : string) (d : dom) : dom :=
  mkDom (loadingIndicator_show d) (errorDisplay_show d) v (document_title d)
        (navLinks d) (contentFrame_src d) (sidebar_open d)
        (sidebarOverlay_show d) (appShell_sidebar_open d) (focused_link d)
        (location_hash d) (innerWidth d).
Definition set_document_title (v : string) (d : dom) : dom :=
  mkDom (loadingIndicator_show d) (errorDisplay_show d) (errorMessage_text d)
        v (navLinks d) (contentFrame_src d) (sidebar_open d)
        (sidebarOverlay_show d) (appShell_sidebar_open d) (focused_link d)
        (location_hash d) (innerWidth d).
Definition set_navLinks (v : list nav_link) (d : dom) : dom :=
  mkDom (loadingIndicator_show d) (errorDisplay_show d) (errorMessage_text d)
        (document_title d) v (contentFrame_src d) (sidebar_open d)
        (sidebarOverlay_show d) (appShell_sidebar_open d) (focused_link d)
        (location_hash d) (innerWidth d).
Definition set_contentFrame_src (v : string) (d : dom) : dom :=
  mkDom (loadingIndicator_show d) (errorDisplay_show d) (errorMessage_text d)
        (document_title d) (navLinks d) v (sidebar_open d)
        (sidebarOverlay_show d) (appShell_sidebar_open d) (focused_link d)
        (location_hash d) (innerWidth d).
(** The three class toggles of [openSidebar] / [closeSidebar]. *)
Definition set_sidebar_classes (v : bool) (d : dom) : dom :=
  mkDom (loadingIndicator_show d) (errorDisplay_show d) (errorMessage_text d)
        (document_title d) (navLinks d) (contentFrame_src d) v v v
        (focused_link d) (location_hash d) (innerWidth d).
Definition set_focused_link (v : option string) (d : dom) : dom :=
  mkDom (loadingIndicator_show d) (errorDisplay_show d) (errorMessage_text d)
        (document_title d) (navLinks d) (contentFrame_src d) (sidebar_open d)
        (sidebarOverlay_show d) (appShell_sidebar_open d) v
        (location_hash d) (innerWidth d).
Definition set_location_hash (v : string) (d : dom) : dom :=
  mkDom (loadingIndicator_show d) (errorDisplay_show d) (errorMessage_text d)
        (document_title d) (navLinks d) (contentFrame_src d) (sidebar_open d)
        (sidebarOverlay_show d) (appShell_sidebar_open d) (focused_link d)
        v (innerWidth d).
Definition set_innerWidth (v : Z) (d : dom) : dom :=
  mkDom (loadingIndicator_show d) (errorDisplay_show d) (errorMessage_text d)
        (document_title d) (navLinks d) (contentFrame_src d) (sidebar_open d)
        (sidebarOverlay_show d) (appShell_sidebar_open d) (focused_link d)
        (location_hash d) v.

Definition with_st (f : state → state) (w : world) : world :=
  mkWorld (f (st w)) (page w) (timers w) (resizeTimeout w) (hst w).
Definition with_page (f : dom → dom) (w : world) : world :=
  mkWorld (st w) (f (page w)) (timers w) (resizeTimeout w) (hst w).
Definition with_timers (f : pool → pool) (w : world) : world :=
  mkWorld (st w) (page w) (f (timers w)) (resizeTimeout w) (hst w).
Definition set_resizeTimeout (v : option nat) (w : world) : world :=
  mkWorld (st w) (page w) (timers w) v (hst w).
Definition set_hst (h : host) (w : world) : world :=
  mkWorld (st w) (page w) (timers w) (resizeTimeout w) h.

Definition the_messages (w : world) : messages :=
  content_error_messages (st_metadata (st w)).

(** *** UI updates *)

Definition showLoading (w : world) : world :=
  with_page (set_loadingIndicator_show true) w.

Definition hideLoading (w : world) : world :=
  with_page (set_loadingIndicator_show false) w.

Definition showError (message : string) (w : world) : world :=
  with_page (set_errorDisplay_show true)
            (with_page (set_errorMessage_text message) w).

Definition hideError (w : world) : world :=
  with_page (set_errorDisplay_show false) w.

Definition activate (spaId : string) (l : nav_link) : nav_link :=
  if String.eqb (data_spa l) spaId
  then mkLink (data_spa l) true true
  else mkLink (data_spa l) false false.

Definition updateActiveNavLink (spaId : string) (w : world) : world :=
  with_page (λ d, set_navLinks (map (activate spaId) (navLinks d)) d) w.

Definition updatePageTitle (spaId : string) (w : world) : world :=
  match spaRoutes (st_config (st w)) !! spaId with
  | Some route =>
      if negb (String.eqb (route_title route) "")
      then
        let sidebarTitle := content_sidebar_title (st_metadata (st w)) in
        with_page (set_document_title
                     (route_title route +:+ " - " +:+ sidebarTitle)) w
      else w
  | None => w
  end.

(** *** Sidebar management *)

Definition closeSidebar (w : world) : world :=
  with_page (set_sidebar_classes false) (with_st (set_sidebarOpen false) w).

Definition openSidebar (w : world) : world :=
  let w := with_st (set_sidebarOpen true) w in
  let w := with_page (set_sidebar_classes true) w in
  match navLinks (page w) with
  | firstLink :: _ => with_page (set_focused_link (Some (data_spa firstLink))) w
  | [] => w
  end.

Definition toggleSidebar (w : world) : world :=
  if sidebarOpen (st w) then closeSidebar w else openSidebar w.

Definition checkMobileState (w : world) : world :=
  let wasMobile := isMobile (st w) in
  let w :=
    with_st (set_isMobile
               (innerWidth (page w) <=? mobileBreakpoint (st_config (st w)))%Z)
            w in
  if wasMobile && negb (isMobile (st w)) && sidebarOpen (st w)
  then closeSidebar w
  else w.

Definition handleKeyDown (key : string) (w : world) : world :=
  if String.eqb key "Escape" && isMobile (st w) && sidebarOpen (st w)
  then closeSidebar w
  else w.

(** The function returned by [debounce(checkMobileState, 250)]. *)
Definition debounced_checkMobileState (w : world) : world :=
  let w := with_timers (clearTimeout (resizeTimeout w)) w in
  let '(id, p) := setTimeout ResizeLaterCb 250 (timers w) in
  set_resizeTimeout (Some id) (with_timers (λ _, p) w).

(** *** SPA loading *)

(** What the load handler can see of the framed document: nothing when it
    is cross-origin (the access throws), else its title and body text. *)
Inductive frame_doc :=
| CrossOrigin
| SameOrigin (doc_title body_text : string).

Section WithJSON.
Context `{JSON}.

Definition loadSpa (spaId : string) (w : world) : world :=
  match spaRoutes (st_config (st w)) !! spaId with
  | None =>
      let errorMsg :=
        Utils.template (msg_unknown (the_messages w)) {["app" := spaId]} in
      showError errorMsg w
  | Some route =>
      let w := with_timers (clearTimeout (loadingTimeout (st w))) w in
      let w := with_timers (clearTimeout (iframeLoadTimeout (st w))) w in
      let w := with_st (set_currentSpa (Some spaId)) w in
      let w := with_st (set_loading true) w in
      match Utils.storage_set "lastVisitedSpa" (JStr spaId) NAMESPACE
                              (hst w) with
      | (Throw _, h) => set_hst h w      (* uncaught: the call is over *)
      | (Normal _, h) =>
          let w := set_hst h w in
          let w := hideError w in
          let '(id, p) :=
            setTimeout ShowLoadingCb (loadingDelay (st_config (st w)))
                       (timers w) in
          let w := with_st (set_loadingTimeout (Some id))
                           (with_timers (λ _, p) w) in
          let '(id, p) :=
            setTimeout IframeTimeoutCb (iframeTimeout (st_config (st w)))
                       (timers w) in
          let w := with_st (set_iframeLoadTimeout (Some id))
                           (with_timers (λ _, p) w) in
          let w := updateActiveNavLink spaId w in
          let w := updatePageTitle spaId w in
          with_page (set_contentFrame_src (route_path route)) w
      end
  end.

Definition handleIframeLoad (doc : frame_doc) (w : world) : world :=
  let w := with_timers (clearTimeout (loadingTimeout (st w))) w in
  let w := with_timers (clearTimeout (iframeLoadTimeout (st w))) w in
  match doc with
  | SameOrigin doc_title body_text =>
      if String.eqb doc_title "Error" || Utils.includes body_text "404"
      then showError (msg_notFound (the_messages w)) w      (* return *)
      else with_st (set_loading false) (hideLoading w)
  | CrossOrigin =>
      let '(_, h) := console_log "Iframe loaded (cross-origin)" (hst w) in
      with_st (set_loading false) (hideLoading (set_hst h w))
  end.

Definition handleIframeError (w : world) : world :=
  let w := with_timers (clearTimeout (loadingTimeout (st w))) w in
  let w := with_timers (clearTimeout (iframeLoadTimeout (st w))) w in
  let w := hideLoading w in
  showError (msg_loadFailed (the_messages w)) w.

Definition retryLoadSpa (w : world) : world :=
  match currentSpa (st w) with
  | Some spaId => if negb (String.eqb spaId "") then loadSpa spaId w else w
  | None => w
  end.

(** *** Routing *)

(** [hash && hash !== state.currentSpa] *)
Definition is_other_page (id : string) (w : world) : bool :=
  negb (String.eqb id "") && negb (bool_decide (currentSpa (st w) = Some id)).

Definition handleHashChange (w : world) : world :=
  let hash := location_hash (page w) in
  if is_other_page hash w then loadSpa hash w else w.

(** [spaId] is the [data-spa] attribute of the clicked link.  Assigning
    [location.hash] only changes the fragment; the browser delivers the
    [hashchange] event afterwards. *)
Definition handleNavClick (spaId : string) (w : world) : world :=
  if is_other_page spaId w
  then
    let w := with_page (set_location_hash spaId) w in
    if isMobile (st w) then closeSidebar w else w
  else w.

(** *** Timer callbacks and the passage of time *)

Definition run_callback (c : callback) (w : world) : world :=
  match c with
  | ShowLoadingCb =>
      if loading (st w) then showLoading w else w
  | IframeTimeoutCb =>
      if loading (st w)
      then hideLoading (showError (msg_timeout (the_messages w)) w)
      else w
  | ResizeLaterCb =>
      checkMobileState (with_timers (clearTimeout (resizeTimeout w)) w)
  end.

(** A timer that is still pending when its turn comes leaves the pool
    and runs; a cancelled one does nothing. *)
Definition fire (t : timer) (w : world) : world :=
  if is_pending (tid t) (timers w)
  then
    run_callback (cb t)
      (with_timers (λ p, mkPool (cancel (tid t) (pending p)) (nextId p)
                                (Z.max (now p) (due t))) w)
  else w.

(** Timers run in the order of their due times.  Among timers due at the
    same instant the insertion below puts the one created later first,
    where a browser runs them in the order of their creation: the
    timelines proved below are for timers with different due times, or
    with callbacks that touch different parts of the state. *)
Fixpoint insert_by_due (t : timer) (l : list timer) : list timer :=
  match l with
  | [] => [t]
  | u :: l' =>
      if (due t <? due u)%Z then t :: l else u :: insert_by_due t l'
  end.

Definition sort_by_due (l : list timer) : list timer :=
  foldr insert_by_due [] l.

Definition due_timers (deadline : Z) (p : pool) : list timer :=
  sort_by_due (filter (λ t, (due t ≤ deadline)%Z) (pending p)).

(** [dt] milliseconds pass with no other event. *)
Definition elapse (dt : Z) (w : world) : world :=
  let deadline := (now (timers w) + Z.max 0 dt)%Z in
  let w := foldl (λ w t, fire t w) w (due_timers deadline (timers w)) in
  with_timers (λ p, mkPool (pending p) (nextId p) deadline) w.

(** *** Events delivered by the browser *)

Inductive event :=
| NavClick (spaId : string)
| HashChange (fragment : string)
| IframeLoad (doc : frame_doc)
| IframeError
| RetryClick
| ToggleClick
| OverlayClick
| KeyDown (key : string)
| Resize (width : Z)
| Elapse (dt : Z).

(** The browser fires [hashchange] only when the fragment has changed. *)
Definition change_hash (fragment : string) (w : world) : world :=
  if String.eqb fragment (location_hash (page w))
  then w
  else handleHashChange (with_page (set_location_hash fragment) w).

Definition dispatch (w : world) (e : event) : world :=
  match e with
  | NavClick spaId =>
      let before := location_hash (page w) in
      let w := handleNavClick spaId w in
      if String.eqb (location_hash (page w)) before
      then w
      else handleHashChange w
  | HashChange fragment => change_hash fragment w
  | IframeLoad doc => handleIframeLoad doc w
  | IframeError => handleIframeError w
  | RetryClick => retryLoadSpa w
  | ToggleClick => toggleSidebar w
  | OverlayClick => closeSidebar w
  | KeyDown key => handleKeyDown key w
  | Resize width =>
      debounced_checkMobileState (with_page (set_innerWidth width) w)
  | Elapse dt => elapse dt w
  end.

Definition run (w : world) (trace : list event) : world :=
  foldl dispatch w trace.

(** *** Initialization *)

(** The page as [cacheElements], [populateStaticContent] and
    [populateNavigation] leave it. *)
Definition initial_dom (md : metadata) (html_title fragment : string)
    (width : Z) : dom :=
  mkDom false false ""
        (if negb (String.eqb (meta_title md) "")
         then meta_title md else html_title)
        (map (λ nav, mkLink (nav_id nav) false false)
             (content_navigation md))
        "" false false false None fragment width.

Definition initial_world (md : metadata) (html_title fragment : string)
    (width : Z) (h : host) : world :=
  mkWorld (mkState md (build_config md) None false false false None None)
          (initial_dom md html_title fragment width)
          (mkPool [] 1 0) None h.

Definition setupRouting (w : world) : world :=
  match Utils.storage_get "lastVisitedSpa" JNull NAMESPACE (hst w) with
  | (Throw _, h) => set_hst h w
  | (Normal savedSpa, h) =>
      let w := set_hst h w in
      if String.eqb (location_hash (page w)) ""
      then
        let initialSpa :=
          if truthy savedSpa then to_string savedSpa
          else defaultSpa (st_config (st w)) in
        with_page (set_location_hash initialSpa) w
      else w
  end.

Definition loadInitialSpa (w : world) : world :=
  let hash := location_hash (page w) in
  let spaId :=
    if negb (String.eqb hash "") then hash
    else defaultSpa (st_config (st w)) in
  loadSpa spaId w.

(** [initializeApp], once the metadata has been fetched. *)
Definition initializeApp (md : metadata) (html_title fragment : string)
    (width : Z) (h : host) : world :=
  let w := initial_world md html_title fragment width h in
  let w := checkMobileState w in
  let w := setupRouting w in
  loadInitialSpa w.

End WithJSON.

(** The events that ask for a page: a click on a navigation link, a change
    of the fragment, the retry button. *)
Definition is_request (e : event) : bool :=
  match e with
  | NavClick _ | HashChange _ | RetryClick => true
  | _ => false
  end.

(** The load handler takes the document for a page that loaded: it is
    opaque, or it carries neither of the two marks of an error page. *)
Definition is_success (doc : frame_doc) : bool :=
  match doc with
  | CrossOrigin => true
  | SameOrigin doc_title body_text =>
      negb (String.eqb doc_title "Error" || Utils.includes body_text "404")
  end.

(** What a request decides: the current page, the highlighted link, the
    title, and the configuration it reads. *)
Definition nav_view (w : world)
  : option string * list nav_link * string * config * metadata :=
  (currentSpa (st w), navLinks (page w), document_title (page w),
   st_config (st w), st_metadata (st w)).

(** What the progress of a load decides: the flag, the loading indicator
    and the error panel. *)
Definition load_view (w : world) : bool * bool * bool * string :=
  (loading (st w), loadingIndicator_show (page w),
   errorDisplay_show (page w), errorMessage_text (page w)).

(** *** Invariants of the timer discipline *)

Definition is_nav_callback (c : callback) : bool :=
  match c with
  | ShowLoadingCb | IframeTimeoutCb => true
  | ResizeLaterCb => false
  end.

(** The pending timers that belong to a navigation. *)
Definition nav_timers (w : world) : list timer :=
  filter (λ t, is_nav_callback (cb t) = true) (pending (timers w)).

(** The handle under which the script remembers a timer of each kind. *)
Definition handle_of (c : callback) (w : world) : option nat :=
  match c with
  | ShowLoadingCb => loadingTimeout (st w)
  | IframeTimeoutCb => iframeLoadTimeout (st w)
  | ResizeLaterCb => resizeTimeout w
  end.

(** Every pending timer is the one its handle names, and ids are fresh. *)
Record timers_tracked (w : world) : Prop := {
  tracked_handle :
    ∀ t, t ∈ pending (timers w) → handle_of (cb t) w = Some (tid t);
  tracked_fresh :
    ∀ t, t ∈ pending (timers w) → tid t < nextId (timers w)
}.

(** [evolves w w']: from [w] to [w'] no id is handed out twice: the
    counter does not go back, and a timer pending in [w'] was pending in
    [w] or has a new id. *)
Definition evolves (w w' : world) : Prop :=
  nextId (timers w) ≤ nextId (timers w')
  ∧ ∀ t, t ∈ pending (timers w') →
         t ∈ pending (timers w) ∨ nextId (timers w) ≤ tid t.

(** An id that was handed out and is no longer pending. *)
Definition retired (id : nat) (w : world) : Prop :=
  id < nextId (timers w) ∧ is_pending id (timers w) = false.

End Shell.

(** ** spa02/spa02.js: the greeting cycler *)

Module Cycler.
Local Open Scope js_scope.

Definition NAMESPACE : string := "spa02".

Record language := mkLanguage {
  code : string;
  name : string;
  greeting : string;
  rtl : bool
}.

Record metadata := mkMetadata {
  md_languages : list language;
  status_cycling_text : string;
  status_manual_text : string;
  speedUnit : string;
  defaultSpeed : string
}.

(** [SPA02.currentIndex] is a JavaScript number: an integer, or [NaN] once
    the remainder by an empty list's length has been taken. *)
Inductive index :=
| Idx (i : Z)
| NaN.

(** The [SPA02] object, without its [elements]. *)
Record app := mkApp {
  app_metadata : metadata;
  languages : list language;
  currentIndex : index;
  cycleInterval : option nat;
  isCycling : bool
}.

(** [SPA02.elements]: the attributes of the page the script touches. *)
Record dom := mkDom {
  greeting_text : string;
  greeting_rtl : bool;            (* class [rtl] on the greeting *)
  select_options : list string;   (* option values of [languageSelect] *)
  select_value : string;
  slider_value : string;
  speedValue_text : string;
  status_text : string;
  status_cycling : bool           (* class [cycling] on the status *)
}.

(** A repeating timer; its period is [parseFloat(period_of) * 1000] ms. *)
Record interval := mkInterval {
  iid : nat;
  period_of : string
}.

Record world := mkWorld {
  spa : app;
  ui : dom;
  intervals : list interval;
  nextInterval : nat;
  hst : host
}.

Definition set_currentIndex (v : index) (a : app) : app :=
  mkApp (app_metadata a) (languages a) v (cycleInterval a) (isCycling a).
Definition set_cycleInterval (v : option nat) (a : app) : app :=
  mkApp (app_metadata a) (languages a) (currentIndex a) v (isCycling a).
Definition set_isCycling (v : bool) (a : app) : app :=
  mkApp (app_metadata a) (languages a) (currentIndex a) (cycleInterval a) v.

Definition set_greeting_text (v : string) (d : dom) : dom :=
  mkDom v (greeting_rtl d) (select_options d) (select_value d)
        (slider_value d) (speedValue_text d) (status_text d)
        (status_cycling d).
Definition set_greeting_rtl (v : bool) (d : dom) : dom :=
  mkDom (greeting_text d) v (select_options d) (select_value d)
        (slider_value d) (speedValue_text d) (status_text d)
        (status_cycling d).
(** Assigning [select.value]: a value that is no option selects nothing,
    and the element then reads as the empty string. *)
Definition set_select_value (v : string) (d : dom) : dom :=
  mkDom (greeting_text d) (greeting_rtl d) (select_options d)
        (if bool_decide (v ∈ select_options d) then v else "")
        (slider_value d) (speedValue_text d) (status_text d)
        (status_cycling d).
Definition set_slider_value (v : string) (d : dom) : dom :=
  mkDom (greeting_text d) (greeting_rtl d) (select_options d)
        (select_value d) v (speedValue_text d) (status_text d)
        (status_cycling d).
Definition set_speedValue_text (v : string) (d : dom) : dom :=
  mkDom (greeting_text d) (greeting_rtl d) (select_options d)
        (select_value d) (slider_value d) v (status_text d)
        (status_cycling d).
Definition set_status (text : string) (cycling : bool) (d : dom) : dom :=
  mkDom (greeting_text d) (greeting_rtl d) (select_options d)
        (select_value d) (slider_value d) (speedValue_text d) text cycling.

Definition with_spa (f : app → app) : M world unit :=
  modify (λ w, mkWorld (f (spa w)) (ui w) (intervals w) (nextInterval w)
                       (hst w)).
Definition with_ui (f : dom → dom) : M world unit :=
  modify (λ w, mkWorld (spa w) (f (ui w)) (intervals w) (nextInterval w)
                       (hst w)).
(** Run a computation of the host inside the page. *)
Definition on_host {A} (m : M host A) : M world A :=
  λ w, let '(r, h) := m (hst w) in
       (r, mkWorld (spa w) (ui w) (intervals w) (nextInterval w) h).

Definition with_host (h : host) (w : world) : world :=
  mkWorld (spa w) (ui w) (intervals w) (nextInterval w) h.
Definition with_dom (d : dom) (w : world) : world :=
  mkWorld (spa w) d (intervals w) (nextInterval w) (hst w).

Definition clearInterval (id : nat) : M world unit :=
  modify (λ w, mkWorld (spa w) (ui w)
                       (filter (λ i, iid i ≠ id) (intervals w))
                       (nextInterval w) (hst w)).
Definition setInterval (period : string) : M world nat :=
  λ w, (Normal (nextInterval w),
        mkWorld (spa w) (ui w)
                (intervals w ++ [mkInterval (nextInterval w) period])
                (S (nextInterval w)) (hst w)).

(** [Utils.debug.error('Invalid language code:', langCode)]: the data is
    passed on to the console only when it is truthy. *)
Definition invalid_language_code (langCode : string) : M host unit :=
  console_error "Invalid language code:"
                (if String.eqb langCode "" then None else Some langCode).

(** [languages.find(lang => lang.code === langCode)] *)
Definition find_language (langCode : string) (ls : list language)
  : option language :=
  List.find (λ lang, String.eqb (code lang) langCode) ls.

(** [languages.findIndex(lang => lang.code === langCode)] *)
Fixpoint findIndex (langCode : string) (ls : list language) : Z :=
  match ls with
  | [] => -1
  | lang :: rest =>
      if String.eqb (code lang) langCode then 0
      else
        let i := findIndex langCode rest in
        if (i <? 0)%Z then -1 else (1 + i)%Z
  end.

(** [(currentIndex + 1) % languages.length] *)
Definition next_index (i : index) (n : nat) : index :=
  match i, n with
  | Idx i, S _ => Idx (Z.rem (i + 1) (Z.of_nat n))
  | _, _ => NaN
  end.

(** [languages[currentIndex]]; [None] is [undefined]. *)
Definition language_at (i : index) (ls : list language) : option language :=
  match i with
  | Idx i => if (0 <=? i)%Z then ls !! Z.to_nat i else None
  | NaN => None
  end.

Section WithJSON.
Context `{JSON}.

Definition updateGreeting (langCode : string) : M world unit :=
  let* ls := gets (λ w, languages (spa w)) in
  match find_language langCode ls with
  | None =>
      on_host (invalid_language_code langCode)
  | Some language =>
      with_ui (set_greeting_text (greeting language)) ;;
      if rtl language
      then with_ui (set_greeting_rtl true)
      else with_ui (set_greeting_rtl false)
  end.

Definition saveToStorage : M world unit :=
  let* lang := gets (λ w, select_value (ui w)) in
  let* speed := gets (λ w, slider_value (ui w)) in
  on_host (Utils.storage_set "selectedLanguage" (JStr lang) NAMESPACE) ;;
  on_host (Utils.storage_set "cycleSpeed" (JStr speed) NAMESPACE) ;;
  ret tt.

(** The host after [saveToStorage]. *)
Definition saved_host (w : world) : host :=
  snd (Utils.storage_set "cycleSpeed" (JStr (slider_value (ui w)))
         NAMESPACE
         (snd (Utils.storage_set "selectedLanguage"
                 (JStr (select_value (ui w))) NAMESPACE (hst w)))).

Definition stopCycling : M world unit :=
  let* handle := gets (λ w, cycleInterval (spa w)) in
  match handle with
  | Some id => clearInterval id ;; with_spa (set_cycleInterval None)
  | None => ret tt
  end ;;
  with_spa (set_isCycling false) ;;
  let* statusText :=
    gets (λ w, status_manual_text (app_metadata (spa w))) in
  with_ui (set_status statusText false).

(** The callback of [setInterval] in [startCycling]. *)
Definition tick : M world unit :=
  let* i := gets (λ w, currentIndex (spa w)) in
  let* ls := gets (λ w, languages (spa w)) in
  with_spa (set_currentIndex (next_index i (length ls))) ;;
  let* i := gets (λ w, currentIndex (spa w)) in
  match language_at i ls with
  | None => throw TypeError          (* [language.code] of [undefined] *)
  | Some language =>
      with_ui (set_select_value (code language)) ;;
      updateGreeting (code language) ;;
      saveToStorage
  end.

Definition startCycling : M world unit :=
  let* handle := gets (λ w, cycleInterval (spa w)) in
  match handle with
  | Some id => clearInterval id
  | None => ret tt
  end ;;
  let* speed := gets (λ w, slider_value (ui w)) in
  let* id := setInterval speed in
  with_spa (set_cycleInterval (Some id)) ;;
  with_spa (set_isCycling true) ;;
  let* statusText :=
    gets (λ w, status_cycling_text (app_metadata (spa w))) in
  with_ui (set_status statusText true).

(** The [change] listener of the language selector; [value] is
    [e.target.value]. *)
Definition on_language_change (value : string) : M world unit :=
  stopCycling ;;
  updateGreeting value ;;
  saveToStorage ;;
  let* ls := gets (λ w, languages (spa w)) in
  with_spa (set_currentIndex (Idx (findIndex value ls))).

(** The [input] listener of the speed slider. *)
Definition on_speed_input (value : string) : M world unit :=
  let* unit := gets (λ w, speedUnit (app_metadata (spa w))) in
  let speedUnit := if String.eqb unit "" then "s" else unit in
  with_ui (set_speedValue_text (value +:+ speedUnit)) ;;
  saveToStorage ;;
  let* cycling := gets (λ w, isCycling (spa w)) in
  if cycling then startCycling else ret tt.

(** *** Initialization *)

Definition loadFromStorage : M world unit :=
  let* savedLang :=
    on_host (Utils.storage_get "selectedLanguage" JNull NAMESPACE) in
  let* savedSpeed :=
    on_host (Utils.storage_get "cycleSpeed" JNull NAMESPACE) in
  let* ls := gets (λ w, languages (spa w)) in
  (if truthy savedLang then
     match savedLang with
     | JStr saved =>       (* only a string is [===] to a code *)
         if existsb (λ lang, String.eqb (code lang) saved) ls
         then with_ui (set_select_value saved)
         else ret tt
     | _ => ret tt
     end
   else ret tt) ;;
  let* unit := gets (λ w, speedUnit (app_metadata (spa w))) in
  let speedUnit := if String.eqb unit "" then "s" else unit in
  if truthy savedSpeed then
    with_ui (set_slider_value (to_string savedSpeed)) ;;
    with_ui (set_speedValue_text (to_string savedSpeed +:+ speedUnit))
  else
    let* v := gets (λ w, slider_value (ui w)) in
    with_ui (set_speedValue_text (v +:+ speedUnit)).

(** The page after [cacheElements], [populateStaticContent] and
    [populateLanguages]: the selector shows its first option. *)
Definition initial_world (md : metadata) (h : host) : world :=
  let codes := map code (md_languages md) in
  mkWorld (mkApp md (md_languages md) (Idx 0) None true)
          (mkDom "" false codes (hd "" codes) (defaultSpeed md) "" "" false)
          [] 1 h.

(** [initSPA02], once the metadata has been fetched. *)
Definition initSPA02 : M world unit :=
  loadFromStorage ;;
  let* initialLang := gets (λ w, select_value (ui w)) in
  let* ls := gets (λ w, languages (spa w)) in
  with_spa (set_currentIndex (Idx (findIndex initialLang ls))) ;;
  updateGreeting initialLang ;;
  startCycling.

(** *** Events delivered by the browser *)

Inductive event :=
| SelectChange (value : string)   (* the user picks an option *)
| SliderInput (value : string)
| Tick (id : nat)                 (* an interval timer comes due *)
| BeforeUnload.

(** An exception that escapes a listener ends it; what it did stays. *)
Definition handle (m : M world unit) (w : world) : world := snd (m w).

Definition dispatch (w : world) (e : event) : world :=
  match e with
  | SelectChange value =>
      if bool_decide (value ∈ select_options (ui w))
      then handle (with_ui (set_select_value value) ;;
                   on_language_change value) w
      else w                      (* only options can be picked *)
  | SliderInput value =>
      handle (with_ui (set_slider_value value) ;; on_speed_input value) w
  | Tick id =>
      if existsb (λ i, iid i =? id) (intervals w)
      then handle tick w
      else w                      (* a cleared interval never fires *)
  | BeforeUnload => handle stopCycling w
  end.

Definition run (w : world) (trace : list event) : world :=
  foldl dispatch w trace.

Definition start (md : metadata) (h : host) : world :=
  handle initSPA02 (initial_world md h).

(** The world after [stopCycling]. *)
Definition stopped (w : world) : world :=
  mkWorld (mkApp (app_metadata (spa w)) (languages (spa w))
                 (currentIndex (spa w)) None false)
          (set_status (status_manual_text (app_metadata (spa w))) false
                      (ui w))
          (match cycleInterval (spa w) with
           | Some id => filter (λ i, iid i ≠ id) (intervals w)
           | None => intervals w
           end)
          (nextInterval w) (hst w).

(** The world after [updateGreeting]. *)
Definition greeted (langCode : string) (w : world) : world :=
  match find_language langCode (languages (spa w)) with
  | None =>
      with_host
        (snd (invalid_language_code langCode (hst w))) w
  | Some language =>
      with_dom (set_greeting_rtl (rtl language)
                  (set_greeting_text (greeting language) (ui w))) w
  end.

(** The invariant of [CyclerState]. *)
Definition index_in_range (w : world) : Prop :=
  ∃ i, currentIndex (spa w) = Idx i
       ∧ (0 ≤ i < Z.of_nat (length (languages (spa w))))%Z.

(** What the invariant rests on: the language list is the one of the
    metadata and the selector offers exactly its codes. *)
Definition cycler_inv (ls : list language) (w : world) : Prop :=
  languages (spa w) = ls
  ∧ select_options (ui w) = map code ls
  ∧ index_in_range w.

(** The part of the world the invariant reads. *)
Definition index_view (w : world) : list language * index * list string :=
  (languages (spa w), currentIndex (spa w), select_options (ui w)).

End WithJSON.

End Cycler.

(** ** A reference JSON codec

    An executable instance of the [JSON] interface for texts without white
    space and numbers without fraction or exponent.  It is what the concrete
    runs below are evaluated with; the general theorems hold for every
    instance. *)

Module RefJSON.

Definition dquote : ascii := ascii_of_nat 34.
Definition backslash : ascii := ascii_of_nat 92.

Fixpoint escape (s : string) : string :=
  match s with
  | EmptyString => ""
  | String c rest =>
      if Ascii.eqb c dquote || Ascii.eqb c backslash
      then String backslash (String c (escape rest))
      else String c (escape rest)
  end.

Definition quote (s : string) : string :=
  String dquote (escape s +:+ String dquote "").

Fixpoint stringify (v : jsval) : string :=
  match v with
  | JNull => "null"
  | JBool true => "true"
  | JBool false => "false"
  | JNum n => pretty n
  | JStr s => quote s
  | JArr items => "[" +:+ String.concat "," (map stringify items) +:+ "]"
  | JObj fields =>
      "{" +:+ String.concat ","
                (map (λ kv, quote (fst kv) +:+ ":" +:+ stringify (snd kv))
                     fields)
          +:+ "}"
  end.

(** The characters of a string literal after its opening quote. *)
Fixpoint parse_chars (s : string) : option (string * string) :=
  match s with
  | EmptyString => None
  | String c rest =>
      if Ascii.eqb c dquote then Some ("", rest)
      else if Ascii.eqb c backslash then
        match rest with
        | String d rest' =>
            if Ascii.eqb d dquote || Ascii.eqb d backslash
            then prod_map (String d) id <$> parse_chars rest'
            else None
        | EmptyString => None
        end
      else prod_map (String c) id <$> parse_chars rest
  end.

Fixpoint parse_digits (acc : Z) (s : string) : Z * string :=
  match s with
  | String c rest =>
      match Ascii.is_nat c with
      | Some d => parse_digits (10 * acc + Z.of_nat d) rest
      | None => (acc, s)
      end
  | EmptyString => (acc, s)
  end.

Definition parse_nat (s : string) : option (Z * string) :=
  match s with
  | String c _ =>
      if bool_decide (is_Some (Ascii.is_nat c))
      then Some (parse_digits 0 s) else None
  | EmptyString => None
  end.

Definition strip (lit s : string) : option string :=
  if String.prefix lit s
  then Some (String.substring (String.length lit)
                              (String.length s - String.length lit) s)
  else None.

Fixpoint parse_value (fuel : nat) (s : string) : option (jsval * string) :=
  match fuel with
  | O => None
  | S fuel =>
      match s with
      | EmptyString => None
      | String c rest =>
          if Ascii.eqb c dquote then
            prod_map JStr id <$> parse_chars rest
          else if Ascii.eqb c "[" then
            match rest with
            | String "]" rest' => Some (JArr [], rest')
            | _ => prod_map JArr id <$> parse_items fuel rest
            end
          else if Ascii.eqb c "{" then
            match rest with
            | String "}" rest' => Some (JObj [], rest')
            | _ => prod_map JObj id <$> parse_fields fuel rest
            end
          else if Ascii.eqb c "-" then
            prod_map (λ n, JNum (- n)) id <$> parse_nat rest
          else
            match strip "null" s, strip "true" s, strip "false" s with
            | Some r, _, _ => Some (JNull, r)
            | _, Some r, _ => Some (JBool true, r)
            | _, _, Some r => Some (JBool false, r)
            | _, _, _ => prod_map JNum id <$> parse_nat s
            end
      end
  end
with parse_items (fuel : nat) (s : string) : option (list jsval * string) :=
  match fuel with
  | O => None
  | S fuel =>
      match parse_value fuel s with
      | Some (v, String "," rest) =>
          prod_map (cons v) id <$> parse_items fuel rest
      | Some (v, String "]" rest) => Some ([v], rest)
      | _ => None
      end
  end
with parse_fields (fuel : nat) (s : string)
    : option (list (string * jsval) * string) :=
  match fuel with
  | O => None
  | S fuel =>
      match s with
      | String c rest =>
          if Ascii.eqb c dquote then
            match parse_chars rest with
            | Some (k, String ":" rest') =>
                match parse_value fuel rest' with
                | Some (v, String "," rest'') =>
                    prod_map (cons (k, v)) id <$> parse_fields fuel rest''
                | Some (v, String "}" rest'') => Some ([(k, v)], rest'')
                | _ => None
                end
            | _ => None
            end
          else None
      | EmptyString => None
      end
  end.

Definition parse (s : string) : completion jsval :=
  match parse_value (S (String.length s)) s with
  | Some (v, EmptyString) => Normal v
  | _ => Throw SyntaxError
  end.

#[export] Instance ref_json : JSON := {|
  JSON_stringify := stringify;
  JSON_parse := parse;
  JSON_parse_empty := eq_refl
|}.

End RefJSON.

(** ** Concrete data for the runs below *)

Module Demo.
Import RefJSON.

(** The two routes and the messages of the shell. *)
Definition shell_metadata : Shell.metadata :=
  Shell.mkMetadata "Sample Project - Application Shell" "spa01" 300 10000 768
    [Shell.mkNav "spa01" "../spa01/spa01.html" "Hello World" "H" "Hello";
     Shell.mkNav "spa02" "../spa02/spa02.html" "Multi-Language" "M" "Languages"]
    "Sample Project"
    (Shell.mkMessages "Unknown application: {app}"
       "Loading timeout. The application took too long to respond."
       "The requested application could not be found."
       "Failed to load the application. Please check your connection.").

(** The same shell with a third page that has no title. *)
Definition untitled_metadata : Shell.metadata :=
  Shell.mkMetadata "Sample Project - Application Shell" "spa01" 300 10000 768
    [Shell.mkNav "spa01" "../spa01/spa01.html" "Hello World" "H" "Hello";
     Shell.mkNav "spa02" "../spa02/spa02.html" "Multi-Language" "M" "Languages";
     Shell.mkNav "raw" "../raw/raw.html" "" "R" "Raw"]
    "Sample Project"
    (Shell.content_error_messages shell_metadata).

Definition empty_host : host := mkHost ∅ 4096 [].
(** A browser whose storage is full. *)
Definition full_host : host := mkHost ∅ 0 [].

(** The shell opened at the bare URL, on a desktop viewport. *)
Definition shell_start : Shell.world :=
  Shell.initializeApp shell_metadata "SPA03" "" 1024 empty_host.

Definition untitled_start : Shell.world :=
  Shell.initializeApp untitled_metadata "SPA03" "" 1024 empty_host.

(** The first page has loaded after 50 ms. *)
Definition shell_loaded : Shell.world :=
  Shell.run shell_start [Shell.Elapse 50; Shell.IframeLoad Shell.CrossOrigin].

Definition untitled_loaded : Shell.world :=
  Shell.run untitled_start
            [Shell.Elapse 50; Shell.IframeLoad Shell.CrossOrigin].

(** The framed document of the server's error page. *)
Definition error_page : Shell.frame_doc :=
  Shell.SameOrigin "Error" "404 Not Found".

Definition three_languages : list Cycler.language :=
  [Cycler.mkLanguage "en" "English" "Hello World" false;
   Cycler.mkLanguage "ja" "Japanese" "Konnichiwa Sekai" false;
   Cycler.mkLanguage "ar" "Arabic" "Marhaban bil-Alam" true].

Definition cycler_metadata : Cycler.metadata :=
  Cycler.mkMetadata three_languages
    "Auto-cycling through languages..." "Manual mode - select a language"
    "s" "1.5".

Definition cycler_start : Cycler.world :=
  Cycler.start cycler_metadata empty_host.


End Demo.

(** ** shared/js/utils.js: removing entries *)

Module StorageOps.
Local Open Scope js_scope.

(** [localStorage.removeItem] *)
Definition removeItem (k : string) : M host unit :=
  modify (λ h, mkHost (delete k (localStorage h)) (storageQuota h)
                      (console h)).

(** [localStorage.clear] *)
Definition clearItems : M host unit :=
  modify (λ h, mkHost ∅ (storageQuota h) (console h)).

(** The keys in the order of [localStorage.key(0)], [localStorage.key(1)],
    ...: the order is the browser's own, here the one of the map. *)
Definition storage_keys : M host (list string) :=
  gets (λ h, (map_to_list (localStorage h)).*1).

(** [list.forEach(f)] *)
Fixpoint forEach {S A : Type} (f : A → M S unit) (l : list A) : M S unit :=
  match l with
  | [] => ret tt
  | x :: rest => f x ;; forEach f rest
  end.

(** [Utils.storage.remove(key, namespace)] *)
Definition storage_remove (key namespace : string) : M host bool :=
  try_catch
    (let finalKey := Utils.final_key namespace key in
     removeItem finalKey ;;
     ret true)
    (λ error,
     console_error "Error removing from localStorage:"
                   (Some (error_name error)) ;;
     ret false).

(** [Utils.storage.clear()] *)
Definition storage_clear : M host bool :=
  try_catch
    (clearItems ;;
     ret true)
    (λ error,
     console_error "Error clearing localStorage:"
                   (Some (error_name error)) ;;
     ret false).

(** [key && key.startsWith(`${namespace}.`)] *)
Definition in_namespace (namespace key : string) : bool :=
  negb (String.eqb key "") && Utils.startsWith key (namespace +:+ ".").

(** [Utils.storage.clearNamespace(namespace)]: the keys are collected
    first and removed afterwards. *)
Definition storage_clearNamespace (namespace : string) : M host bool :=
  try_catch
    (let* keys := storage_keys in
     let keysToRemove := List.filter (in_namespace namespace) keys in
     forEach removeItem keysToRemove ;;
     ret true)
    (λ error,
     console_error "Error clearing namespace:" (Some (error_name error)) ;;
     ret false).

End StorageOps.

(** ** shared/js/utils.js: loading JSON documents *)

Module DataLoader.

(** What a call of [fetch] resolves to: the promise is rejected, or there
    is a response with its [ok] flag, status and body. *)
Inductive response :=
| Rejected
| Responded (ok : bool) (status : Z) (body : string).

(** What can be thrown inside [loadJSON]. *)
Inductive failure :=
| FetchFailed                       (* the rejection of [fetch] *)
| HttpError (status : Z)            (* [new Error(`HTTP error! ...`)] *)
| InvalidJSON (e : error).          (* the rejection of [response.json()] *)

Definition failure_text (f : failure) : string :=
  match f with
  | FetchFailed => "TypeError: Failed to fetch"
  | HttpError status => "Error: HTTP error! status: " +:+ pretty status
  | InvalidJSON e => error_name e
  end.

(** The network as the loader sees it: the answers still to come, and a
    record of what the loader did. *)
Record net := mkNet {
  responses : list response;
  requested : list string;
  slept : list Z;
  net_console : list log_entry
}.

(** Computations that may throw a [failure]. *)
Definition L (A : Type) : Type := net → (failure + A) * net.

Definition l_ret {A} (a : A) : L A := λ n, (inr a, n).
Definition l_throw {A} (f : failure) : L A := λ n, (inl f, n).
Definition l_bind {A B} (m : L A) (k : A → L B) : L B :=
  λ n, match m n with
       | (inr a, n') => k a n'
       | (inl f, n') => (inl f, n')
       end.
(** [try { body } catch (error) { handler }] with a handler that returns. *)
Definition l_try {A} (body : L A) (handler : failure → net → A * net)
  : net → A * net :=
  λ n, match body n with
       | (inr a, n') => (a, n')
       | (inl f, n') => handler f n'
       end.

(** [await fetch(url)]: the next answer; with none left the request fails. *)
Definition fetch (url : string) : L (bool * Z * string) :=
  λ n,
    let n' := mkNet (tail (responses n)) (requested n ++ [url]) (slept n)
                    (net_console n) in
    match responses n with
    | Responded ok status body :: _ => (inr (ok, status, body), n')
    | _ => (inl FetchFailed, n')
    end.

(** [await new Promise(resolve => setTimeout(resolve, delay))] *)
Definition sleep (delay : Z) (n : net) : net :=
  mkNet (responses n) (requested n) (slept n ++ [delay]) (net_console n).

Definition log_failure (msg : string) (f : failure) (n : net) : net :=
  mkNet (responses n) (requested n) (slept n)
        (net_console n ++ [ConsoleError msg (Some (failure_text f))]).

Definition is_null (v : jsval) : bool :=
  match v with
  | JNull => true
  | _ => false
  end.

Section WithJSON.
Context `{JSON}.

(** [await response.json()] *)
Definition response_json (body : string) : L jsval :=
  λ n, match JSON_parse body with
       | Normal data => (inr data, n)
       | Throw e => (inl (InvalidJSON e), n)
       end.

(** [Utils.data.loadJSON(url)]; the result [JNull] is [null]. *)
Definition loadJSON (url : string) : net → jsval * net :=
  l_try
    (l_bind (fetch url) (λ response,
       let '(ok, status, body) := response in
       if negb ok then l_throw (HttpError status)
       else l_bind (response_json body) (λ data, l_ret data)))
    (λ error n, (JNull, log_failure "Error loading JSON:" error n)).

(** The loop of [loadJSONWithRetry] with [remaining = retries - i]
    iterations to go. *)
Fixpoint retry_loop (remaining : nat) (url : string) (delay : Z) (n : net)
  : jsval * net :=
  match remaining with
  | O => (JNull, n)
  | S rest =>
      let '(data, n) := loadJSON url n in
      if negb (is_null data) then (data, n)
      else
        let n := if (0 <? rest)%nat then sleep delay n else n in
        retry_loop rest url delay n
  end.

(** [Utils.data.loadJSONWithRetry(url, retries, delay)] *)
Definition loadJSONWithRetry (url : string) (retries delay : Z) (n : net)
  : jsval * net :=
  retry_loop (Z.to_nat retries) url delay n.

(** The document an answer amounts to: the parsed body of an [ok]
    response, and [null] for everything else. *)
Definition document_of (r : option response) : jsval :=
  match r with
  | Some (Responded true _ body) =>
      match JSON_parse body with
      | Normal data => data
      | Throw _ => JNull
      end
  | _ => JNull
  end.

End WithJSON.

End DataLoader.

(** ** Words of the placeholder syntax *)

Module Placeholder.



End Placeholder.

(** ** spa03/spa03.js: what stays true of the page *)

Module ShellPage.
Import Shell.

(** The entry of the route table that [loadMetadata] makes of a
    navigation item. *)
Definition route_of (nav : nav_item) : route :=
  mkRoute (nav_path nav) (nav_title nav).

(** The links as [populateNavigation] creates them. *)
Definition base_links (md : metadata) : list nav_link :=
  map (λ nav, mkLink (nav_id nav) false false) (content_navigation md).

(** The links once [updateActiveNavLink] has run for the current page. *)
Definition highlighted (current : option string) (links : list nav_link)
  : list nav_link :=
  match current with
  | Some spaId => map (activate spaId) links
  | None => links
  end.

(** The [src] the frame has for the current page. *)
Definition shown_path (routes : gmap string route) (current : option string)
  : string :=
  match current with
  | Some spaId =>
      match routes !! spaId with
      | Some route => route_path route
      | None => ""
      end
  | None => ""
  end.

(** The state and the page agree: the configuration is the one made of
    the metadata, the current page is a route and is what the frame and
    the links show, and the sidebar's classes follow [state.sidebarOpen]. *)
Record coherent (md : metadata) (w : world) : Prop := {
  coh_metadata : st_metadata (st w) = md;
  coh_config : st_config (st w) = build_config md;
  coh_current :
    ∀ spaId, currentSpa (st w) = Some spaId →
             is_Some (build_routes (content_navigation md) !! spaId);
  coh_frame :
    contentFrame_src (page w)
    = shown_path (build_routes (content_navigation md)) (currentSpa (st w));
  coh_links :
    navLinks (page w) = highlighted (currentSpa (st w)) (base_links md);
  coh_sidebar :
    sidebar_open (page w) = sidebarOpen (st w)
    ∧ sidebarOverlay_show (page w) = sidebarOpen (st w)
    ∧ appShell_sidebar_open (page w) = sidebarOpen (st w)
}.

(** A fragment that names a route is the current page. *)
Definition hash_agrees (w : world) : Prop :=
  location_hash (page w) ≠ "" →
  is_Some (spaRoutes (st_config (st w)) !! location_hash (page w)) →
  currentSpa (st w) = Some (location_hash (page w)).

Definition consistent (md : metadata) (w : world) : Prop :=
  coherent md w ∧ hash_agrees w.

(** What [coherent] and [hash_agrees] read of a world. *)
Definition page_view (w : world)
  : metadata * config * option string * bool * string * list nav_link
    * (bool * bool * bool) * string :=
  (st_metadata (st w), st_config (st w), currentSpa (st w),
   sidebarOpen (st w), contentFrame_src (page w), navLinks (page w),
   (sidebar_open (page w), sidebarOverlay_show (page w),
    appShell_sidebar_open (page w)),
   location_hash (page w)).

End ShellPage.


(** ** spa03/spa03.js: timers coming due *)

Module ShellTime.
Import Shell.

Fixpoint sorted_by_due (l : list timer) : Prop :=
  match l with
  | [] => True
  | t :: rest => Forall (λ u, (due t ≤ due u)%Z) rest ∧ sorted_by_due rest
  end.

(** Two worlds in which a load stands alike: what the timers of a
    navigation read and write is the same, and the timers with an id from
    [n] on are pending in both or in neither. *)
Definition same_load (n : nat) (w w' : world) : Prop :=
  load_view w = load_view w'
  ∧ the_messages w = the_messages w'
  ∧ ∀ id, n ≤ id → is_pending id (timers w) = is_pending id (timers w').

(** What [checkMobileState] reads and writes. *)
Definition mobile_view (w : world)
  : bool * bool * (bool * bool * bool) * Z * Z :=
  (isMobile (st w), sidebarOpen (st w),
   (sidebar_open (page w), sidebarOverlay_show (page w),
    appShell_sidebar_open (page w)),
   innerWidth (page w), mobileBreakpoint (st_config (st w))).

(** Two worlds in which the window stands alike, and the timer [id] of
    the debounced check is pending in both or in neither. *)
Definition same_window (id : nat) (w w' : world) : Prop :=
  mobile_view w = mobile_view w'
  ∧ resizeTimeout w = resizeTimeout w'
  ∧ is_pending id (timers w) = is_pending id (timers w').

End ShellTime.


(** ** spa02/spa02.js: what stays true of the cycler *)

Module CyclerLife.
Import Cycler.

(** The world after [startCycling]. *)
Definition started (w : world) : world :=
  mkWorld (mkApp (app_metadata (spa w)) (languages (spa w))
                 (currentIndex (spa w)) (Some (nextInterval w)) true)
          (set_status (status_cycling_text (app_metadata (spa w))) true
                      (ui w))
          (match cycleInterval (spa w) with
           | Some id => filter (λ i, iid i ≠ id) (intervals w)
           | None => intervals w
           end ++ [mkInterval (nextInterval w) (slider_value (ui w))])
          (S (nextInterval w)) (hst w).

(** What the timer discipline reads of a world. *)
Definition cycle_view (w : world)
  : metadata * option nat * bool * list interval * nat * string
    * string * bool :=
  (app_metadata (spa w), cycleInterval (spa w), isCycling (spa w),
   intervals w, nextInterval w, slider_value (ui w),
   status_text (ui w), status_cycling (ui w)).

(** At most one interval runs: the one [cycleInterval] names, at the
    speed the slider shows, and only in cycling mode, which the status
    line reports. *)
Definition one_interval (md : metadata) (w : world) : Prop :=
  app_metadata (spa w) = md
  ∧ status_cycling (ui w) = isCycling (spa w)
  ∧ status_text (ui w)
    = (if isCycling (spa w) then status_cycling_text md
       else status_manual_text md)
  ∧ match cycleInterval (spa w) with
    | Some id =>
        isCycling (spa w) = true
        ∧ intervals w = [mkInterval id (slider_value (ui w))]
    | None => isCycling (spa w) = false ∧ intervals w = []
    end.

(** What is shown is what is selected: the language at the current index
    has the selected code, and the greeting is the one of the first
    language with that code. *)
Definition shows_selection (w : world) : Prop :=
  ∃ lang first,
    language_at (currentIndex (spa w)) (languages (spa w)) = Some lang
    ∧ code lang = select_value (ui w)
    ∧ find_language (select_value (ui w)) (languages (spa w)) = Some first
    ∧ greeting_text (ui w) = greeting first
    ∧ greeting_rtl (ui w) = rtl first.

(** What [shows_selection] reads of a world. *)
Definition shown_view (w : world)
  : index * list language * string * string * bool :=
  (currentIndex (spa w), languages (spa w), select_value (ui w),
   greeting_text (ui w), greeting_rtl (ui w)).

End CyclerLife.



(** ** spa02/spa02.js: kinds of events *)

Module CyclerEvents.
Import Cycler.

(** The user picks a language. *)
Definition is_select (e : event) : bool :=
  match e with
  | SelectChange _ => true
  | _ => false
  end.

(** The user moves the speed slider. *)
Definition is_slider (e : event) : bool :=
  match e with
  | SliderInput _ => true
  | _ => false
  end.

End CyclerEvents.



(** ** spa03/spa03.js: the timers that are pending *)

Module ShellTimers.
Import Shell.

(** No two pending timers have the same id. *)
Definition distinct_ids (w : world) : Prop :=
  NoDup (map tid (pending (timers w))).

(** The three kinds of timers the shell sets. *)
Definition callbacks : list callback :=
  [ShowLoadingCb; IframeTimeoutCb; ResizeLaterCb].

End ShellTimers.

(** * Theorems *)

(** ** Strings *)



(** ** Utils.storage *)

Section StorageFacts.
Context `{JSON}.
Import Utils.


(** What [set] does, with the [try]/[catch] resolved. *)
Lemma storage_set_run (key : string) (value : jsval) (ns : string) (h : host) :
  let m := <[final_key ns key := JSON_stringify value]> (localStorage h) in
  storage_set key value ns h =
    if storage_size m <=? storageQuota h
    then (Normal true, mkHost m (storageQuota h) (console h))
    else (Normal false,
          mkHost (localStorage h) (storageQuota h)
                 (console h ++ [save_error QuotaExceededError])).
Proof.
  unfold storage_set, try_catch, bind, setItem. simpl.
  destruct (storage_size _ <=? storageQuota h); reflexivity.
Qed.

(** What [get] does, with the [try]/[catch] resolved. *)
Lemma storage_get_run (key : string) (d : jsval) (ns : string) (h : host) :
  storage_get key d ns h =
    match localStorage h !! final_key ns key with
    | None => (Normal d, h)
    | Some text =>
        match JSON_parse text with
        | Normal v => (Normal v, h)
        | Throw e =>
            if String.eqb text "" then (Normal d, h)
            else (Normal d,
                  mkHost (localStorage h) (storageQuota h)
                         (console h ++ [read_error e]))
        end
    end.
Proof.
  unfold storage_get, try_catch, bind, getItem, gets, lift, ret. simpl.
  destruct (localStorage h !! final_key ns key) as [text|]; [|done].
  destruct (String.eqb_spec text "") as [->|Hne]; simpl.
  - by rewrite JSON_parse_empty.
  - by destruct (JSON_parse text).
Qed.

Lemma storage_set_never_throws key value ns h :
  ∃ ok h', storage_set key value ns h = (Normal ok, h').
Proof.
  rewrite storage_set_run. simpl.
  destruct (_ <=? _); eauto.
Qed.

Lemma serializable_text_nonempty (v : jsval) :
  json_serializable v → JSON_stringify v ≠ "".
Proof.
  unfold json_serializable. intros Hv Hempty.
  rewrite Hempty, JSON_parse_empty in Hv. discriminate.
Qed.


(** C10: [get(key, defaultValue, namespace)] always returns and never
    throws.  It returns the parsed value when the text stored under the
    namespaced key parses as JSON, and [defaultValue] when there is no
    entry or the text does not parse; a failed parse of a non-empty text is
    logged, and the stored entries are never changed. *)
Theorem storage_get_total_no_throw
    (key : string) (d : jsval) (ns : string) (h : host) :
  ∃ v h',
    storage_get key d ns h = (Normal v, h')
    ∧ localStorage h' = localStorage h
    ∧ match localStorage h !! final_key ns key with
      | None => v = d ∧ h' = h
      | Some text =>
          match JSON_parse text with
          | Normal parsed => v = parsed ∧ h' = h
          | Throw e =>
              v = d
              ∧ console h' =
                  if String.eqb text "" then console h
                  else console h ++ [read_error e]
          end
      end.
Proof.
  rewrite storage_get_run.
  destruct (localStorage h !! final_key ns key) as [text|].
  - destruct (JSON_parse text).
    + by eexists _, _.
    + destruct (String.eqb text ""); by eexists _, _.
  - by eexists _, _.
Qed.

End StorageFacts.

(** ** The shell: what one call of [loadSpa] does *)

Section LoadSpaFacts.
Context `{JSON}.
Import Shell.

Lemma loadSpa_unknown (spaId : string) (w : world) :
  spaRoutes (st_config (st w)) !! spaId = None →
  loadSpa spaId w =
    showError (Utils.template (msg_unknown (the_messages w))
                              {["app" := spaId]}) w.
Proof. intros Hroute. unfold loadSpa. by rewrite Hroute. Qed.

(** The world after [loadSpa] of a known page, field by field. *)
Lemma loadSpa_known (spaId : string) (route : route) (w : world) :
  spaRoutes (st_config (st w)) !! spaId = Some route →
  loadSpa spaId w =
    let n := nextId (timers w) in
    let cleared :=
      clearTimeout (iframeLoadTimeout (st w))
                   (clearTimeout (loadingTimeout (st w)) (timers w)) in
    mkWorld
      (mkState (st_metadata (st w)) (st_config (st w)) (Some spaId)
               (isMobile (st w)) (sidebarOpen (st w)) true
               (Some n) (Some (S n)))
      (mkDom (loadingIndicator_show (page w)) false
             (errorMessage_text (page w))
             (if negb (String.eqb (route_title route) "")
              then route_title route +:+ " - "
                   +:+ content_sidebar_title (st_metadata (st w))
              else document_title (page w))
             (map (activate spaId) (navLinks (page w)))
             (route_path route)
             (sidebar_open (page w)) (sidebarOverlay_show (page w))
             (appShell_sidebar_open (page w)) (focused_link (page w))
             (location_hash (page w)) (innerWidth (page w)))
      (mkPool
         (pending cleared
          ++ [mkTimer n (now (timers w)
                         + Z.max 0 (loadingDelay (st_config (st w))))
                      ShowLoadingCb;
              mkTimer (S n) (now (timers w)
                             + Z.max 0 (iframeTimeout (st_config (st w))))
                      IframeTimeoutCb])
         (S (S n)) (now (timers w)))
      (resizeTimeout w)
      (snd (Utils.storage_set "lastVisitedSpa" (JStr spaId) NAMESPACE
                              (hst w))).
Proof.
  intros Hroute. unfold loadSpa. rewrite Hroute. simpl.
  destruct (storage_set_never_throws "lastVisitedSpa" (JStr spaId)
              NAMESPACE (hst w)) as (ok & h' & ->).
  unfold updatePageTitle. simpl. rewrite Hroute.
  destruct (loadingTimeout (st w)), (iframeLoadTimeout (st w)); simpl;
    destruct (String.eqb (route_title route) ""); simpl;
    rewrite <- ?app_assoc; reflexivity.
Qed.

End LoadSpaFacts.


(** ** Utils.format.template *)

Section TemplateFacts.
Import Utils.


Lemma string_app_cons (c : ascii) (s t : string) :
  String c s +:+ t = String c (s +:+ t).
Proof. reflexivity. Qed.





End TemplateFacts.

(** ** The shell: unknown routes and repeated requests *)

Section RoutingFacts.
Context `{JSON}.
Import Shell.


(** C1: a request for the page that is already current does nothing.
    Both entry points of a navigation, the click on a link and the change
    of the fragment, return the world they were given: no timer is
    scheduled, nothing is written to the store, the state is untouched. *)
Theorem request_current_page_noop (x : string) (w : world) :
  currentSpa (st w) = Some x →
  handleNavClick x w = w
  ∧ (location_hash (page w) = x → handleHashChange w = w)
  ∧ dispatch w (NavClick x) = w
  ∧ (let w' := dispatch w (HashChange x) in
     st w' = st w ∧ timers w' = timers w ∧ hst w' = hst w
     ∧ resizeTimeout w' = resizeTimeout w
     ∧ page w' = set_location_hash x (page w)).
Proof.
  intros Hcur.
  assert (Hsame : ∀ w0, currentSpa (st w0) = Some x →
                        is_other_page x w0 = false).
  { intros w0 Hw0. unfold is_other_page. rewrite Hw0.
    rewrite bool_decide_eq_true_2 by done. by rewrite andb_false_r. }
  assert (Hclick : handleNavClick x w = w).
  { unfold handleNavClick. by rewrite Hsame. }
  split; [done|]. split; [|split].
  - intros Hhash. unfold handleHashChange. rewrite Hhash. by rewrite Hsame.
  - simpl. rewrite Hclick. by rewrite String.eqb_refl.
  - simpl. unfold change_hash.
    destruct (String.eqb_spec x (location_hash (page w))) as [Heq|Hne].
    + repeat split. destruct w as [s [] p r h]; simpl in *. by subst.
    + unfold handleHashChange. simpl. by rewrite Hsame.
Qed.

End RoutingFacts.

(** ** The shell: the timer pool *)

Section TimerFacts.
Context `{JSON}.
Import Shell.

Lemma elem_of_cancel (t : timer) (id : nat) (l : list timer) :
  t ∈ cancel id l ↔ tid t ≠ id ∧ t ∈ l.
Proof. unfold cancel. by rewrite list_elem_of_filter. Qed.

Lemma is_pending_true (id : nat) (p : pool) :
  is_pending id p = true ↔ ∃ t, t ∈ pending p ∧ tid t = id.
Proof.
  unfold is_pending. rewrite existsb_exists. split.
  - intros (t & Hin & Heq). exists t. split; [by apply list_elem_of_In|].
    by apply Nat.eqb_eq.
  - intros (t & Hin & Heq). exists t. split; [by apply list_elem_of_In|].
    by apply Nat.eqb_eq.
Qed.

Lemma is_pending_false (id : nat) (p : pool) :
  is_pending id p = false ↔ ∀ t, t ∈ pending p → tid t ≠ id.
Proof.
  split.
  - intros Hnot t Ht Heq.
    assert (is_pending id p = true) by (apply is_pending_true; eauto).
    congruence.
  - intros Hall. destruct (is_pending id p) eqn:Hp; [|done].
    apply is_pending_true in Hp as (t & Ht & Heq). by destruct (Hall t Ht).
Qed.

Lemma elem_of_clearTimeout (t : timer) (handle : option nat) (p : pool) :
  t ∈ pending (clearTimeout handle p) → t ∈ pending p.
Proof.
  destruct handle as [id|]; simpl; [|done].
  rewrite elem_of_cancel. tauto.
Qed.

Lemma clearTimeout_cancels (t : timer) (p : pool) :
  t ∈ pending (clearTimeout (Some (tid t)) p) → False.
Proof. simpl. rewrite elem_of_cancel. tauto. Qed.

Lemma nextId_clearTimeout (handle : option nat) (p : pool) :
  nextId (clearTimeout handle p) = nextId p.
Proof. by destruct handle. Qed.

Lemma now_clearTimeout (handle : option nat) (p : pool) :
  now (clearTimeout handle p) = now p.
Proof. by destruct handle. Qed.

Lemma evolves_refl (w : world) : evolves w w.
Proof. split; [lia | auto]. Qed.

Lemma evolves_trans (w1 w2 w3 : world) :
  evolves w1 w2 → evolves w2 w3 → evolves w1 w3.
Proof.
  intros [Hn12 Hp12] [Hn23 Hp23]. split; [lia|].
  intros t Ht. destruct (Hp23 t Ht) as [Ht2|Hnew]; [|right; lia].
  destruct (Hp12 t Ht2); [by left | by right].
Qed.

(** A step that only removes timers. *)
Lemma evolves_shrink (w w' : world) :
  nextId (timers w') = nextId (timers w) →
  (∀ t, t ∈ pending (timers w') → t ∈ pending (timers w)) →
  evolves w w'.
Proof. intros Hn Hp. split; [lia | auto]. Qed.

Lemma retired_evolves (id : nat) (w w' : world) :
  evolves w w' → retired id w → retired id w'.
Proof.
  intros [Hn Hp] [Hlt Hnot]. split; [lia|].
  apply is_pending_false. intros t Ht.
  destruct (Hp t Ht) as [Hold|Hnew]; [|lia].
  by apply (proj1 (is_pending_false id (timers w))).
Qed.

(** *** Each handler evolves the pool *)

Lemma evolves_loadSpa (spaId : string) (w : world) :
  evolves w (loadSpa spaId w).
Proof.
  destruct (spaRoutes (st_config (st w)) !! spaId) as [route|] eqn:Hroute.
  - rewrite (loadSpa_known _ _ _ Hroute). split; simpl; [lia|].
    intros t [Hold|Hnew]%elem_of_app.
    + left. by do 2 apply elem_of_clearTimeout in Hold.
    + right. apply elem_of_cons in Hnew as [->|Hnew]; [simpl; lia|].
      apply list_elem_of_singleton in Hnew as ->. simpl. lia.
  - rewrite loadSpa_unknown by done. by apply evolves_shrink.
Qed.

Lemma evolves_handleIframeLoad (doc : frame_doc) (w : world) :
  evolves w (handleIframeLoad doc w).
Proof.
  apply evolves_shrink.
  - unfold handleIframeLoad. destruct doc as [|doc_title body_text]; simpl;
      [|destruct (_ || _); simpl]; by rewrite !nextId_clearTimeout.
  - intros t. unfold handleIframeLoad.
    destruct doc as [|doc_title body_text]; simpl;
      [|destruct (_ || _); simpl];
      intros Ht; by do 2 apply elem_of_clearTimeout in Ht.
Qed.

Lemma evolves_handleIframeError (w : world) :
  evolves w (handleIframeError w).
Proof.
  apply evolves_shrink; simpl.
  - by rewrite !nextId_clearTimeout.
  - intros t Ht. by do 2 apply elem_of_clearTimeout in Ht.
Qed.

Lemma timers_closeSidebar (w : world) : timers (closeSidebar w) = timers w.
Proof. reflexivity. Qed.

Lemma timers_checkMobileState (w : world) :
  timers (checkMobileState w) = timers w.
Proof. unfold checkMobileState. simpl. by destruct (_ && _). Qed.

Lemma timers_run_callback (c : callback) (w : world) :
  timers (run_callback c w) =
    match c with
    | ResizeLaterCb => clearTimeout (resizeTimeout w) (timers w)
    | _ => timers w
    end.
Proof.
  destruct c; simpl; try by destruct (loading (st w)).
  by rewrite timers_checkMobileState.
Qed.

Lemma evolves_fire (t : timer) (w : world) : evolves w (fire t w).
Proof.
  unfold fire. destruct (is_pending (tid t) (timers w)); [|apply evolves_refl].
  apply evolves_shrink.
  - rewrite timers_run_callback. destruct (cb t); simpl;
      by rewrite ?nextId_clearTimeout.
  - intros u. rewrite timers_run_callback.
    destruct (cb t); simpl; intros Hu;
      try apply elem_of_clearTimeout in Hu; simpl in Hu;
      apply elem_of_cancel in Hu; tauto.
Qed.

Lemma evolves_fire_all (l : list timer) (w : world) :
  evolves w (foldl (λ w t, fire t w) w l).
Proof.
  revert w. induction l as [|t l IH]; intros w; simpl; [apply evolves_refl|].
  eapply evolves_trans; [apply evolves_fire | apply IH].
Qed.

Lemma evolves_elapse (dt : Z) (w : world) : evolves w (elapse dt w).
Proof.
  unfold elapse.
  destruct (evolves_fire_all
              (due_timers (now (timers w) + Z.max 0 dt) (timers w)) w)
    as [Hn Hp].
  split; simpl; auto.
Qed.

Lemma evolves_debounced (w : world) :
  evolves w (debounced_checkMobileState w).
Proof.
  unfold debounced_checkMobileState. simpl. split; simpl.
  - rewrite nextId_clearTimeout. lia.
  - intros t [Hold|Hnew]%elem_of_app.
    + left. by apply elem_of_clearTimeout in Hold.
    + right. apply list_elem_of_singleton in Hnew as ->. simpl.
      by rewrite nextId_clearTimeout.
Qed.

Lemma evolves_handleHashChange (w : world) : evolves w (handleHashChange w).
Proof.
  unfold handleHashChange. destruct (is_other_page _ w);
    [apply evolves_loadSpa | apply evolves_refl].
Qed.

Lemma evolves_dispatch (w : world) (e : event) : evolves w (dispatch w e).
Proof.
  destruct e as [spaId|fragment|doc| | | | |key|width|dt]; simpl.
  - assert (Hclick : evolves w (handleNavClick spaId w)).
    { apply evolves_shrink; unfold handleNavClick;
        destruct (is_other_page spaId w); simpl; try done;
        by destruct (isMobile (st w)). }
    destruct (String.eqb _ _); [done|].
    eapply evolves_trans; [done | apply evolves_handleHashChange].
  - unfold change_hash. destruct (String.eqb _ _); [apply evolves_refl|].
    eapply evolves_trans; [|apply evolves_handleHashChange].
    by apply evolves_shrink.
  - apply evolves_handleIframeLoad.
  - apply evolves_handleIframeError.
  - unfold retryLoadSpa. destruct (currentSpa (st w)) as [spaId|];
      [|apply evolves_refl].
    destruct (negb _); [apply evolves_loadSpa | apply evolves_refl].
  - unfold toggleSidebar, openSidebar.
    destruct (sidebarOpen (st w)); simpl; [by apply evolves_shrink|].
    destruct (navLinks (page w)); by apply evolves_shrink.
  - by apply evolves_shrink.
  - unfold handleKeyDown. destruct (_ && _); by apply evolves_shrink.
  - eapply evolves_trans; [|apply evolves_debounced]. by apply evolves_shrink.
  - apply evolves_elapse.
Qed.

Lemma evolves_run (trace : list event) (w : world) :
  evolves w (run w trace).
Proof.
  revert w. induction trace as [|e trace IH]; intros w; simpl;
    [apply evolves_refl|].
  eapply evolves_trans; [apply evolves_dispatch | apply IH].
Qed.

(** A timer that has been cancelled or has run is never pending again,
    whatever happens next. *)
Lemma retired_forever (id : nat) (w : world) (trace : list event) :
  retired id w → retired id (run w trace).
Proof. apply retired_evolves, evolves_run. Qed.

End TimerFacts.

(** ** The shell: every pending timer is tracked by its handle *)

Section TrackedFacts.
Context `{JSON}.
Import Shell.

(** A step that only removes timers and keeps the handles. *)
Lemma tracked_shrink (w w' : world) :
  (∀ c, handle_of c w' = handle_of c w) →
  nextId (timers w') = nextId (timers w) →
  (∀ t, t ∈ pending (timers w') → t ∈ pending (timers w)) →
  timers_tracked w → timers_tracked w'.
Proof.
  intros Hh Hn Hp [Hhandle Hfresh]. split; intros t Ht.
  - rewrite Hh. auto.
  - rewrite Hn. auto.
Qed.

Lemma tracked_loadSpa (spaId : string) (w : world) :
  timers_tracked w → timers_tracked (loadSpa spaId w).
Proof.
  intros Hw.
  destruct (spaRoutes (st_config (st w)) !! spaId) as [route|] eqn:Hroute.
  - destruct Hw as [Hhandle Hfresh].
    rewrite (loadSpa_known _ _ _ Hroute). split; simpl.
    + intros t [Hold|Hnew]%elem_of_app.
      * assert (Ht : t ∈ pending (timers w))
          by (by do 2 apply elem_of_clearTimeout in Hold).
        specialize (Hhandle t Ht).
        destruct (cb t) eqn:Hcb; simpl in *.
        -- rewrite Hhandle in Hold.
           apply elem_of_clearTimeout in Hold.
           by apply clearTimeout_cancels in Hold.
        -- rewrite Hhandle in Hold.
           by apply clearTimeout_cancels in Hold.
        -- done.
      * apply elem_of_cons in Hnew as [->|Hnew]; [done|].
        by apply list_elem_of_singleton in Hnew as ->.
    + intros t [Hold|Hnew]%elem_of_app.
      * do 2 apply elem_of_clearTimeout in Hold.
        specialize (Hfresh t Hold). lia.
      * apply elem_of_cons in Hnew as [->|Hnew]; [simpl; lia|].
        apply list_elem_of_singleton in Hnew as ->. simpl. lia.
  - rewrite loadSpa_unknown by done. by apply (tracked_shrink w).
Qed.

Lemma tracked_handleIframeLoad (doc : frame_doc) (w : world) :
  timers_tracked w → timers_tracked (handleIframeLoad doc w).
Proof.
  apply tracked_shrink.
  - intros c. unfold handleIframeLoad.
    destruct doc as [|doc_title body_text]; simpl;
      [|destruct (_ || _); simpl]; by destruct c.
  - unfold handleIframeLoad. destruct doc as [|doc_title body_text]; simpl;
      [|destruct (_ || _); simpl]; by rewrite !nextId_clearTimeout.
  - intros t. unfold handleIframeLoad.
    destruct doc as [|doc_title body_text]; simpl;
      [|destruct (_ || _); simpl];
      intros Ht; by do 2 apply elem_of_clearTimeout in Ht.
Qed.

Lemma tracked_handleIframeError (w : world) :
  timers_tracked w → timers_tracked (handleIframeError w).
Proof.
  apply tracked_shrink; simpl.
  - by intros [].
  - by rewrite !nextId_clearTimeout.
  - intros t Ht. by do 2 apply elem_of_clearTimeout in Ht.
Qed.

Lemma handle_of_checkMobileState (c : callback) (w : world) :
  handle_of c (checkMobileState w) = handle_of c w.
Proof.
  unfold checkMobileState. simpl. destruct (_ && _); by destruct c.
Qed.

Lemma tracked_fire (t : timer) (w : world) :
  timers_tracked w → timers_tracked (fire t w).
Proof.
  unfold fire. destruct (is_pending (tid t) (timers w)); [|done].
  apply tracked_shrink.
  - intros c. destruct (cb t); simpl.
    + destruct (loading (st w)); by destruct c.
    + destruct (loading (st w)); by destruct c.
    + rewrite handle_of_checkMobileState. by destruct c.
  - rewrite timers_run_callback. destruct (cb t); simpl;
      by rewrite ?nextId_clearTimeout.
  - intros u. rewrite timers_run_callback.
    destruct (cb t); simpl; intros Hu;
      try apply elem_of_clearTimeout in Hu; simpl in Hu;
      apply elem_of_cancel in Hu; tauto.
Qed.

Lemma tracked_fire_all (l : list timer) (w : world) :
  timers_tracked w → timers_tracked (foldl (λ w t, fire t w) w l).
Proof.
  revert w. induction l as [|t l IH]; intros w Hw; simpl; [done|].
  by apply IH, tracked_fire.
Qed.

Lemma tracked_elapse (dt : Z) (w : world) :
  timers_tracked w → timers_tracked (elapse dt w).
Proof.
  intros Hw. unfold elapse.
  set (l := due_timers _ _).
  by apply (tracked_shrink (foldl (λ w t, fire t w) w l)),
           tracked_fire_all.
Qed.

Lemma tracked_debounced (w : world) :
  timers_tracked w → timers_tracked (debounced_checkMobileState w).
Proof.
  intros [Hhandle Hfresh]. unfold debounced_checkMobileState.
  split; simpl.
  - intros t [Hold|Hnew]%elem_of_app.
    + assert (Ht : t ∈ pending (timers w))
        by (by apply elem_of_clearTimeout in Hold).
      specialize (Hhandle t Ht).
      destruct (cb t) eqn:Hcb; simpl in *; try done.
      rewrite Hhandle in Hold. by apply clearTimeout_cancels in Hold.
    + by apply list_elem_of_singleton in Hnew as ->.
  - rewrite nextId_clearTimeout.
    intros t [Hold|Hnew]%elem_of_app.
    + apply elem_of_clearTimeout in Hold. specialize (Hfresh t Hold). lia.
    + apply list_elem_of_singleton in Hnew as ->. simpl. lia.
Qed.

Lemma tracked_handleHashChange (w : world) :
  timers_tracked w → timers_tracked (handleHashChange w).
Proof.
  unfold handleHashChange. destruct (is_other_page _ w); [|done].
  apply tracked_loadSpa.
Qed.

Lemma tracked_dispatch (w : world) (e : event) :
  timers_tracked w → timers_tracked (dispatch w e).
Proof.
  intros Hw.
  destruct e as [spaId|fragment|doc| | | | |key|width|dt]; simpl.
  - assert (Hclick : timers_tracked (handleNavClick spaId w)).
    { unfold handleNavClick. destruct (is_other_page spaId w); [|done].
      simpl. destruct (isMobile (st w)); revert Hw;
        apply tracked_shrink; try done; by intros []. }
    destruct (String.eqb (location_hash (page (handleNavClick spaId w))) _);
      [done|]. by apply tracked_handleHashChange.
  - unfold change_hash. destruct (String.eqb _ _); [done|].
    apply tracked_handleHashChange. revert Hw.
    apply tracked_shrink; try done; by intros [].
  - by apply tracked_handleIframeLoad.
  - by apply tracked_handleIframeError.
  - unfold retryLoadSpa. destruct (currentSpa (st w)) as [spaId|]; [|done].
    destruct (negb _); [by apply tracked_loadSpa | done].
  - revert Hw. unfold toggleSidebar, openSidebar.
    destruct (sidebarOpen (st w)); simpl.
    + apply tracked_shrink; try done; by intros [].
    + destruct (navLinks (page w)); apply tracked_shrink; try done;
        by intros [].
  - revert Hw. apply tracked_shrink; try done; by intros [].
  - revert Hw. unfold handleKeyDown. destruct (_ && _); [|done].
    apply tracked_shrink; try done; by intros [].
  - apply tracked_debounced. revert Hw.
    apply tracked_shrink; try done; by intros [].
  - by apply tracked_elapse.
Qed.

Lemma tracked_run (trace : list event) (w : world) :
  timers_tracked w → timers_tracked (run w trace).
Proof.
  revert w. induction trace as [|e trace IH]; intros w Hw; simpl; [done|].
  by apply IH, tracked_dispatch.
Qed.

Lemma tracked_no_timers (w : world) :
  pending (timers w) = [] → timers_tracked w.
Proof.
  intros Hnone. split; intros t Ht; rewrite Hnone in Ht;
    by apply elem_of_nil in Ht.
Qed.

Lemma timers_setupRouting (w : world) : timers (setupRouting w) = timers w.
Proof.
  unfold setupRouting.
  destruct (Utils.storage_get _ _ _ _) as [[savedSpa|e] h']; simpl; [|done].
  by destruct (String.eqb _ "").
Qed.

(** The shell starts with its timers tracked. *)
Lemma tracked_initializeApp (md : metadata) (html_title fragment : string)
    (width : Z) (h : host) :
  timers_tracked (initializeApp md html_title fragment width h).
Proof.
  unfold initializeApp, loadInitialSpa.
  apply tracked_loadSpa, tracked_no_timers.
  by rewrite timers_setupRouting, timers_checkMobileState.
Qed.

(** Every world the shell can be in has its timers tracked. *)
Lemma tracked_reachable (md : metadata) (html_title fragment : string)
    (width : Z) (h : host) (trace : list event) :
  timers_tracked (run (initializeApp md html_title fragment width h) trace).
Proof. apply tracked_run, tracked_initializeApp. Qed.

End TrackedFacts.

(** ** The shell: superseding navigation *)

Section SupersedeFacts.
Context `{JSON}.
Import Shell.

(** Clearing the two handles leaves no timer of a navigation behind. *)
Lemma nav_timers_cleared (w : world) :
  timers_tracked w →
  filter (λ t, is_nav_callback (cb t) = true)
         (pending (clearTimeout (iframeLoadTimeout (st w))
                     (clearTimeout (loadingTimeout (st w)) (timers w))))
  = [].
Proof.
  intros [Hhandle _]. apply elem_of_nil_inv. intros t Ht.
  apply list_elem_of_filter in Ht as [Hnav Hold].
  assert (Ht : t ∈ pending (timers w))
    by (by do 2 apply elem_of_clearTimeout in Hold).
  specialize (Hhandle t Ht).
  destruct (cb t) eqn:Hcb; simpl in *; [| |done].
  - rewrite Hhandle in Hold. apply elem_of_clearTimeout in Hold.
    by apply clearTimeout_cancels in Hold.
  - rewrite Hhandle in Hold. by apply clearTimeout_cancels in Hold.
Qed.

(** After [loadSpa] of a known page the navigation timers are exactly the
    pair it scheduled. *)
Lemma nav_timers_loadSpa (spaId : string) (route : route) (w : world) :
  timers_tracked w →
  spaRoutes (st_config (st w)) !! spaId = Some route →
  let n := nextId (timers w) in
  let w' := loadSpa spaId w in
  loadingTimeout (st w') = Some n
  ∧ iframeLoadTimeout (st w') = Some (S n)
  ∧ nextId (timers w') = S (S n)
  ∧ nav_timers w' =
      [mkTimer n (now (timers w)
                  + Z.max 0 (loadingDelay (st_config (st w))))
               ShowLoadingCb;
       mkTimer (S n) (now (timers w)
                      + Z.max 0 (iframeTimeout (st_config (st w))))
               IframeTimeoutCb].
Proof.
  intros Hw Hroute n w'. subst w'. rewrite (loadSpa_known _ _ _ Hroute).
  repeat split. unfold nav_timers. simpl.
  rewrite filter_app, nav_timers_cleared by done. reflexivity.
Qed.

(** C4: when [loadSpa a] is followed by [loadSpa b], both for known pages,
    the second call cancels the two timers of the first before it schedules
    its own: afterwards the navigation timers are exactly the pair of [b],
    under the handles of the state, and the two timers of [a] are never
    pending again, whatever events follow, so they never fire. *)
Theorem superseded_timers_cancelled
    (a b : string) (route_a route_b : route) (w : world) :
  timers_tracked w →
  spaRoutes (st_config (st w)) !! a = Some route_a →
  spaRoutes (st_config (st w)) !! b = Some route_b →
  let wa := loadSpa a w in
  let wb := loadSpa b wa in
  ∃ ta1 ta2 tb1 tb2,
    loadingTimeout (st wa) = Some ta1
    ∧ iframeLoadTimeout (st wa) = Some ta2
    ∧ nav_timers wa =
        [mkTimer ta1 (now (timers w)
                      + Z.max 0 (loadingDelay (st_config (st w))))
                 ShowLoadingCb;
         mkTimer ta2 (now (timers w)
                      + Z.max 0 (iframeTimeout (st_config (st w))))
                 IframeTimeoutCb]
    ∧ loadingTimeout (st wb) = Some tb1
    ∧ iframeLoadTimeout (st wb) = Some tb2
    ∧ nav_timers wb =
        [mkTimer tb1 (now (timers w)
                      + Z.max 0 (loadingDelay (st_config (st w))))
                 ShowLoadingCb;
         mkTimer tb2 (now (timers w)
                      + Z.max 0 (iframeTimeout (st_config (st w))))
                 IframeTimeoutCb]
    ∧ (∀ trace,
         is_pending ta1 (timers (run wb trace)) = false
         ∧ is_pending ta2 (timers (run wb trace)) = false).
Proof.
  intros Hw Ha Hb wa wb.
  assert (Hwa : timers_tracked wa) by (by apply tracked_loadSpa).
  assert (Hcfg : st_config (st wa) = st_config (st w))
    by (subst wa; by rewrite (loadSpa_known _ _ _ Ha)).
  assert (Hnow : now (timers wa) = now (timers w))
    by (subst wa; by rewrite (loadSpa_known _ _ _ Ha)).
  assert (Hb' : spaRoutes (st_config (st wa)) !! b = Some route_b)
    by (by rewrite Hcfg).
  destruct (nav_timers_loadSpa a route_a w Hw Ha) as (Ha1 & Ha2 & Han & Hat).
  destruct (nav_timers_loadSpa b route_b wa Hwa Hb')
    as (Hb1 & Hb2 & Hbn & Hbt).
  fold wa in Ha1, Ha2, Han, Hat. fold wb in Hb1, Hb2, Hbn, Hbt.
  rewrite Hcfg, Hnow in Hbt.
  eexists _, _, _, _. do 6 (split; [eassumption|]).
  assert (Hgone : ∀ id, (id = nextId (timers w) ∨ id = S (nextId (timers w)))
                        → retired id wb).
  { intros id Hid. split; [rewrite Hbn, Han; lia|].
    apply is_pending_false. intros t Ht Heq.
    subst wb. rewrite (loadSpa_known _ _ _ Hb') in Ht. simpl in Ht.
    rewrite Ha1, Ha2 in Ht. simpl in Ht.
    apply elem_of_app in Ht as [Hold|Hnew].
    - apply elem_of_cancel in Hold as [Hne2 Hold].
      apply elem_of_cancel in Hold as [Hne1 _]. lia.
    - rewrite Han in Hnew.
      apply elem_of_cons in Hnew as [->|Hnew]; [simpl in Heq; lia|].
      apply list_elem_of_singleton in Hnew as ->. simpl in Heq. lia. }
  intros trace. split.
  - apply (retired_forever _ wb trace). apply Hgone. by left.
  - apply (retired_forever _ wb trace). apply Hgone. by right.
Qed.

End SupersedeFacts.

(** ** The shell: the persisted last-visited page *)

Section PersistFacts.
Context `{JSON}.
Import Shell.

Lemma hst_checkMobileState (w : world) : hst (checkMobileState w) = hst w.
Proof. unfold checkMobileState. simpl. by destruct (_ && _). Qed.

Lemma hst_fire (t : timer) (w : world) : hst (fire t w) = hst w.
Proof.
  unfold fire. destruct (is_pending _ _); [|done].
  destruct (cb t); simpl; try by destruct (loading (st w)).
  by rewrite hst_checkMobileState.
Qed.

Lemma hst_fire_all (l : list timer) (w : world) :
  hst (foldl (λ w t, fire t w) w l) = hst w.
Proof.
  revert w. induction l as [|t l IH]; intros w; simpl; [done|].
  by rewrite IH, hst_fire.
Qed.

Lemma hst_elapse (dt : Z) (w : world) : hst (elapse dt w) = hst w.
Proof. unfold elapse. simpl. apply hst_fire_all. Qed.

(** Only a request for a page writes to the store. *)
Lemma localStorage_dispatch (w : world) (e : event) :
  is_request e = false →
  localStorage (hst (dispatch w e)) = localStorage (hst w).
Proof.
  destruct e as [spaId|fragment|doc| | | | |key|width|dt];
    cbn [dispatch is_request]; try discriminate; intros _.
  - unfold handleIframeLoad. destruct doc as [|doc_title body_text]; simpl;
      [done|]. by destruct (_ || _).
  - done.
  - unfold toggleSidebar, openSidebar. destruct (sidebarOpen (st w)); simpl;
      [done|]. by destruct (navLinks (page w)).
  - done.
  - unfold handleKeyDown. by destruct (_ && _).
  - done.
  - by rewrite hst_elapse.
Qed.

Lemma localStorage_run (trace : list event) (w : world) :
  Forall (λ e, is_request e = false) trace →
  localStorage (hst (run w trace)) = localStorage (hst w).
Proof.
  intros Htrace. revert w.
  induction Htrace as [|e trace He _ IH]; intros w; simpl; [done|].
  by rewrite IH, localStorage_dispatch.
Qed.

(** What [get] returns depends on the stored entries only. *)
Lemma storage_get_ext (key : string) (d : jsval) (ns : string) (h1 h2 : host) :
  localStorage h1 = localStorage h2 →
  fst (Utils.storage_get key d ns h1) = fst (Utils.storage_get key d ns h2).
Proof.
  intros Heq. rewrite !storage_get_run, Heq.
  destruct (localStorage h2 !! _) as [text|]; [|done].
  destruct (JSON_parse text); [done|]. by destruct (String.eqb text "").
Qed.


End PersistFacts.

(** ** The shell: resolution of a load *)

Section ResolutionFacts.
Context `{JSON}.
Import Shell.

Lemma nav_view_checkMobileState (w : world) :
  nav_view (checkMobileState w) = nav_view w.
Proof. unfold checkMobileState. simpl. by destruct (_ && _). Qed.

Lemma nav_view_fire (t : timer) (w : world) :
  nav_view (fire t w) = nav_view w.
Proof.
  unfold fire. destruct (is_pending _ _); [|done].
  destruct (cb t); simpl; try by destruct (loading (st w)).
  by rewrite nav_view_checkMobileState.
Qed.

Lemma nav_view_fire_all (l : list timer) (w : world) :
  nav_view (foldl (λ w t, fire t w) w l) = nav_view w.
Proof.
  revert w. induction l as [|t l IH]; intros w; simpl; [done|].
  by rewrite IH, nav_view_fire.
Qed.

(** Only a request changes the current page, the highlighting, the title. *)
Lemma nav_view_dispatch (w : world) (e : event) :
  is_request e = false → nav_view (dispatch w e) = nav_view w.
Proof.
  destruct e as [spaId|fragment|doc| | | | |key|width|dt];
    cbn [dispatch is_request]; try discriminate; intros _.
  - unfold handleIframeLoad. destruct doc as [|doc_title body_text]; simpl;
      [done|]. by destruct (_ || _).
  - done.
  - unfold toggleSidebar, openSidebar. destruct (sidebarOpen (st w)); simpl;
      [done|]. by destruct (navLinks (page w)).
  - done.
  - unfold handleKeyDown. by destruct (_ && _).
  - done.
  - unfold elapse. set (l := due_timers _ _).
    by rewrite <- (nav_view_fire_all l w).
Qed.

Lemma nav_view_run (trace : list event) (w : world) :
  Forall (λ e, is_request e = false) trace →
  nav_view (run w trace) = nav_view w.
Proof.
  intros Htrace. revert w.
  induction Htrace as [|e trace He _ IH]; intros w; simpl; [done|].
  by rewrite IH, nav_view_dispatch.
Qed.

(** The debounced resize check neither shows nor hides anything of a load. *)
Lemma load_view_fire_resize (t : timer) (w : world) :
  cb t = ResizeLaterCb → load_view (fire t w) = load_view w.
Proof.
  intros Hcb. unfold fire. destruct (is_pending _ _); [|done].
  rewrite Hcb. unfold run_callback, checkMobileState. simpl.
  by destruct (_ && _).
Qed.

Lemma load_view_fire_all_resize (l : list timer) (w : world) :
  Forall (λ t, cb t = ResizeLaterCb) l →
  load_view (foldl (λ w t, fire t w) w l) = load_view w.
Proof.
  intros Hl. revert w.
  induction Hl as [|t l Ht _ IH]; intros w; simpl; [done|].
  by rewrite IH, load_view_fire_resize.
Qed.

Lemma elem_of_insert_by_due (t u : timer) (l : list timer) :
  u ∈ insert_by_due t l → u = t ∨ u ∈ l.
Proof.
  induction l as [|v l IH]; simpl.
  - intros Hu%list_elem_of_singleton. by left.
  - destruct (due t <? due v)%Z.
    + intros [->|Hu]%elem_of_cons; [by left | by right].
    + intros [->|Hu]%elem_of_cons; [right; by left|].
      destruct (IH Hu); [by left | right; by right].
Qed.

Lemma elem_of_sort_by_due (u : timer) (l : list timer) :
  u ∈ sort_by_due l → u ∈ l.
Proof.
  induction l as [|t l IH]; simpl; [done|].
  intros [->|Hu]%elem_of_insert_by_due; [by left | right; auto].
Qed.

Lemma elem_of_due_timers (u : timer) (deadline : Z) (p : pool) :
  u ∈ due_timers deadline p → u ∈ pending p ∧ (due u ≤ deadline)%Z.
Proof.
  unfold due_timers. intros Hu%elem_of_sort_by_due.
  apply list_elem_of_filter in Hu. tauto.
Qed.

(** While neither timer of the navigation is due, time passing changes
    nothing of the load. *)
Lemma load_view_elapse_early (dt : Z) (w : world) :
  (∀ t, t ∈ nav_timers w → (now (timers w) + Z.max 0 dt < due t)%Z) →
  load_view (elapse dt w) = load_view w.
Proof.
  intros Hearly. unfold elapse.
  set (deadline := (now (timers w) + Z.max 0 dt)%Z).
  transitivity
    (load_view (foldl (λ w t, fire t w) w (due_timers deadline (timers w))));
    [done|].
  apply load_view_fire_all_resize, Forall_forall. intros t Ht.
  apply elem_of_due_timers in Ht as [Hpending Hdue].
  destruct (cb t) eqn:Hcb; [| |done].
  - assert (Hnav : t ∈ nav_timers w)
      by (apply list_elem_of_filter; by rewrite Hcb).
    specialize (Hearly t Hnav). lia.
  - assert (Hnav : t ∈ nav_timers w)
      by (apply list_elem_of_filter; by rewrite Hcb).
    specialize (Hearly t Hnav). lia.
Qed.

(** A successful load signal: both handles are cleared, the indicator is
    hidden and the flag is reset. *)
Lemma handleIframeLoad_success (doc : frame_doc) (w : world) :
  is_success doc = true →
  timers_tracked w →
  let w' := handleIframeLoad doc w in
  loading (st w') = false
  ∧ loadingIndicator_show (page w') = false
  ∧ errorDisplay_show (page w') = errorDisplay_show (page w)
  ∧ nav_timers w' = []
  ∧ nav_view w' = nav_view w.
Proof.
  intros Hok Hw. unfold handleIframeLoad, nav_timers.
  destruct doc as [|doc_title body_text]; simpl in *.
  - repeat split. by apply nav_timers_cleared.
  - apply negb_true_iff in Hok. rewrite Hok. simpl.
    repeat split. by apply nav_timers_cleared.
Qed.

(** C9: [loadSpa] of a known page hands the page id to
    [Utils.storage.set] under the key [lastVisitedSpa] of the namespace
    [spa03] during the request itself, while the load is still in flight.
    No later event other than a new request writes to the store: whether
    the load then succeeds, fails or times out, the stored entries stay as
    the request left them, and when the store accepted the write, [get]
    keeps returning the requested id.  A request that supersedes this one
    hands its own id to the store in the same way. *)
Theorem last_visited_saved_at_request
    (spaId : string) (route : route) (w : world) (trace : list event) :
  spaRoutes (st_config (st w)) !! spaId = Some route →
  Forall (λ e, is_request e = false) trace →
  let saved :=
    Utils.storage_set "lastVisitedSpa" (JStr spaId) NAMESPACE (hst w) in
  let w1 := loadSpa spaId w in
  let w2 := run w1 trace in
  hst w1 = snd saved
  ∧ loading (st w1) = true
  ∧ currentSpa (st w1) = Some spaId
  ∧ localStorage (hst w2) = localStorage (hst w1)
  ∧ (fst saved = Normal true →
     json_serializable (JStr spaId) →
     ∀ d, fst (Utils.storage_get "lastVisitedSpa" d NAMESPACE (hst w2))
          = Normal (JStr spaId))
  ∧ (∀ next route',
       spaRoutes (st_config (st w)) !! next = Some route' →
       hst (loadSpa next w2)
       = snd (Utils.storage_set "lastVisitedSpa" (JStr next) NAMESPACE
                                (hst w2))).
Proof.
  intros Hroute Htrace saved w1 w2.
  assert (Hhst : hst w1 = snd saved)
    by (subst w1; by rewrite (loadSpa_known _ _ _ Hroute)).
  assert (Hkeep : localStorage (hst w2) = localStorage (hst w1))
    by (by apply localStorage_run).
  assert (Hcfg : st_config (st w2) = st_config (st w)).
  { pose proof (nav_view_run trace w1 Htrace) as Hview.
    fold w2 in Hview. unfold nav_view in Hview.
    injection Hview as _ _ _ -> _.
    subst w1. by rewrite (loadSpa_known _ _ _ Hroute). }
  split; [done|]. split; [|split; [|split; [done|split]]].
  - subst w1. by rewrite (loadSpa_known _ _ _ Hroute).
  - subst w1. by rewrite (loadSpa_known _ _ _ Hroute).
  - intros Hok Hser d.
    rewrite (storage_get_ext _ _ _ _ (hst w1)) by done.
    rewrite Hhst.
    subst saved. revert Hok. rewrite storage_set_run. simpl.
    destruct (_ <=? _); [intros _|discriminate]. simpl.
    rewrite storage_get_run. simpl. rewrite lookup_insert_eq.
    by rewrite Hser.
  - intros next route' Hnext. rewrite <- Hcfg in Hnext.
    by rewrite (loadSpa_known _ _ _ Hnext).
Qed.

End ResolutionFacts.

(** ** The shell: a load that succeeds *)

Section SuccessFacts.
Context `{JSON}.
Import Shell.

(** C5, as the code has it: after [loadSpa] of a known page, whatever
    events other than requests come in between, a successful load signal
    leaves no timer of the navigation pending, resets the loading flag and
    hides the loading indicator; the page requested is the current one, its
    link is the highlighted one, and the document title is
    [<page title> - <sidebar title>] when the page has a title (a page
    without one keeps the title that was there).  Link and title are set by
    the request and are still in place at the signal.  When the signal
    comes before either delay has elapsed and the indicator was hidden at
    the request, the indicator is hidden throughout and no error is shown
    at the end. *)
Theorem successful_load_completes
    (spaId : string) (route : route) (w : world) (between : list event)
    (doc : frame_doc) :
  timers_tracked w →
  spaRoutes (st_config (st w)) !! spaId = Some route →
  Forall (λ e, is_request e = false) between →
  is_success doc = true →
  let w1 := loadSpa spaId w in
  let w2 := run w1 between in
  let w3 := handleIframeLoad doc w2 in
  nav_timers w3 = []
  ∧ loading (st w3) = false
  ∧ loadingIndicator_show (page w3) = false
  ∧ currentSpa (st w3) = Some spaId
  ∧ navLinks (page w3) = map (activate spaId) (navLinks (page w))
  ∧ document_title (page w3) =
      (if negb (String.eqb (route_title route) "")
       then route_title route +:+ " - "
            +:+ content_sidebar_title (st_metadata (st w))
       else document_title (page w))
  ∧ (∀ dt,
       between = [Elapse dt] →
       (0 ≤ dt < loadingDelay (st_config (st w)))%Z →
       (dt < iframeTimeout (st_config (st w)))%Z →
       loadingIndicator_show (page w) = false →
       loadingIndicator_show (page w1) = false
       ∧ loadingIndicator_show (page w2) = false
       ∧ errorDisplay_show (page w3) = false).
Proof.
  intros Hw Hroute Hbetween Hok w1 w2 w3.
  assert (Hw1 : timers_tracked w1) by (by apply tracked_loadSpa).
  assert (Hw2 : timers_tracked w2) by (by apply tracked_run).
  destruct (handleIframeLoad_success doc w2 Hok Hw2)
    as (Hloading & Hshow & Herror & Htimers & Hview3).
  fold w3 in Hloading, Hshow, Herror, Htimers, Hview3.
  assert (Hview2 : nav_view w2 = nav_view w1) by (by apply nav_view_run).
  assert (Hview : nav_view w3 = nav_view w1) by congruence.
  unfold nav_view in Hview.
  injection Hview as Hcur Hlinks Htitle _ _.
  do 3 (split; [done|]).
  rewrite Hcur, Hlinks, Htitle. subst w1.
  split; [by rewrite (loadSpa_known _ _ _ Hroute)|].
  split; [by rewrite (loadSpa_known _ _ _ Hroute)|].
  split; [by rewrite (loadSpa_known _ _ _ Hroute)|].
  intros dt Hdt [Hdt0 Hdelay] Htimeout Hhidden.
  set (w1 := loadSpa spaId w) in *.
  assert (Hload1 : load_view w1
                   = (true, false, false, errorMessage_text (page w))).
  { subst w1. rewrite (loadSpa_known _ _ _ Hroute).
    unfold load_view. simpl. by rewrite Hhidden. }
  assert (Hload2 : load_view w2 = load_view w1).
  { subst w2. rewrite Hdt. simpl. apply load_view_elapse_early.
    destruct (nav_timers_loadSpa spaId route w Hw Hroute)
      as (_ & _ & _ & Hnav).
    fold w1 in Hnav. rewrite Hnav.
    assert (Hnow : now (timers w1) = now (timers w))
      by (subst w1; by rewrite (loadSpa_known _ _ _ Hroute)).
    rewrite Hnow.
    intros t [->|Ht]%elem_of_cons; [simpl; lia|].
    apply list_elem_of_singleton in Ht as ->. simpl. lia. }
  rewrite Hload1 in Hload2. unfold load_view in Hload1, Hload2.
  injection Hload1 as _ Hshow1 _ _.
  injection Hload2 as _ Hshow2 Herror2 _.
  by rewrite Herror.
Qed.

End SuccessFacts.

(** ** The greeting cycler: what each function does *)

Section CyclerRuns.
Context `{JSON}.
Import Cycler.

Lemma on_host_storage_set (key : string) (v : jsval) (w : world) :
  ∃ ok, on_host (Utils.storage_set key v NAMESPACE) w
        = (Normal ok,
           with_host (snd (Utils.storage_set key v NAMESPACE (hst w))) w).
Proof.
  unfold on_host.
  destruct (storage_set_never_throws key v NAMESPACE (hst w))
    as (ok & h' & ->). by exists ok.
Qed.

Lemma saveToStorage_run (w : world) :
  saveToStorage w = (Normal tt, with_host (saved_host w) w).
Proof.
  unfold saveToStorage, bind, gets, ret. simpl.
  destruct (on_host_storage_set "selectedLanguage"
              (JStr (select_value (ui w))) w) as (ok1 & ->).
  destruct (on_host_storage_set "cycleSpeed" (JStr (slider_value (ui w)))
              (with_host (snd (Utils.storage_set "selectedLanguage"
                 (JStr (select_value (ui w))) NAMESPACE (hst w))) w))
    as (ok2 & ->).
  reflexivity.
Qed.

Lemma stopCycling_run (w : world) :
  stopCycling w = (Normal tt, stopped w).
Proof.
  unfold stopCycling, stopped, bind, gets, with_spa, with_ui, modify,
    clearInterval, ret. simpl.
  destruct (cycleInterval (spa w)) as [id|] eqn:Hid; simpl;
    unfold set_isCycling, set_cycleInterval; simpl; by rewrite ?Hid.
Qed.

Lemma updateGreeting_run (langCode : string) (w : world) :
  updateGreeting langCode w = (Normal tt, greeted langCode w).
Proof.
  unfold updateGreeting, greeted, bind, gets. simpl.
  destruct (find_language langCode (languages (spa w))) as [language|].
  - unfold with_ui, modify. simpl. by destruct (rtl language).
  - reflexivity.
Qed.

(** The whole [change] listener. *)
Lemma on_language_change_run (value : string) (w : world) :
  on_language_change value w =
    (Normal tt,
     let w1 := greeted value (stopped w) in
     let w2 := with_host (saved_host w1) w1 in
     mkWorld (set_currentIndex (Idx (findIndex value (languages (spa w2))))
                               (spa w2))
             (ui w2) (intervals w2) (nextInterval w2) (hst w2)).
Proof.
  unfold on_language_change, bind.
  rewrite stopCycling_run, updateGreeting_run, saveToStorage_run.
  reflexivity.
Qed.

(** *** [find] and [findIndex] agree *)

Lemma findIndex_bounds (value : string) (ls : list language) :
  (-1 ≤ findIndex value ls < Z.of_nat (length ls))%Z.
Proof.
  induction ls as [|lang ls IH]; simpl; [lia|].
  destruct (String.eqb (code lang) value); [lia|].
  destruct (findIndex value ls <? 0)%Z eqn:Hneg; lia.
Qed.

Lemma findIndex_found (value : string) (ls : list language) (lang : language) :
  find_language value ls = Some lang →
  (0 ≤ findIndex value ls)%Z
  ∧ ls !! Z.to_nat (findIndex value ls) = Some lang
  ∧ code lang = value.
Proof.
  unfold find_language.
  induction ls as [|l ls IH]; simpl; [done|].
  destruct (String.eqb_spec (code l) value) as [Heq|Hne].
  - intros [= ->]. done.
  - intros Hfind. destruct (IH Hfind) as (Hpos & Hat & Hcode).
    destruct (findIndex value ls <? 0)%Z eqn:Hneg; [lia|].
    split; [lia|]. split; [|done].
    replace (Z.to_nat (1 + findIndex value ls))
      with (S (Z.to_nat (findIndex value ls))) by lia.
    done.
Qed.


Lemma find_language_elem (value : string) (ls : list language) :
  value ∈ map code ls → is_Some (find_language value ls).
Proof.
  unfold find_language.
  induction ls as [|l ls IH]; simpl; [by intros ?%elem_of_nil|].
  destruct (String.eqb_spec (code l) value) as [Heq|Hne]; [eauto|].
  intros [Heq|Hin]%elem_of_cons; [congruence | auto].
Qed.

End CyclerRuns.

(** ** The greeting cycler: selecting a language *)

Section SelectFacts.
Context `{JSON}.
Import Cycler.



End SelectFacts.

(** ** The greeting cycler: the index stays in range *)

Section IndexFacts.
Context `{JSON}.
Import Cycler.

Lemma next_index_in_range (i : Z) (n : nat) :
  (0 ≤ i < Z.of_nat n)%Z →
  next_index (Idx i) n = Idx ((i + 1) mod Z.of_nat n)
  ∧ (0 ≤ (i + 1) mod Z.of_nat n < Z.of_nat n)%Z.
Proof.
  intros Hi. destruct n as [|n]; [lia|]. simpl next_index.
  rewrite Z.rem_mod_nonneg by lia. split; [done|].
  apply Z.mod_pos_bound. lia.
Qed.

(** [tick] always stores the next index; what follows touches neither the
    index, nor the languages, nor the options. *)
Lemma index_view_tick (w : world) :
  index_view (handle tick w) =
    (languages (spa w),
     next_index (currentIndex (spa w)) (length (languages (spa w))),
     select_options (ui w)).
Proof.
  unfold handle, tick, bind, gets, with_spa, with_ui, modify, throw. simpl.
  destruct (language_at _ _) as [language|]; [|done].
  rewrite updateGreeting_run, saveToStorage_run. simpl.
  unfold greeted. simpl. by destruct (find_language _ _).
Qed.

Lemma index_view_startCycling (w : world) :
  index_view (handle startCycling w) = index_view w.
Proof.
  unfold handle, startCycling, bind, gets, with_spa, with_ui, modify,
    setInterval, clearInterval, ret. simpl.
  by destruct (cycleInterval (spa w)).
Qed.

Lemma index_view_stopCycling (w : world) :
  index_view (handle stopCycling w) = index_view w.
Proof. unfold handle. by rewrite stopCycling_run. Qed.

Lemma index_view_on_speed_input (value : string) (w : world) :
  index_view (handle (with_ui (set_slider_value value) ;;
                      on_speed_input value)%js w)
  = index_view w.
Proof.
  unfold handle, on_speed_input, bind, gets, with_ui, modify. simpl.
  rewrite saveToStorage_run. simpl.
  destruct (isCycling (spa w)); [|done].
  match goal with
  | |- index_view (snd (startCycling ?w0)) = _ =>
      change (index_view (handle startCycling w0) = index_view w)
  end.
  by rewrite index_view_startCycling.
Qed.

Lemma storage_get_never_throws (key : string) (d : jsval) (ns : string)
    (h : host) :
  ∃ v h', Utils.storage_get key d ns h = (Normal v, h').
Proof.
  rewrite storage_get_run.
  destruct (localStorage h !! _) as [text|]; [|eauto].
  destruct (JSON_parse text); [eauto|]. destruct (String.eqb text ""); eauto.
Qed.

Lemma existsb_code_elem (saved : string) (ls : list language) :
  existsb (λ lang, String.eqb (code lang) saved) ls = true →
  saved ∈ map code ls.
Proof.
  intros (lang & Hin & Heq)%existsb_exists.
  apply String.eqb_eq in Heq as <-.
  apply list_elem_of_fmap_2. by apply list_elem_of_In.
Qed.

(** [loadFromStorage] restores a language only if the selector offers it. *)
Lemma loadFromStorage_frame (w : world) :
  select_options (ui w) = map code (languages (spa w)) →
  select_value (ui w) ∈ select_options (ui w) →
  ∃ w', loadFromStorage w = (Normal tt, w')
        ∧ index_view w' = index_view w
        ∧ select_value (ui w') ∈ select_options (ui w').
Proof.
  intros Hopts Hsel. unfold loadFromStorage, bind, on_host.
  destruct (storage_get_never_throws "selectedLanguage" JNull NAMESPACE
              (hst w)) as (savedLang & h1 & ->). simpl.
  destruct (storage_get_never_throws "cycleSpeed" JNull NAMESPACE h1)
    as (savedSpeed & h2 & ->). simpl.
  unfold gets, with_ui, modify, ret. simpl.
  assert (Hrestore : ∀ saved,
    existsb (λ lang, String.eqb (code lang) saved) (languages (spa w)) = true →
    (if bool_decide (saved ∈ select_options (ui w)) then saved else "")
    ∈ select_options (ui w)).
  { intros saved Hex. apply existsb_code_elem in Hex.
    rewrite Hopts. by rewrite bool_decide_eq_true_2. }
  destruct (truthy savedLang); [destruct savedLang as [| | |saved| |]|];
    simpl; try destruct (existsb _ _) eqn:Hex; simpl;
    destruct (truthy savedSpeed); simpl;
    eexists; (split; [reflexivity|]); split; try done; simpl; auto.
Qed.

Lemma index_view_greeted (langCode : string) (w : world) :
  index_view (greeted langCode w) = index_view w.
Proof. unfold greeted. by destruct (find_language _ _). Qed.

(** A code the selector offers is the code of a language in range. *)
Lemma findIndex_in_range (value : string) (ls : list language) :
  value ∈ map code ls →
  (0 ≤ findIndex value ls < Z.of_nat (length ls))%Z.
Proof.
  intros Hin. destruct (find_language_elem _ _ Hin) as [lang Hfind].
  destruct (findIndex_found _ _ _ Hfind) as (Hpos & Hat & _).
  apply lookup_lt_Some in Hat. lia.
Qed.

Lemma cycler_inv_view (ls : list language) (w w' : world) :
  index_view w' = index_view w → cycler_inv ls w → cycler_inv ls w'.
Proof.
  unfold index_view, cycler_inv, index_in_range.
  intros [= -> -> ->]. done.
Qed.

(** The page starts inside the invariant. *)
Lemma cycler_inv_start (md : metadata) (h : host) :
  md_languages md ≠ [] → cycler_inv (md_languages md) (start md h).
Proof.
  intros Hne. unfold start, handle, initSPA02, bind.
  destruct (loadFromStorage_frame (initial_world md h))
    as (w1 & -> & Hview & Hsel); simpl.
  { done. }
  { destruct (md_languages md) as [|l ls]; [done|]. simpl. by left. }
  unfold index_view in Hview. simpl in Hview.
  injection Hview as Hls _ Hopts.
  unfold gets, with_spa, modify. simpl.
  rewrite updateGreeting_run. simpl.
  match goal with
  | |- cycler_inv _ (snd (startCycling (greeted ?v ?w0))) =>
      apply (cycler_inv_view _ w0);
        [change (index_view (handle startCycling (greeted v w0))
                 = index_view w0);
         by rewrite index_view_startCycling, index_view_greeted |]
  end.
  unfold cycler_inv, index_in_range. simpl.
  split; [done|]. split; [done|].
  eexists. split; [reflexivity|].
  rewrite Hls. apply findIndex_in_range. by rewrite <- Hopts.
Qed.

Lemma cycler_inv_dispatch (ls : list language) (w : world) (e : event) :
  cycler_inv ls w → cycler_inv ls (dispatch w e).
Proof.
  intros (Hls & Hopts & i & Hidx & Hi).
  destruct e as [value|value|id|]; cbn [dispatch].
  - destruct (bool_decide_reflect (value ∈ select_options (ui w)))
      as [Hin|]; [|by unfold cycler_inv, index_in_range; eauto].
    unfold handle, bind, with_ui, modify.
    rewrite on_language_change_run. simpl.
    unfold greeted, stopped. simpl.
    rewrite Hopts in Hin.
    destruct (find_language _ _); simpl;
      unfold cycler_inv, index_in_range; simpl;
      (split; [done|]); (split; [done|]);
      (eexists; split; [reflexivity|]);
      rewrite Hls; by apply findIndex_in_range.
  - apply (cycler_inv_view _ w); [apply index_view_on_speed_input|].
    unfold cycler_inv, index_in_range; eauto.
  - destruct (existsb _ _);
      [|by unfold cycler_inv, index_in_range; eauto].
    pose proof (index_view_tick w) as Hview.
    unfold index_view in Hview. injection Hview as Hls' Hidx' Hopts'.
    unfold cycler_inv, index_in_range.
    rewrite Hls', Hidx', Hopts', Hidx.
    destruct (next_index_in_range i _ Hi) as [-> Hrange].
    eauto.
  - apply (cycler_inv_view _ w); [apply index_view_stopCycling|].
    unfold cycler_inv, index_in_range; eauto.
Qed.

Lemma cycler_inv_run (ls : list language) (trace : list event) (w : world) :
  cycler_inv ls w → cycler_inv ls (run w trace).
Proof.
  revert w. induction trace as [|e trace IH]; intros w Hw; simpl; [done|].
  by apply IH, cycler_inv_dispatch.
Qed.

(** C8: with a non-empty language list, in every state the cycler reaches
    from its start, through any selections, slider inputs, ticks and the
    unload, the index is an integer within the bounds of the list; and one
    tick from such a state stores the index plus one modulo the number of
    languages, which is 0 when the index was the last one. *)
Theorem index_stays_in_range
    (md : metadata) (h : host) (trace : list event) :
  md_languages md ≠ [] →
  let w := run (start md h) trace in
  let n := Z.of_nat (length (languages (spa w))) in
  index_in_range w
  ∧ languages (spa w) = md_languages md
  ∧ (∀ i, currentIndex (spa w) = Idx i →
          currentIndex (spa (handle tick w)) = Idx ((i + 1) mod n)
          ∧ (0 ≤ (i + 1) mod n < n)%Z
          ∧ (i = (n - 1)%Z → currentIndex (spa (handle tick w)) = Idx 0)).
Proof.
  intros Hne w n.
  destruct (cycler_inv_run (md_languages md) trace (start md h)
              (cycler_inv_start md h Hne)) as (Hls & Hopts & j & Hidx & Hj).
  fold w in Hls, Hopts, Hidx, Hj.
  split; [by exists j|]. split; [done|].
  intros i Hi. rewrite Hidx in Hi. injection Hi as <-.
  pose proof (index_view_tick w) as Hview.
  unfold index_view in Hview. injection Hview as _ Htick _.
  rewrite Htick, Hidx.
  destruct (next_index_in_range j _ Hj) as [-> Hrange].
  fold n in Hrange |- *. repeat split; try lia.
  intros ->. f_equal.
  replace (n - 1 + 1)%Z with n by lia. apply Z.mod_same. lia.
Qed.

End IndexFacts.

(** ** The shell: the loading flag *)

Section LoadingFlagFacts.
Context `{JSON}.
Import Shell.

Lemma loading_checkMobileState (w : world) :
  loading (st (checkMobileState w)) = loading (st w).
Proof. unfold checkMobileState. simpl. by destruct (_ && _). Qed.

Lemma loading_fire (t : timer) (w : world) :
  loading (st (fire t w)) = loading (st w).
Proof.
  unfold fire. destruct (is_pending _ _); [|done].
  destruct (cb t); unfold run_callback.
  3: rewrite loading_checkMobileState; reflexivity.
  all: simpl; destruct (loading (st w)) eqn:Hl; simpl; by rewrite ?Hl.
Qed.

Lemma loading_fire_all (l : list timer) (w : world) :
  loading (st (foldl (λ w t, fire t w) w l)) = loading (st w).
Proof.
  revert w. induction l as [|t l IH]; intros w; simpl; [done|].
  by rewrite IH, loading_fire.
Qed.

Lemma loading_loadSpa (spaId : string) (w : world) :
  loading (st w) = true → loading (st (loadSpa spaId w)) = true.
Proof.
  intros Hw.
  destruct (spaRoutes (st_config (st w)) !! spaId) as [route|] eqn:Hroute.
  - by rewrite (loadSpa_known _ _ _ Hroute).
  - by rewrite loadSpa_unknown.
Qed.

(** Once set, [state.loading] is reset by nothing but a successful load
    signal: not by a load error, not by a load of an error page, not by
    the timeout. *)
Lemma loading_flag_sticky (w : world) (e : event) :
  loading (st w) = true →
  (∀ doc, e = IframeLoad doc → is_success doc = false) →
  loading (st (dispatch w e)) = true.
Proof.
  intros Hw Hfail.
  destruct e as [spaId|fragment|doc| | | | |key|width|dt]; cbn [dispatch].
  - unfold handleNavClick, handleHashChange.
    destruct (is_other_page spaId w); simpl.
    + destruct (isMobile (st w)); simpl;
        destruct (String.eqb spaId (location_hash (page w))); simpl;
        try done;
        match goal with
        | |- context [if ?b then _ else _] => destruct b
        end; try done; by apply loading_loadSpa.
    + by rewrite String.eqb_refl.
  - unfold change_hash, handleHashChange.
    destruct (String.eqb _ _); [done|]. simpl.
    match goal with
    | |- context [if ?b then _ else _] => destruct b
    end; [by apply loading_loadSpa | done].
  - specialize (Hfail doc eq_refl). unfold handleIframeLoad.
    destruct doc as [|doc_title body_text]; simpl in *; [done|].
    apply negb_false_iff in Hfail. by rewrite Hfail.
  - done.
  - unfold retryLoadSpa. destruct (currentSpa (st w)); [|done].
    destruct (negb _); [by apply loading_loadSpa | done].
  - unfold toggleSidebar, openSidebar. destruct (sidebarOpen (st w)); simpl;
      [done|]. by destruct (navLinks (page w)).
  - done.
  - unfold handleKeyDown. by destruct (_ && _).
  - done.
  - unfold elapse. simpl. by rewrite loading_fire_all.
Qed.

End LoadingFlagFacts.

(** * Concrete runs

    The theorems above at explicit inputs, evaluated with the reference
    codec, and the runs on which the code departs from its description. *)

Section ConcreteRuns.
Import RefJSON.

(** Decide [timers_tracked] of a concrete world by going through its
    pending timers. *)
Ltac tracked_by_evaluation :=
  split; intros t Ht; vm_compute in Ht;
  repeat (apply elem_of_cons in Ht as [->|Ht];
          [vm_compute; try reflexivity; lia|]);
  by apply elem_of_nil in Ht.

Ltac no_requests := repeat constructor.

(** ** The shell *)

Lemma request_current_page_noop_witness :
  Shell.currentSpa (Shell.st Demo.shell_loaded) = Some "spa01"
  ∧ Shell.handleNavClick "spa01" Demo.shell_loaded = Demo.shell_loaded
  ∧ Shell.dispatch Demo.shell_loaded (Shell.NavClick "spa01")
    = Demo.shell_loaded.
Proof.
  split; [vm_compute; reflexivity|].
  destruct (request_current_page_noop "spa01" Demo.shell_loaded)
    as (Hclick & _ & Hdispatch & _); [vm_compute; reflexivity|].
  split; assumption.
Defined.


Lemma superseded_timers_cancelled_witness :
  Shell.timers_tracked Demo.shell_loaded
  ∧ ∃ ta1 ta2 tb1 tb2,
      Shell.nav_timers
        (Shell.loadSpa "spa01" (Shell.loadSpa "spa02" Demo.shell_loaded))
      = [Shell.mkTimer tb1 350 Shell.ShowLoadingCb;
         Shell.mkTimer tb2 10050 Shell.IframeTimeoutCb]
      ∧ Shell.is_pending ta1
          (Shell.timers
             (Shell.run
                (Shell.loadSpa "spa01"
                   (Shell.loadSpa "spa02" Demo.shell_loaded))
                [Shell.Elapse 20000]))
        = false
      ∧ Shell.is_pending ta2
          (Shell.timers
             (Shell.run
                (Shell.loadSpa "spa01"
                   (Shell.loadSpa "spa02" Demo.shell_loaded))
                [Shell.Elapse 20000]))
        = false.
Proof.
  assert (Htracked : Shell.timers_tracked Demo.shell_loaded)
    by tracked_by_evaluation.
  split; [exact Htracked|].
  destruct (superseded_timers_cancelled "spa02" "spa01"
              (Shell.mkRoute "../spa02/spa02.html" "Multi-Language")
              (Shell.mkRoute "../spa01/spa01.html" "Hello World")
              Demo.shell_loaded Htracked)
    as (ta1 & ta2 & tb1 & tb2 & _ & _ & _ & _ & _ & Hb & Hnever);
    [vm_compute; reflexivity..|].
  exists ta1, ta2, tb1, tb2.
  split; [exact Hb|]. apply (Hnever [Shell.Elapse 20000]).
Defined.

Lemma successful_load_completes_witness :
  Shell.timers_tracked Demo.shell_loaded
  ∧ (let w3 :=
       Shell.handleIframeLoad Shell.CrossOrigin
         (Shell.run (Shell.loadSpa "spa02" Demo.shell_loaded)
                    [Shell.Elapse 50]) in
     Shell.nav_timers w3 = []
     ∧ Shell.loading (Shell.st w3) = false
     ∧ Shell.loadingIndicator_show (Shell.page w3) = false
     ∧ Shell.document_title (Shell.page w3)
       = "Multi-Language - Sample Project").
Proof.
  assert (Htracked : Shell.timers_tracked Demo.shell_loaded)
    by tracked_by_evaluation.
  split; [exact Htracked|].
  destruct (successful_load_completes "spa02"
              (Shell.mkRoute "../spa02/spa02.html" "Multi-Language")
              Demo.shell_loaded [Shell.Elapse 50] Shell.CrossOrigin Htracked)
    as (Htimers & Hloading & Hshow & _ & _ & Htitle & _);
    [vm_compute; reflexivity | no_requests | reflexivity |].
  repeat split; assumption.
Defined.

(** Where C5 as stated fails.  A page without a title: after its load has
    succeeded the document title is still the one of the page before, not
    the page's own title followed by the sidebar title.  And a request made
    while the indicator of a slow predecessor is showing: 50 ms into a
    navigation with a delay of 300 ms the indicator is visible. *)
Lemma successful_load_counterexample :
  (let w := Shell.run Demo.untitled_loaded
              [Shell.NavClick "raw"; Shell.Elapse 50;
               Shell.IframeLoad Shell.CrossOrigin] in
   Shell.spaRoutes (Shell.st_config (Shell.st w)) !! "raw"
   = Some (Shell.mkRoute "../raw/raw.html" "")
   ∧ Shell.currentSpa (Shell.st w) = Some "raw"
   ∧ Shell.loading (Shell.st w) = false
   ∧ Shell.document_title (Shell.page w) = "Hello World - Sample Project"
   ∧ Shell.document_title (Shell.page w) ≠ "" +:+ " - " +:+ "Sample Project")
  ∧ (let w := Shell.run Demo.shell_start
                [Shell.Elapse 400; Shell.NavClick "spa02"; Shell.Elapse 50] in
     Shell.currentSpa (Shell.st w) = Some "spa02"
     ∧ Shell.loading (Shell.st w) = true
     ∧ Shell.nav_timers w
       = [Shell.mkTimer 3 700 Shell.ShowLoadingCb;
          Shell.mkTimer 4 10400 Shell.IframeTimeoutCb]
     ∧ Shell.now (Shell.timers w) = 450%Z
     ∧ Shell.loadingIndicator_show (Shell.page w) = true).
Proof. vm_compute. repeat split; discriminate. Qed.

Lemma last_visited_saved_at_request_witness :
  Shell.spaRoutes (Shell.st_config (Shell.st Demo.shell_loaded)) !! "spa02"
  = Some (Shell.mkRoute "../spa02/spa02.html" "Multi-Language")
  ∧ json_serializable (JStr "spa02")
  ∧ fst (Utils.storage_get "lastVisitedSpa" JNull Shell.NAMESPACE
           (Shell.hst
              (Shell.run (Shell.loadSpa "spa02" Demo.shell_loaded)
                         [Shell.Elapse 10000; Shell.IframeError])))
    = Normal (JStr "spa02").
Proof.
  split; [vm_compute; reflexivity|]. split; [vm_compute; reflexivity|].
  destruct (last_visited_saved_at_request "spa02"
              (Shell.mkRoute "../spa02/spa02.html" "Multi-Language")
              Demo.shell_loaded [Shell.Elapse 10000; Shell.IframeError])
    as (_ & _ & _ & _ & Hget & _); [vm_compute; reflexivity | no_requests |].
  apply Hget; vm_compute; reflexivity.
Defined.

(** C2 on the code.  A navigation to [spa01] is in flight.  A load error,
    a load of the error page, and the timeout each show the error panel and
    leave [state.loading] set, with no timer left to reset it; only the
    successful load clears the flag.  When the error page arrives after the
    indicator has come up, the indicator stays up next to the error. *)
Theorem loading_flag_survives_failures :
  let w := Demo.shell_start in
  Shell.currentSpa (Shell.st w) = Some "spa01"
  ∧ Shell.loading (Shell.st w) = true
  ∧ Shell.load_view (Shell.dispatch w Shell.IframeError)
    = (true, false, true,
       "Failed to load the application. Please check your connection.")
  ∧ Shell.load_view (Shell.dispatch w (Shell.IframeLoad Demo.error_page))
    = (true, false, true, "The requested application could not be found.")
  ∧ Shell.load_view (Shell.dispatch w (Shell.Elapse 10000))
    = (true, false, true,
       "Loading timeout. The application took too long to respond.")
  ∧ Shell.pending (Shell.timers (Shell.dispatch w (Shell.Elapse 10000))) = []
  ∧ Shell.loading
      (Shell.st (Shell.run w [Shell.Elapse 10000; Shell.Elapse 3600000]))
    = true
  ∧ Shell.load_view (Shell.dispatch w (Shell.IframeLoad Shell.CrossOrigin))
    = (false, false, false, "")
  ∧ Shell.load_view
      (Shell.run w [Shell.Elapse 400; Shell.IframeLoad Demo.error_page])
    = (true, true, true, "The requested application could not be found.").
Proof. vm_compute. repeat split. Qed.

(** The spec's scenario of a load that never signals: at 10000 ms the
    error panel shows the timeout message and the indicator is hidden. *)
Example scenario_timeout :
  let w := Shell.run Demo.shell_loaded
             [Shell.NavClick "spa02"; Shell.Elapse 10000] in
  Shell.errorDisplay_show (Shell.page w) = true
  ∧ Shell.errorMessage_text (Shell.page w)
    = "Loading timeout. The application took too long to respond."
  ∧ Shell.loadingIndicator_show (Shell.page w) = false.
Proof. vm_compute. repeat split. Qed.

(** [loadSpa] itself, as the retry button calls it, does reload the
    current page: the guard against repeated requests is in the two
    listeners. *)
Example retry_reloads_current_page :
  let w := Shell.dispatch Demo.shell_loaded Shell.RetryClick in
  Shell.currentSpa (Shell.st w) = Some "spa01"
  ∧ Shell.loading (Shell.st w) = true
  ∧ length (Shell.nav_timers w) = 2.
Proof. vm_compute. repeat split. Qed.

(** ** The preference store *)


(** A store that is full: [set] reports failure, logs it, and [get]
    returns the default. *)
Example storage_full :
  let '(ok, h) :=
    Utils.storage_set "selectedLanguage" (JStr "ja") "spa02" Demo.full_host in
  ok = Normal false
  ∧ console h = [Utils.save_error QuotaExceededError]
  ∧ fst (Utils.storage_get "selectedLanguage" (JStr "en") "spa02" h)
    = Normal (JStr "en").
Proof. vm_compute. repeat split. Qed.

(** ** The greeting cycler *)


Lemma index_stays_in_range_witness :
  Cycler.md_languages Demo.cycler_metadata ≠ []
  ∧ Cycler.index_in_range
      (Cycler.run Demo.cycler_start [Cycler.Tick 1; Cycler.Tick 1]).
Proof.
  split; [discriminate|].
  destruct (index_stays_in_range Demo.cycler_metadata Demo.empty_host
              [Cycler.Tick 1; Cycler.Tick 1]) as [Hrange _];
    [discriminate | exact Hrange].
Defined.

(** The spec's scenario: three languages, start at the first; after two
    ticks the greeting is the Arabic one, right-to-left; a third tick wraps
    to the first. *)
Example scenario_three_languages :
  let w2 := Cycler.run Demo.cycler_start [Cycler.Tick 1; Cycler.Tick 1] in
  let w3 := Cycler.dispatch w2 (Cycler.Tick 1) in
  Cycler.currentIndex (Cycler.spa Demo.cycler_start) = Cycler.Idx 0
  ∧ Cycler.currentIndex (Cycler.spa w2) = Cycler.Idx 2
  ∧ Cycler.select_value (Cycler.ui w2) = "ar"
  ∧ Cycler.greeting_text (Cycler.ui w2) = "Marhaban bil-Alam"
  ∧ Cycler.greeting_rtl (Cycler.ui w2) = true
  ∧ Cycler.currentIndex (Cycler.spa w3) = Cycler.Idx 0
  ∧ Cycler.greeting_text (Cycler.ui w3) = "Hello World"
  ∧ Cycler.greeting_rtl (Cycler.ui w3) = false.
Proof. vm_compute. repeat split. Qed.

End ConcreteRuns.

(** * More of the code *)

(** ** Utils.storage: remove, clear, clearNamespace *)

Section StorageOpsFacts.
Context `{JSON}.
Import Utils StorageOps.

Lemma startsWith_app (p s : string) : startsWith (p +:+ s) p = true.
Proof.
  induction p as [|c p IH]; [by destruct s|].
  rewrite string_app_cons. simpl. by rewrite Ascii.eqb_refl, IH.
Qed.

(** A key of a namespace carries the prefix of the namespace. *)
Lemma final_key_in_namespace (ns key : string) :
  ns ≠ "" → in_namespace ns (final_key ns key) = true.
Proof.
  intros Hns. unfold in_namespace, final_key.
  destruct (String.eqb_spec ns "") as [|_]; [done|].
  apply andb_true_iff. split.
  - destruct ns; [done|]. reflexivity.
  - replace (ns +:+ "." +:+ key) with ((ns +:+ ".") +:+ key).
    + apply startsWith_app.
    + clear. induction ns as [|c ns IH]; [done|].
      by rewrite !string_app_cons, IH.
Qed.

(** What [get] returns depends on the entry under the final key only. *)
Lemma storage_get_lookup_ext (key : string) (d : jsval) (ns : string)
    (h1 h2 : host) :
  localStorage h1 !! final_key ns key = localStorage h2 !! final_key ns key →
  fst (storage_get key d ns h1) = fst (storage_get key d ns h2).
Proof.
  intros Heq. rewrite !storage_get_run, Heq.
  destruct (localStorage h2 !! _) as [text|]; [|done].
  destruct (JSON_parse text); [done|]. by destruct (String.eqb text "").
Qed.

Lemma storage_get_absent (key : string) (d : jsval) (ns : string) (h : host) :
  localStorage h !! final_key ns key = None →
  storage_get key d ns h = (Normal d, h).
Proof. intros Hnone. by rewrite storage_get_run, Hnone. Qed.

(** X1: [remove(key, namespace)] never throws and reports success;
    afterwards [get] of that key in that namespace returns the default,
    also right after a [set] of it, and every other entry and the console
    are as before. *)
Theorem storage_remove_forgets
    (key ns : string) (value : jsval) (h : host) :
  ∃ h',
    storage_remove key ns h = (Normal true, h')
    ∧ (∀ d, storage_get key d ns h' = (Normal d, h'))
    ∧ (∀ k, k ≠ final_key ns key → localStorage h' !! k = localStorage h !! k)
    ∧ console h' = console h
    ∧ (∀ d ok h1 h2,
         storage_set key value ns h = (ok, h1) →
         storage_remove key ns h1 = (Normal true, h2) →
         storage_get key d ns h2 = (Normal d, h2)).
Proof.
  eexists. split; [reflexivity|]. simpl.
  split; [|split; [|split; [done|]]].
  - intros d. apply storage_get_absent. simpl. apply lookup_delete_eq.
  - intros k Hk. by apply lookup_delete_ne.
  - intros d ok h1 h2 _ [= <-]. apply storage_get_absent. simpl.
    apply lookup_delete_eq.
Qed.

(** What [forEach(removeItem)] leaves of the store. *)
Lemma forEach_removeItem (keys : list string) (h : host) :
  ∃ h',
    forEach removeItem keys h = (Normal tt, h')
    ∧ console h' = console h
    ∧ storageQuota h' = storageQuota h
    ∧ ∀ k, localStorage h' !! k
           = if bool_decide (k ∈ keys) then None else localStorage h !! k.
Proof.
  revert h. induction keys as [|key keys IH]; intros h.
  - exists h. by repeat split.
  - destruct (IH (mkHost (delete key (localStorage h)) (storageQuota h)
                         (console h))) as (h' & Hrun & Hc & Hq & Hl).
    exists h'. split; [|repeat split; try done].
    + simpl. unfold bind, removeItem, modify. simpl. exact Hrun.
    + intros k. rewrite Hl. simpl.
      destruct (decide (k = key)) as [->|Hne].
      * rewrite (bool_decide_eq_true_2 (key ∈ key :: keys)) by left.
        rewrite lookup_delete_eq. by destruct (bool_decide _).
      * rewrite lookup_delete_ne by done.
        destruct (bool_decide_reflect (k ∈ keys)) as [Hin|Hnin].
        -- rewrite bool_decide_eq_true_2; [done | by right].
        -- rewrite bool_decide_eq_false_2; [done|].
           intros [?|?]%elem_of_cons; done.
Qed.

(** X2: [clearNamespace(namespace)] never throws and reports success.  It
    removes exactly the entries whose key starts with the namespace and a
    dot: afterwards [get] returns the default for every key of that
    namespace, and every entry without the prefix is as before. *)
Theorem storage_clearNamespace_clears (ns : string) (h : host) :
  ∃ h',
    storage_clearNamespace ns h = (Normal true, h')
    ∧ console h' = console h
    ∧ (∀ k, localStorage h' !! k
            = if in_namespace ns k then None else localStorage h !! k)
    ∧ (ns ≠ "" → ∀ key d, storage_get key d ns h' = (Normal d, h'))
    ∧ (∀ key d ns',
         in_namespace ns (final_key ns' key) = false →
         fst (storage_get key d ns' h') = fst (storage_get key d ns' h)).
Proof.
  unfold storage_clearNamespace, try_catch, bind, storage_keys, gets.
  simpl.
  set (keys := List.filter (in_namespace ns) (map_to_list (localStorage h)).*1).
  destruct (forEach_removeItem keys h) as (h' & -> & Hc & Hq & Hl).
  assert (Hstore : ∀ k, localStorage h' !! k
                        = if in_namespace ns k then None
                          else localStorage h !! k).
  { intros k. rewrite Hl. subst keys.
    destruct (in_namespace ns k) eqn:Hin.
    - destruct (bool_decide_reflect
                  (k ∈ List.filter (in_namespace ns)
                         (map_to_list (localStorage h)).*1)) as [_|Hnot];
        [done|].
      destruct (localStorage h !! k) as [v|] eqn:Hk; [|done].
      destruct Hnot. apply list_elem_of_In, filter_In. split; [|done].
      apply list_elem_of_In, list_elem_of_fmap. exists (k, v).
      split; [done|]. by apply elem_of_map_to_list.
    - rewrite bool_decide_eq_false_2; [done|].
      intros Hk%list_elem_of_In%filter_In. destruct Hk. congruence. }
  exists h'. split; [done|]. split; [done|]. split; [done|]. split.
  - intros Hns key d. apply storage_get_absent.
    by rewrite Hstore, final_key_in_namespace.
  - intros key d ns' Hout. apply storage_get_lookup_ext.
    by rewrite Hstore, Hout.
Qed.

(** X3: [clear()] never throws and reports success; afterwards [get]
    returns the default for every key of every namespace. *)
Theorem storage_clear_empties (h : host) :
  ∃ h',
    storage_clear h = (Normal true, h')
    ∧ localStorage h' = ∅
    ∧ console h' = console h
    ∧ ∀ key d ns, storage_get key d ns h' = (Normal d, h').
Proof.
  eexists. split; [reflexivity|]. simpl. by repeat split.
Qed.

End StorageOpsFacts.

(** ** Utils.data: loading with retries *)

Section DataLoaderFacts.
Context `{JSON}.
Import DataLoader.

(** One call of [loadJSON] consumes one answer and never throws. *)
Lemma loadJSON_run (url : string) (n : net) :
  ∃ n',
    loadJSON url n = (document_of (head (responses n)), n')
    ∧ responses n' = tail (responses n)
    ∧ requested n' = requested n ++ [url]
    ∧ slept n' = slept n.
Proof.
  unfold loadJSON, l_try, l_bind, fetch.
  destruct (responses n) as [|[|ok status body] rest]; simpl; [eauto..|].
  destruct ok; simpl; [|eauto].
  unfold response_json, l_ret. destruct (JSON_parse body); simpl; eauto.
Qed.

Lemma retry_loop_run (remaining : nat) (url : string) (delay : Z) (n : net)
    (data : jsval) (n' : net) :
  retry_loop remaining url delay n = (data, n') →
  ∃ attempts,
    attempts ≤ remaining
    ∧ (0 < remaining → 0 < attempts)
    ∧ requested n' = requested n ++ replicate attempts url
    ∧ responses n' = drop attempts (responses n)
    ∧ slept n' = slept n ++ replicate (attempts - 1) delay
    ∧ (∀ i, i < attempts - 1 →
            is_null (document_of (responses n !! i)) = true)
    ∧ (is_null data = false →
       0 < attempts ∧ data = document_of (responses n !! (attempts - 1)))
    ∧ (is_null data = true →
       attempts = remaining
       ∧ ∀ i, i < attempts →
              is_null (document_of (responses n !! i)) = true).
Proof.
  revert n. induction remaining as [|rest IH]; intros n Hrun; simpl in Hrun.
  - injection Hrun as <- <-. exists 0. simpl.
    rewrite !app_nil_r. repeat split; try done; try lia.
    all: intros; lia.
  - destruct (loadJSON_run url n) as (n1 & Hload & Hresp & Hreq & Hslept).
    rewrite Hload in Hrun.
    assert (Hhead : head (responses n) = responses n !! 0)
      by (by destruct (responses n)).
    destruct (is_null (document_of (head (responses n)))) eqn:Hnull;
      simpl in Hrun.
    + set (n2 := if (0 <? rest)%nat then sleep delay n1 else n1) in Hrun.
      assert (Hn2 : responses n2 = responses n1 ∧ requested n2 = requested n1
                    ∧ slept n2 = slept n1
                               ++ (if (0 <? rest)%nat then [delay] else []))
        by (subst n2; destruct (0 <? rest)%nat; simpl;
            rewrite ?app_nil_r; done).
      destruct Hn2 as (Hresp2 & Hreq2 & Hslept2).
      destruct (IH n2 Hrun)
        as (k & Hle & Hpos & Hrequested & Hresponses & Hsleeps & Hearlier
            & Hfound & Hnone).
      assert (Hshift : ∀ i, responses n2 !! i = responses n !! S i).
      { intros i. rewrite Hresp2, Hresp. by destruct (responses n). }
      exists (S k). split; [lia|]. split; [lia|].
      split; [|split; [|split; [|split; [|split]]]].
      * rewrite Hrequested, Hreq2, Hreq. simpl. by rewrite <- app_assoc.
      * rewrite Hresponses, Hresp2, Hresp.
        destruct (responses n); simpl; by rewrite ?drop_nil.
      * rewrite Hsleeps, Hslept2, Hslept, <- app_assoc. f_equal.
        destruct (Nat.ltb_spec 0 rest) as [Hrest|Hrest].
        -- specialize (Hpos Hrest).
           replace (S k - 1) with (S (k - 1)) by lia. done.
        -- assert (k = 0) as -> by lia. done.
      * intros i Hi. destruct i as [|i]; [by rewrite <- Hhead|].
        rewrite <- Hshift. apply Hearlier. lia.
      * intros Hdata. destruct (Hfound Hdata) as [Hk ->].
        split; [lia|]. rewrite Hshift. f_equal. f_equal. lia.
      * intros Hdata. destruct (Hnone Hdata) as [-> Hall].
        split; [done|]. intros i Hi.
        destruct i as [|i]; [by rewrite <- Hhead|].
        rewrite <- Hshift. apply Hall. lia.
    + injection Hrun as <- <-. exists 1. simpl.
      rewrite Hreq, Hresp, Hslept, app_nil_r, <- Hhead.
      split; [lia|]. split; [lia|].
      split; [done|]. split; [by destruct (responses n)|].
      split; [done|]. split; [intros; lia|].
      split; [intros _; split; [lia | done]|].
      intros Hdata. congruence.
Qed.

(** X4: [loadJSONWithRetry(url, retries, delay)] fetches the url at most
    [retries] times, one answer per attempt, and returns the document of
    the first attempt that is not [null]: every earlier attempt was [null],
    nothing is fetched after it, and it waits [delay] between attempts only,
    never after the last one.  It returns [null] exactly when all [retries]
    attempts gave [null] (a failed fetch, a status that is not ok, a body
    that is not JSON, or the document [null] itself). *)
Theorem loadJSONWithRetry_first_success
    (url : string) (retries delay : Z) (n : net) :
  let '(data, n') := loadJSONWithRetry url retries delay n in
  ∃ attempts,
    attempts ≤ Z.to_nat retries
    ∧ requested n' = requested n ++ replicate attempts url
    ∧ responses n' = drop attempts (responses n)
    ∧ slept n' = slept n ++ replicate (attempts - 1) delay
    ∧ (∀ i, i < attempts - 1 →
            is_null (document_of (responses n !! i)) = true)
    ∧ (is_null data = false →
       0 < attempts ∧ data = document_of (responses n !! (attempts - 1)))
    ∧ (is_null data = true →
       attempts = Z.to_nat retries
       ∧ ∀ i, i < attempts →
              is_null (document_of (responses n !! i)) = true).
Proof.
  unfold loadJSONWithRetry.
  destruct (retry_loop (Z.to_nat retries) url delay n) as [data n'] eqn:Hrun.
  destruct (retry_loop_run _ _ _ _ _ _ Hrun)
    as (k & Hle & _ & Hrest). by exists k.
Qed.

End DataLoaderFacts.

(** ** Utils.format.template: what is not a placeholder *)

Section TemplateMoreFacts.
Import Utils.








End TemplateMoreFacts.

(** ** The shell: the route table *)

Section RouteTableFacts.
Import Shell ShellPage.

Lemma build_routes_from (routes : gmap string route) (navs : list nav_item)
    (spaId : string) :
  foldl (λ routes nav, <[nav_id nav := route_of nav]> routes) routes navs
    !! spaId
  = match last (filter (λ nav, nav_id nav = spaId) navs) with
    | Some nav => Some (route_of nav)
    | None => routes !! spaId
    end.
Proof.
  revert routes. induction navs as [|nav navs IH]; intros routes; [done|].
  simpl. rewrite IH, filter_cons.
  destruct (decide (nav_id nav = spaId)) as [Hid|Hid].
  - rewrite last_cons.
    destruct (last (filter _ navs)); [done|].
    by rewrite Hid, lookup_insert_eq.
  - destruct (last (filter _ navs)); [done|].
    by rewrite lookup_insert_ne.
Qed.

(** X7: the route table has an entry for exactly the ids of the
    navigation items, and when an id occurs more than once the last item
    with that id decides the path and the title. *)
Theorem build_routes_last_wins (navs : list nav_item) (spaId : string) :
  build_routes navs !! spaId
  = route_of <$> last (filter (λ nav, nav_id nav = spaId) navs).
Proof.
  unfold build_routes.
  change (foldl _ ∅ navs)
    with (foldl (λ (routes : gmap string route) nav,
                   <[nav_id nav := route_of nav]> routes) ∅ navs).
  rewrite build_routes_from.
  by destruct (last (filter _ navs)).
Qed.


End RouteTableFacts.

(** ** The shell: the state and the page agree *)

Section CoherenceFacts.
Context `{JSON}.
Import Shell ShellPage.

Lemma consistent_view (md : metadata) (w w' : world) :
  page_view w' = page_view w → consistent md w → consistent md w'.
Proof.
  unfold page_view. intros Hview [[Hmd Hcfg Hcur Hsrc Hlinks Hside] Hhash].
  unfold hash_agrees in *.
  destruct w as [s d tm r h], w' as [s' d' tm' r' h'].
  destruct s, s', d, d'. simpl in *. simplify_eq.
  by split; [split|].
Qed.

Lemma coherent_view (md : metadata) (w w' : world) :
  page_view w' = page_view w → coherent md w → coherent md w'.
Proof.
  unfold page_view. intros Hview [Hmd Hcfg Hcur Hsrc Hlinks Hside].
  destruct w as [s d tm r h], w' as [s' d' tm' r' h'].
  destruct s, s', d, d'. simpl in *. simplify_eq.
  by split.
Qed.

Lemma activate_activate (a b : string) (links : list nav_link) :
  map (activate a) (map (activate b) links) = map (activate a) links.
Proof.
  rewrite map_map. apply map_ext. intros l. unfold activate.
  by destruct (String.eqb (data_spa l) b); simpl;
    destruct (String.eqb (data_spa l) a).
Qed.

Lemma highlighted_activate (spaId : string) (current : option string)
    (links : list nav_link) :
  map (activate spaId) (highlighted current links)
  = highlighted (Some spaId) links.
Proof. destruct current; simpl; [apply activate_activate | done]. Qed.

Lemma page_view_loadSpa_unknown (spaId : string) (w : world) :
  spaRoutes (st_config (st w)) !! spaId = None →
  page_view (loadSpa spaId w) = page_view w.
Proof. intros Hroute. by rewrite loadSpa_unknown. Qed.

Lemma location_hash_loadSpa (spaId : string) (w : world) :
  location_hash (page (loadSpa spaId w)) = location_hash (page w).
Proof.
  destruct (spaRoutes (st_config (st w)) !! spaId) as [route|] eqn:Hroute.
  - by rewrite (loadSpa_known _ _ _ Hroute).
  - by rewrite loadSpa_unknown.
Qed.

Lemma st_config_loadSpa (spaId : string) (w : world) :
  st_config (st (loadSpa spaId w)) = st_config (st w).
Proof.
  destruct (spaRoutes (st_config (st w)) !! spaId) as [route|] eqn:Hroute.
  - by rewrite (loadSpa_known _ _ _ Hroute).
  - by rewrite loadSpa_unknown.
Qed.

Lemma currentSpa_loadSpa (spaId : string) (w : world) :
  currentSpa (st (loadSpa spaId w))
  = match spaRoutes (st_config (st w)) !! spaId with
    | Some _ => Some spaId
    | None => currentSpa (st w)
    end.
Proof.
  destruct (spaRoutes (st_config (st w)) !! spaId) as [route|] eqn:Hroute.
  - by rewrite (loadSpa_known _ _ _ Hroute).
  - by rewrite loadSpa_unknown.
Qed.

Lemma coherent_loadSpa (md : metadata) (spaId : string) (w : world) :
  coherent md w → coherent md (loadSpa spaId w).
Proof.
  intros Hcoh.
  destruct (spaRoutes (st_config (st w)) !! spaId) as [route|] eqn:Hroute.
  - destruct Hcoh as [Hmd Hcfg Hcur Hsrc Hlinks Hside].
    rewrite (loadSpa_known _ _ _ Hroute).
    rewrite Hcfg in Hroute. simpl in Hroute.
    split; simpl; try done.
    + intros p [= <-]. by rewrite Hroute.
    + by rewrite Hroute.
    + rewrite Hlinks. apply highlighted_activate.
  - eapply coherent_view; [|exact Hcoh].
    by apply page_view_loadSpa_unknown.
Qed.

(** After a request for the page the fragment names, the two agree. *)
Lemma hash_agrees_loadSpa_hash (w : world) :
  hash_agrees (loadSpa (location_hash (page w)) w).
Proof.
  unfold hash_agrees.
  rewrite location_hash_loadSpa, st_config_loadSpa, currentSpa_loadSpa.
  intros _ [route ->]. done.
Qed.

(** A request for the current page keeps the agreement. *)
Lemma hash_agrees_loadSpa_current (spaId : string) (w : world) :
  currentSpa (st w) = Some spaId →
  hash_agrees w → hash_agrees (loadSpa spaId w).
Proof.
  unfold hash_agrees.
  rewrite location_hash_loadSpa, st_config_loadSpa, currentSpa_loadSpa.
  intros Hcur Hhash Hne Hknown.
  rewrite (Hhash Hne Hknown) in Hcur. injection Hcur as <-.
  destruct Hknown as [route Hroute]. by rewrite Hroute.
Qed.

Lemma hash_agrees_same (w w' : world) :
  location_hash (page w') = location_hash (page w) →
  st_config (st w') = st_config (st w) →
  currentSpa (st w') = currentSpa (st w) →
  hash_agrees w → hash_agrees w'.
Proof. unfold hash_agrees. by intros -> -> ->. Qed.

Lemma coherent_closeSidebar (md : metadata) (w : world) :
  coherent md w → coherent md (closeSidebar w).
Proof. intros [Hmd Hcfg Hcur Hsrc Hlinks Hside]. split; done. Qed.

Lemma coherent_openSidebar (md : metadata) (w : world) :
  coherent md w → coherent md (openSidebar w).
Proof.
  intros Hcoh. unfold openSidebar. simpl.
  destruct (navLinks (page w)) eqn:Hfirst;
    destruct Hcoh as [Hmd Hcfg Hcur Hsrc Hlinks Hside]; split; done.
Qed.

Lemma coherent_checkMobileState (md : metadata) (w : world) :
  coherent md w → coherent md (checkMobileState w).
Proof.
  intros Hcoh. unfold checkMobileState. simpl.
  destruct (isMobile (st w) && _ && sidebarOpen (st w)).
  - apply coherent_closeSidebar.
    by eapply coherent_view; [|exact Hcoh].
  - by eapply coherent_view; [|exact Hcoh].
Qed.

(** The fragment, the configuration and the current page. *)
Lemma route_view_checkMobileState (w : world) :
  location_hash (page (checkMobileState w)) = location_hash (page w)
  ∧ st_config (st (checkMobileState w)) = st_config (st w)
  ∧ currentSpa (st (checkMobileState w)) = currentSpa (st w).
Proof.
  unfold checkMobileState. simpl.
  by destruct (isMobile (st w) && _ && sidebarOpen (st w)).
Qed.

Lemma consistent_checkMobileState (md : metadata) (w : world) :
  consistent md w → consistent md (checkMobileState w).
Proof.
  intros [Hcoh Hhash]. split; [by apply coherent_checkMobileState|].
  destruct (route_view_checkMobileState w) as (Hh & Hc & Hp).
  by eapply hash_agrees_same.
Qed.

Lemma consistent_fire (md : metadata) (t : timer) (w : world) :
  consistent md w → consistent md (fire t w).
Proof.
  intros Hcons. unfold fire. destruct (is_pending (tid t) (timers w)); [|done].
  destruct (cb t); simpl.
  - destruct (loading (st w)); by eapply consistent_view; [|exact Hcons].
  - destruct (loading (st w)); by eapply consistent_view; [|exact Hcons].
  - apply consistent_checkMobileState.
    by eapply consistent_view; [|exact Hcons].
Qed.

Lemma consistent_fire_all (md : metadata) (l : list timer) (w : world) :
  consistent md w → consistent md (foldl (λ w t, fire t w) w l).
Proof.
  revert w. induction l as [|t l IH]; intros w Hcons; [done|].
  simpl. by apply IH, consistent_fire.
Qed.

Lemma consistent_handleHashChange (md : metadata) (w : world) :
  coherent md w →
  consistent md (handleHashChange w).
Proof.
  intros Hcoh. unfold handleHashChange, is_other_page.
  destruct (String.eqb_spec (location_hash (page w)) "") as [Hempty|Hne];
    simpl.
  { split; [done|]. intros Hhash. by rewrite Hempty in Hhash. }
  destruct (bool_decide_reflect
              (currentSpa (st w) = Some (location_hash (page w))))
    as [Hcur|Hcur]; simpl.
  - split; [done|]. by intros _ _.
  - split; [by apply coherent_loadSpa | apply hash_agrees_loadSpa_hash].
Qed.

Lemma coherent_set_location_hash (md : metadata) (fragment : string)
    (w : world) :
  coherent md w → coherent md (with_page (set_location_hash fragment) w).
Proof. intros [Hmd Hcfg Hcur Hsrc Hlinks Hside]. split; done. Qed.

Lemma coherent_handleNavClick (md : metadata) (spaId : string) (w : world) :
  coherent md w → coherent md (handleNavClick spaId w).
Proof.
  intros Hcoh. unfold handleNavClick.
  destruct (is_other_page spaId w); [|done]. simpl.
  destruct (isMobile (st w)).
  - by apply coherent_closeSidebar, coherent_set_location_hash.
  - by apply coherent_set_location_hash.
Qed.

Lemma route_view_handleNavClick (spaId : string) (w : world) :
  st_config (st (handleNavClick spaId w)) = st_config (st w)
  ∧ currentSpa (st (handleNavClick spaId w)) = currentSpa (st w).
Proof.
  unfold handleNavClick. destruct (is_other_page spaId w); [|done].
  simpl. by destruct (isMobile (st w)).
Qed.

Lemma page_view_handleIframeLoad (doc : frame_doc) (w : world) :
  page_view (handleIframeLoad doc w) = page_view w.
Proof.
  unfold handleIframeLoad. destruct doc as [|doc_title body_text]; [done|].
  by destruct (String.eqb doc_title "Error" || Utils.includes body_text "404").
Qed.

Lemma consistent_dispatch (md : metadata) (w : world) (e : event) :
  consistent md w → consistent md (dispatch w e).
Proof.
  intros Hcons.
  destruct e as [spaId|fragment|doc| | | | |key|width|dt]; cbn [dispatch].
  - assert (Hcoh : coherent md (handleNavClick spaId w))
      by apply coherent_handleNavClick, Hcons.
    destruct (String.eqb_spec (location_hash (page (handleNavClick spaId w)))
                (location_hash (page w))) as [Hsame|Hdiff].
    + split; [done|].
      destruct (route_view_handleNavClick spaId w) as [Hc Hp].
      eapply hash_agrees_same; [exact Hsame|exact Hc|exact Hp|apply Hcons].
    + by apply consistent_handleHashChange.
  - unfold change_hash.
    destruct (String.eqb fragment (location_hash (page w))); [done|].
    apply consistent_handleHashChange, coherent_set_location_hash, Hcons.
  - eapply consistent_view; [|exact Hcons]. apply page_view_handleIframeLoad.
  - by eapply consistent_view; [|exact Hcons].
  - unfold retryLoadSpa.
    destruct (currentSpa (st w)) as [spaId|] eqn:Hcur; [|done].
    destruct (negb (String.eqb spaId "")); [|done].
    destruct Hcons as [Hcoh Hhash].
    split; [by apply coherent_loadSpa|].
    by apply hash_agrees_loadSpa_current.
  - unfold toggleSidebar. destruct Hcons as [Hcoh Hhash].
    destruct (sidebarOpen (st w)).
    + split; [by apply coherent_closeSidebar|].
      by eapply hash_agrees_same; [| | |exact Hhash].
    + split; [by apply coherent_openSidebar|].
      eapply hash_agrees_same; [| | |exact Hhash];
        unfold openSidebar; simpl; by destruct (navLinks (page w)).
  - destruct Hcons as [Hcoh Hhash].
    split; [by apply coherent_closeSidebar|].
    by eapply hash_agrees_same; [| | |exact Hhash].
  - unfold handleKeyDown.
    destruct (String.eqb key "Escape" && isMobile (st w) && sidebarOpen (st w));
      [|done].
    destruct Hcons as [Hcoh Hhash].
    split; [by apply coherent_closeSidebar|].
    by eapply hash_agrees_same; [| | |exact Hhash].
  - eapply consistent_view; [|exact Hcons].
    unfold debounced_checkMobileState. simpl.
    by destruct (resizeTimeout w).
  - unfold elapse.
    eapply consistent_view; [|by apply consistent_fire_all, Hcons].
    done.
Qed.

Lemma consistent_run (md : metadata) (trace : list event) (w : world) :
  consistent md w → consistent md (run w trace).
Proof.
  revert w. induction trace as [|e trace IH]; intros w Hcons; [done|].
  simpl. by apply IH, consistent_dispatch.
Qed.

Lemma coherent_initial_world (md : metadata) (html_title fragment : string)
    (width : Z) (h : host) :
  coherent md (initial_world md html_title fragment width h).
Proof. split; done. Qed.

Lemma coherent_setupRouting (md : metadata) (w : world) :
  coherent md w → coherent md (setupRouting w).
Proof.
  intros Hcoh. unfold setupRouting.
  destruct (storage_get_never_throws "lastVisitedSpa" JNull NAMESPACE (hst w))
    as (v & h' & ->).
  simpl. destruct (String.eqb (location_hash (page w)) "").
  - destruct Hcoh as [Hmd Hcfg Hcur Hsrc Hlinks Hside]. split; done.
  - destruct Hcoh as [Hmd Hcfg Hcur Hsrc Hlinks Hside]. split; done.
Qed.

Lemma consistent_loadInitialSpa (md : metadata) (w : world) :
  coherent md w → consistent md (loadInitialSpa w).
Proof.
  intros Hcoh. unfold loadInitialSpa. split; [by apply coherent_loadSpa|].
  destruct (String.eqb_spec (location_hash (page w)) "") as [Hempty|Hne];
    simpl.
  - unfold hash_agrees. rewrite location_hash_loadSpa. by intros ?.
  - apply hash_agrees_loadSpa_hash.
Qed.

Lemma consistent_initializeApp (md : metadata) (html_title fragment : string)
    (width : Z) (h : host) :
  consistent md (initializeApp md html_title fragment width h).
Proof.
  unfold initializeApp.
  apply consistent_loadInitialSpa, coherent_setupRouting,
    coherent_checkMobileState, coherent_initial_world.
Qed.

Lemma consistent_reachable (md : metadata) (html_title fragment : string)
    (width : Z) (h : host) (trace : list event) :
  consistent md (run (initializeApp md html_title fragment width h) trace).
Proof. apply consistent_run, consistent_initializeApp. Qed.


(** X9: the navigation always has one link per navigation item, in
    order, and a link is marked active (class and [aria-current] alike)
    exactly when it is the link of the current page. *)
Theorem links_mark_current_page
    (md : metadata) (html_title fragment : string) (width : Z) (h : host)
    (trace : list event) :
  let w := run (initializeApp md html_title fragment width h) trace in
  map data_spa (navLinks (page w)) = map nav_id (content_navigation md)
  ∧ ∀ l, l ∈ navLinks (page w) →
         link_active l = bool_decide (currentSpa (st w) = Some (data_spa l))
         ∧ aria_current l = link_active l.
Proof.
  intros w.
  destruct (consistent_reachable md html_title fragment width h trace)
    as [[Hmd Hcfg Hcur Hsrc Hlinks Hside] _].
  fold w in Hlinks. rewrite Hlinks. unfold base_links.
  destruct (currentSpa (st w)) as [spaId|]; simpl.
  - split.
    + rewrite !map_map. apply map_ext. intros nav. unfold activate. simpl.
      by destruct (String.eqb (nav_id nav) spaId).
    + intros l Hl. apply list_elem_of_In, in_map_iff in Hl as (l0 & <- & _).
      unfold activate.
      destruct (String.eqb_spec (data_spa l0) spaId) as [->|Hne]; simpl.
      * by rewrite bool_decide_eq_true_2.
      * rewrite bool_decide_eq_false_2; [done|]. congruence.
  - split.
    + by rewrite map_map.
    + intros l Hl. apply list_elem_of_In, in_map_iff in Hl as (nav & <- & _).
      done.
Qed.

(** X10: the three [sidebar-open] style classes of the page always say
    the same as [state.sidebarOpen]. *)
Theorem sidebar_classes_follow_state
    (md : metadata) (html_title fragment : string) (width : Z) (h : host)
    (trace : list event) :
  let w := run (initializeApp md html_title fragment width h) trace in
  sidebar_open (page w) = sidebarOpen (st w)
  ∧ sidebarOverlay_show (page w) = sidebarOpen (st w)
  ∧ appShell_sidebar_open (page w) = sidebarOpen (st w).
Proof.
  intros w.
  by destruct (consistent_reachable md html_title fragment width h trace)
    as [[Hmd Hcfg Hcur Hsrc Hlinks Hside] _].
Qed.


End CoherenceFacts.

(** ** The shell: what it writes to the store, and the next session *)

Section SessionFacts.
Context `{JSON}.
Import Shell ShellPage.

Lemma storage_set_other_key (key : string) (v : jsval) (ns : string)
    (h : host) (k : string) :
  k ≠ Utils.final_key ns key →
  localStorage (snd (Utils.storage_set key v ns h)) !! k
  = localStorage h !! k.
Proof.
  intros Hk. rewrite storage_set_run. simpl.
  destruct (_ <=? _); simpl; [|done].
  by rewrite lookup_insert_ne.
Qed.

Lemma lookup_loadSpa (spaId : string) (w : world) (k : string) :
  k ≠ "spa03.lastVisitedSpa" →
  localStorage (hst (loadSpa spaId w)) !! k = localStorage (hst w) !! k.
Proof.
  intros Hk.
  destruct (spaRoutes (st_config (st w)) !! spaId) as [route|] eqn:Hroute.
  - rewrite (loadSpa_known _ _ _ Hroute). simpl.
    by apply storage_set_other_key.
  - by rewrite loadSpa_unknown.
Qed.

Lemma lookup_handleHashChange (w : world) (k : string) :
  k ≠ "spa03.lastVisitedSpa" →
  localStorage (hst (handleHashChange w)) !! k = localStorage (hst w) !! k.
Proof.
  intros Hk. unfold handleHashChange.
  destruct (is_other_page _ w); [|done]. by apply lookup_loadSpa.
Qed.

Lemma hst_handleNavClick (spaId : string) (w : world) :
  hst (handleNavClick spaId w) = hst w.
Proof.
  unfold handleNavClick. destruct (is_other_page spaId w); [|done].
  simpl. by destruct (isMobile (st w)).
Qed.

Lemma lookup_dispatch (w : world) (e : event) (k : string) :
  k ≠ "spa03.lastVisitedSpa" →
  localStorage (hst (dispatch w e)) !! k = localStorage (hst w) !! k.
Proof.
  intros Hk. destruct (is_request e) eqn:Hreq.
  2:{ by rewrite localStorage_dispatch. }
  destruct e as [spaId|fragment|doc| | | | |key|width|dt];
    try discriminate; cbn [dispatch].
  - destruct (String.eqb _ _).
    + by rewrite hst_handleNavClick.
    + rewrite lookup_handleHashChange by done.
      by rewrite hst_handleNavClick.
  - unfold change_hash. destruct (String.eqb _ _); [done|].
    by rewrite lookup_handleHashChange.
  - unfold retryLoadSpa. destruct (currentSpa (st w)) as [spaId|]; [|done].
    destruct (negb _); [|done]. by apply lookup_loadSpa.
Qed.

(** X12: of all the entries of the store, the shell only ever writes
    [spa03.lastVisitedSpa]: whatever happens, every other entry stays as
    it was. *)
Theorem shell_writes_one_entry (w : world) (trace : list event) (k : string) :
  k ≠ "spa03.lastVisitedSpa" →
  localStorage (hst (run w trace)) !! k = localStorage (hst w) !! k.
Proof.
  intros Hk. revert w.
  induction trace as [|e trace IH]; intros w; [done|].
  simpl. by rewrite IH, lookup_dispatch.
Qed.

(** The start of a session whose store names a page. *)
Lemma initializeApp_saved (md : metadata) (html_title : string) (width : Z)
    (h : host) (text spaId : string) :
  localStorage h !! "spa03.lastVisitedSpa" = Some text →
  JSON_parse text = Normal (JStr spaId) →
  spaId ≠ "" →
  initializeApp md html_title "" width h
  = loadSpa spaId
      (with_page (set_location_hash spaId)
         (checkMobileState (initial_world md html_title "" width h))).
Proof.
  intros Hentry Hparse Hne. unfold initializeApp, setupRouting.
  rewrite hst_checkMobileState.
  change (hst (initial_world md html_title "" width h)) with h.
  rewrite storage_get_run.
  change (Utils.final_key NAMESPACE "lastVisitedSpa")
    with "spa03.lastVisitedSpa".
  rewrite Hentry, Hparse.
  assert (Hhash : location_hash
            (page (checkMobileState (initial_world md html_title "" width h)))
          = "").
  { by destruct (route_view_checkMobileState
                   (initial_world md html_title "" width h)) as (-> & _). }
  cbn [set_hst page]. rewrite Hhash. cbn [String.eqb truthy to_string].
  destruct (String.eqb_spec spaId "") as [|_]; [done|]. cbn [negb].
  unfold loadInitialSpa.
  cbn [with_page page set_location_hash location_hash].
  destruct (String.eqb_spec spaId "") as [|_]; [done|]. cbn [negb].
  by f_equal.
Qed.

(** X13: the page of the last accepted request is the page the next
    session opens, when the session starts without a fragment: provided
    the save succeeded, the id is not empty and survives JSON, nothing
    else was requested since, and the id still names a route. *)
Theorem last_page_reopens
    (md : metadata) (html_title : string) (width : Z)
    (w : world) (spaId : string) (route0 route : route)
    (trace : list event) :
  spaRoutes (st_config (st w)) !! spaId = Some route0 →
  fst (Utils.storage_set "lastVisitedSpa" (JStr spaId) NAMESPACE (hst w))
  = Normal true →
  json_serializable (JStr spaId) →
  spaId ≠ "" →
  Forall (λ e, is_request e = false) trace →
  build_routes (content_navigation md) !! spaId = Some route →
  let h' := hst (run (loadSpa spaId w) trace) in
  let w' := initializeApp md html_title "" width h' in
  currentSpa (st w') = Some spaId
  ∧ location_hash (page w') = spaId
  ∧ contentFrame_src (page w') = route_path route
  ∧ loading (st w') = true.
Proof.
  intros Hroute0 Hok Hser Hne Htrace Hroute h' w'.
  assert (Hentry : localStorage h' !! "spa03.lastVisitedSpa"
                   = Some (JSON_stringify (JStr spaId))).
  { subst h'. rewrite localStorage_run by done.
    rewrite (loadSpa_known _ _ _ Hroute0). simpl.
    revert Hok. rewrite storage_set_run. simpl.
    destruct (_ <=? _); [intros _|discriminate]. simpl.
    change (Utils.final_key NAMESPACE "lastVisitedSpa")
      with "spa03.lastVisitedSpa".
    by rewrite lookup_insert_eq. }
  subst w'. rewrite (initializeApp_saved _ _ _ _ _ _ Hentry Hser Hne).
  set (w0 := with_page (set_location_hash spaId) _).
  assert (Hknown : spaRoutes (st_config (st w0)) !! spaId = Some route).
  { subst w0. cbn [with_page st].
    destruct (route_view_checkMobileState
                (initial_world md html_title "" width h')) as (_ & -> & _).
    done. }
  by rewrite (loadSpa_known _ _ _ Hknown).
Qed.


End SessionFacts.

(** ** The shell: the order in which timers come due *)

Section DueOrderFacts.
Import Shell ShellTime.

Lemma Forall_insert_by_due (P : timer → Prop) (t : timer) (l : list timer) :
  P t → Forall P l → Forall P (insert_by_due t l).
Proof.
  intros Ht Hl. induction Hl as [|u l Hu Hl IH]; simpl.
  - by constructor.
  - destruct (due t <? due u)%Z; repeat constructor; done.
Qed.

Lemma sorted_insert_by_due (t : timer) (l : list timer) :
  sorted_by_due l → sorted_by_due (insert_by_due t l).
Proof.
  induction l as [|u l IH]; intros Hsorted; simpl.
  - by split.
  - destruct Hsorted as [Hu Hl].
    destruct (due t <? due u)%Z eqn:Hlt; simpl.
    + apply Z.ltb_lt in Hlt. split; [|done].
      constructor; [lia|]. eapply Forall_impl; [exact Hu|].
      simpl. intros v Hv. lia.
    + apply Z.ltb_ge in Hlt. split; [|by apply IH].
      by apply Forall_insert_by_due.
Qed.

Lemma sorted_sort_by_due (l : list timer) : sorted_by_due (sort_by_due l).
Proof.
  induction l as [|t l IH]; simpl; [done|]. by apply sorted_insert_by_due.
Qed.

Lemma insert_by_due_first (t : timer) (l : list timer) :
  Forall (λ u, (due t < due u)%Z) l → insert_by_due t l = t :: l.
Proof.
  intros Hl. destruct Hl as [|u l Hu _]; simpl; [done|].
  apply Z.ltb_lt in Hu. by rewrite Hu.
Qed.

(** Picking timers out of a sorted list and inserting commute. *)
Lemma filter_insert_by_due (P : timer → Prop) `{∀ t, Decision (P t)}
    (t : timer) (l : list timer) :
  sorted_by_due l →
  filter P (insert_by_due t l)
  = if decide (P t) then insert_by_due t (filter P l) else filter P l.
Proof.
  induction l as [|u l IH]; intros Hsorted.
  - simpl. rewrite filter_cons, filter_nil. by destruct (decide (P t)).
  - destruct Hsorted as [Hu Hl]. simpl.
    destruct (due t <? due u)%Z eqn:Hlt.
    + rewrite filter_cons. destruct (decide (P t)); [|done].
      rewrite insert_by_due_first; [done|].
      apply Z.ltb_lt in Hlt.
      apply Forall_forall. intros v Hv.
      apply list_elem_of_filter in Hv as [_ Hv].
      apply elem_of_cons in Hv as [->|Hv]; [done|].
      rewrite Forall_forall in Hu.
      apply Hu in Hv. lia.
    + rewrite !(filter_cons _ u), IH by done.
      destruct (decide (P u)), (decide (P t)); simpl; try done.
      by rewrite Hlt.
Qed.

Lemma filter_sort_by_due (P : timer → Prop) `{∀ t, Decision (P t)}
    (l : list timer) :
  filter P (sort_by_due l) = sort_by_due (filter P l).
Proof.
  induction l as [|t l IH]; [done|].
  simpl. rewrite filter_insert_by_due by apply sorted_sort_by_due.
  rewrite filter_cons, IH. by destruct (decide (P t)).
Qed.

Lemma filter_comm {A} (P Q : A → Prop) `{∀ x, Decision (P x)}
    `{∀ x, Decision (Q x)} (l : list A) :
  filter P (filter Q l) = filter Q (filter P l).
Proof.
  induction l as [|x l IH]; [done|].
  rewrite !(filter_cons _ x).
  destruct (decide (Q x)), (decide (P x));
    rewrite ?filter_cons; repeat case_decide; try done; by rewrite IH.
Qed.

(** The timers of one kind among those due, in the order they run. *)
Lemma filter_due_timers (P : timer → Prop) `{∀ t, Decision (P t)}
    (deadline : Z) (p : pool) :
  filter P (due_timers deadline p)
  = sort_by_due (filter (λ t, (due t ≤ deadline)%Z) (filter P (pending p))).
Proof.
  unfold due_timers. rewrite filter_sort_by_due. f_equal.
  apply filter_comm.
Qed.

Lemma is_pending_cancel (id k : nat) (l : list timer) (nx : nat) (nw : Z) :
  is_pending id (mkPool (cancel k l) nx nw)
  = is_pending id (mkPool l nx nw) && negb (id =? k).
Proof.
  apply eq_true_iff_eq.
  rewrite andb_true_iff, !is_pending_true, negb_true_iff, Nat.eqb_neq.
  simpl. split.
  - intros (t & Ht & Hid). apply elem_of_cancel in Ht as [Hne Ht].
    split; [by exists t | congruence].
  - intros [(t & Ht & Hid) Hne]. exists t. split; [|done].
    apply elem_of_cancel. split; [congruence | done].
Qed.

Lemma is_pending_clearTimeout (id : nat) (handle : option nat) (p : pool) :
  is_pending id (clearTimeout handle p)
  = is_pending id p
    && match handle with Some k => negb (id =? k) | None => true end.
Proof.
  destruct handle as [k|]; simpl.
  - destruct p as [l nx nw]. apply is_pending_cancel.
  - by rewrite andb_true_r.
Qed.

End DueOrderFacts.

(** ** The shell: a request that gets no answer *)

Section StalledLoadFacts.
Context `{JSON}.
Import Shell ShellTime.

Lemma same_load_refl (n : nat) (w : world) : same_load n w w.
Proof. by split; [|split]. Qed.

Lemma resizeTimeout_checkMobileState (w : world) :
  resizeTimeout (checkMobileState w) = resizeTimeout w.
Proof. unfold checkMobileState. simpl. by destruct (_ && _ && _). Qed.

Lemma resizeTimeout_fire (t : timer) (w : world) :
  resizeTimeout (fire t w) = resizeTimeout w.
Proof.
  unfold fire. destruct (is_pending _ _); [|done].
  destruct (cb t); simpl; try by destruct (loading (st w)).
  by rewrite resizeTimeout_checkMobileState.
Qed.

Lemma the_messages_fire (t : timer) (w : world) :
  the_messages (fire t w) = the_messages w.
Proof.
  pose proof (nav_view_fire t w) as Hview. unfold nav_view in Hview.
  unfold the_messages. by injection Hview as _ _ _ _ ->.
Qed.

(** A timer of a navigation does the same in two worlds that stand
    alike. *)
Lemma fire_nav_same (n : nat) (t : timer) (w w' : world) :
  is_nav_callback (cb t) = true →
  n ≤ tid t →
  same_load n w w' → same_load n (fire t w) (fire t w').
Proof.
  intros Hnav Hid (Hview & Hmsg & Hpend). unfold fire.
  rewrite <- (Hpend (tid t) Hid).
  destruct (is_pending (tid t) (timers w)); [|by split; [|split]].
  unfold load_view in Hview. injection Hview as Hloading Hshow Herr Htext.
  assert (Hcancelled : ∀ id, n ≤ id →
            is_pending id (mkPool (cancel (tid t) (pending (timers w)))
                                  (nextId (timers w))
                                  (Z.max (now (timers w)) (due t)))
            = is_pending id (mkPool (cancel (tid t) (pending (timers w')))
                                    (nextId (timers w'))
                                    (Z.max (now (timers w')) (due t)))).
  { intros id Hn. rewrite !is_pending_cancel. f_equal.
    specialize (Hpend id Hn). by destruct (timers w), (timers w'). }
  destruct (cb t); try discriminate; unfold run_callback;
    cbn [with_timers st loading]; rewrite <- Hloading;
    destruct (loading (st w)) eqn:Hflag;
    (split; [|split; [|exact Hcancelled]]);
    unfold load_view, the_messages in *; simpl; congruence.
Qed.

(** The debounced resize check leaves a load as it stands. *)
Lemma fire_resize_same (n : nat) (t : timer) (w w' : world) :
  cb t = ResizeLaterCb →
  tid t < n →
  resizeTimeout w = Some (tid t) →
  same_load n w w' → same_load n (fire t w) w'.
Proof.
  intros Hcb Hid Hhandle (Hview & Hmsg & Hpend).
  split; [|split].
  - by rewrite load_view_fire_resize.
  - by rewrite the_messages_fire.
  - intros id Hn. rewrite <- (Hpend id Hn).
    unfold fire. destruct (is_pending (tid t) (timers w)); [|done].
    rewrite Hcb, timers_run_callback. simpl. rewrite Hhandle.
    rewrite is_pending_clearTimeout, is_pending_cancel.
    destruct (Nat.eqb_spec id (tid t)) as [->|_]; [lia|].
    rewrite !andb_true_r. by destruct (timers w).
Qed.

Lemma fire_all_same (n : nat) (l : list timer) (w w' : world) :
  (∀ t, t ∈ l →
        (is_nav_callback (cb t) = true ∧ n ≤ tid t)
        ∨ (cb t = ResizeLaterCb ∧ tid t < n
           ∧ resizeTimeout w = Some (tid t))) →
  same_load n w w' →
  same_load n
    (foldl (λ w t, fire t w) w l)
    (foldl (λ w t, fire t w) w'
           (filter (λ t, is_nav_callback (cb t) = true) l)).
Proof.
  revert w w'. induction l as [|t l IH]; intros w w' Hl Hsame; [done|].
  rewrite filter_cons.
  destruct (Hl t) as [[Hnav Hid]|(Hcb & Hid & Hhandle)]; [by left| |].
  - rewrite decide_True by done. simpl. apply IH.
    + intros u Hu. rewrite resizeTimeout_fire. apply Hl. by right.
    + by apply fire_nav_same.
  - rewrite decide_False by (rewrite Hcb; simpl; discriminate).
    simpl. apply IH.
    + intros u Hu. rewrite resizeTimeout_fire. apply Hl. by right.
    + by apply fire_resize_same.
Qed.

(** The timers due after [loadSpa], and what they leave of the load. *)
Lemma load_view_elapse_loadSpa (spaId : string) (route : route) (w : world)
    (dt : Z) :
  timers_tracked w →
  spaRoutes (st_config (st w)) !! spaId = Some route →
  let w1 := loadSpa spaId w in
  let n := nextId (timers w) in
  load_view (elapse dt w1)
  = load_view
      (foldl (λ w t, fire t w) w1
         (sort_by_due
            (filter (λ t, (due t ≤ now (timers w) + Z.max 0 dt)%Z)
               [mkTimer n (now (timers w)
                           + Z.max 0 (loadingDelay (st_config (st w))))
                        ShowLoadingCb;
                mkTimer (S n) (now (timers w)
                               + Z.max 0 (iframeTimeout (st_config (st w))))
                        IframeTimeoutCb]))).
Proof.
  intros Htracked Hroute w1 n.
  destruct (nav_timers_loadSpa spaId route w Htracked Hroute)
    as (Hh1 & Hh2 & Hnext & Hnav).
  fold w1 in Hh1, Hh2, Hnext, Hnav. fold n in Hh1, Hh2, Hnext, Hnav.
  assert (Hnow : now (timers w1) = now (timers w))
    by (subst w1; by rewrite (loadSpa_known _ _ _ Hroute)).
  assert (Hresize : resizeTimeout w1 = resizeTimeout w)
    by (subst w1; by rewrite (loadSpa_known _ _ _ Hroute)).
  assert (Htracked1 : timers_tracked w1) by by apply tracked_loadSpa.
  assert (Hold : ∀ t, t ∈ pending (timers w1) → cb t = ResizeLaterCb →
                      tid t < n).
  { intros t Ht Hcb. subst w1. rewrite (loadSpa_known _ _ _ Hroute) in Ht.
    simpl in Ht. apply elem_of_app in Ht as [Ht|Ht].
    - apply elem_of_clearTimeout, elem_of_clearTimeout in Ht.
      by apply (tracked_fresh _ Htracked).
    - apply elem_of_cons in Ht as [->|Ht]; [done|].
      apply list_elem_of_singleton in Ht as ->. done. }
  unfold elapse. rewrite Hnow.
  set (deadline := (now (timers w) + Z.max 0 dt)%Z).
  set (l := due_timers deadline (timers w1)).
  transitivity (load_view (foldl (λ w t, fire t w) w1 l)); [done|].
  assert (Hsame : same_load n
            (foldl (λ w t, fire t w) w1 l)
            (foldl (λ w t, fire t w) w1
                   (filter (λ t, is_nav_callback (cb t) = true) l))).
  { apply fire_all_same; [|apply same_load_refl].
    intros t Ht. apply elem_of_due_timers in Ht as [Ht _].
    destruct (is_nav_callback (cb t)) eqn:Hkind.
    - left. split; [done|].
      assert (Hin : t ∈ nav_timers w1) by by apply list_elem_of_filter.
      rewrite Hnav in Hin.
      apply elem_of_cons in Hin as [->|Hin]; [simpl; lia|].
      apply list_elem_of_singleton in Hin as ->. simpl. lia.
    - right. assert (Hcb : cb t = ResizeLaterCb) by by destruct (cb t).
      split; [done|]. split; [by apply Hold|].
      pose proof (tracked_handle _ Htracked1 t Ht) as Hhandle.
      by rewrite Hcb in Hhandle. }
  destruct Hsame as [-> _]. subst l.
  rewrite filter_due_timers. fold (nav_timers w1). by rewrite Hnav.
Qed.

Lemma load_view_fire_show (t : timer) (w : world) :
  cb t = ShowLoadingCb →
  is_pending (tid t) (timers w) = true →
  loading (st w) = true →
  load_view (fire t w)
  = (true, true, errorDisplay_show (page w), errorMessage_text (page w)).
Proof.
  intros Hcb Hpend Hloading. unfold fire. rewrite Hpend, Hcb. simpl.
  rewrite Hloading. unfold load_view. simpl. by rewrite Hloading.
Qed.

Lemma load_view_fire_timeout (t : timer) (w : world) :
  cb t = IframeTimeoutCb →
  is_pending (tid t) (timers w) = true →
  loading (st w) = true →
  load_view (fire t w) = (true, false, true, msg_timeout (the_messages w)).
Proof.
  intros Hcb Hpend Hloading. unfold fire. rewrite Hpend, Hcb. simpl.
  rewrite Hloading. unfold load_view. simpl. by rewrite Hloading.
Qed.

Lemma is_pending_fire_nav (id : nat) (t : timer) (w : world) :
  is_nav_callback (cb t) = true →
  id ≠ tid t →
  is_pending id (timers (fire t w)) = is_pending id (timers w).
Proof.
  intros Hnav Hid. unfold fire.
  destruct (is_pending (tid t) (timers w)); [|done].
  rewrite timers_run_callback.
  assert (Hcancel :
    is_pending id
      (timers (with_timers
                 (λ p, mkPool (cancel (tid t) (pending p)) (nextId p)
                              (Z.max (now p) (due t))) w))
    = is_pending id (timers w)).
  { simpl. rewrite is_pending_cancel.
    destruct (Nat.eqb_spec id (tid t)); [done|].
    rewrite andb_true_r. by destruct (timers w). }
  by destruct (cb t).
Qed.

(** The load as it stands [dt] ms after a request that gets no answer. *)
Lemma load_view_stalled (spaId : string) (route : route) (w : world)
    (dt : Z) :
  timers_tracked w →
  spaRoutes (st_config (st w)) !! spaId = Some route →
  let delay := Z.max 0 (loadingDelay (st_config (st w))) in
  let timeout := Z.max 0 (iframeTimeout (st_config (st w))) in
  (delay < timeout)%Z →
  (0 ≤ dt)%Z →
  load_view (elapse dt (loadSpa spaId w))
  = if (dt <? delay)%Z
    then (true, loadingIndicator_show (page w), false,
          errorMessage_text (page w))
    else if (dt <? timeout)%Z
    then (true, true, false, errorMessage_text (page w))
    else (true, false, true, msg_timeout (the_messages w)).
Proof.
  intros Htracked Hroute delay timeout Horder Hdt.
  rewrite (load_view_elapse_loadSpa _ _ _ _ Htracked Hroute).
  fold delay timeout.
  set (n := nextId (timers w)).
  set (a := mkTimer n (now (timers w) + delay) ShowLoadingCb).
  set (b := mkTimer (S n) (now (timers w) + timeout) IframeTimeoutCb).
  set (w1 := loadSpa spaId w).
  destruct (nav_timers_loadSpa spaId route w Htracked Hroute)
    as (_ & _ & _ & Hnav).
  fold w1 n delay timeout a b in Hnav.
  assert (Hw1 : load_view w1
                = (true, loadingIndicator_show (page w), false,
                   errorMessage_text (page w))
                ∧ the_messages w1 = the_messages w)
    by (subst w1; by rewrite (loadSpa_known _ _ _ Hroute)).
  destruct Hw1 as [Hview Hmsg].
  assert (Hloading : loading (st w1) = true)
    by (unfold load_view in Hview; by injection Hview as -> _ _ _).
  assert (Hpend : ∀ t, t ∈ [a; b] → is_pending (tid t) (timers w1) = true).
  { intros t Ht. apply is_pending_true. exists t. split; [|done].
    rewrite <- Hnav in Ht. by apply list_elem_of_filter in Ht as [_ Ht]. }
  assert (Ha : is_pending n (timers w1) = true)
    by (apply (Hpend a); by left).
  assert (Hb : is_pending (S n) (timers w1) = true)
    by (apply (Hpend b); right; by left).
  rewrite Z.max_r by done.
  rewrite !filter_cons, filter_nil. subst a b. simpl.
  destruct (Z.ltb_spec dt delay) as [Hearly|Hlate].
  - rewrite decide_False by lia. rewrite decide_False by lia. done.
  - rewrite decide_True by lia.
    destruct (Z.ltb_spec dt timeout) as [Hmid|Hend].
    + rewrite decide_False by lia. simpl.
      rewrite load_view_fire_show by done.
      unfold load_view in Hview. by injection Hview as _ _ -> ->.
    + rewrite decide_True by lia. simpl.
      assert (Hlt : (now (timers w) + delay <? now (timers w) + timeout)%Z
                    = true) by (apply Z.ltb_lt; lia).
      rewrite Hlt. simpl.
      rewrite load_view_fire_timeout.
      * by rewrite the_messages_fire, Hmsg.
      * done.
      * simpl. by rewrite is_pending_fire_nav by (simpl; done || lia).
      * by rewrite loading_fire.
Qed.

(** X15: a request that gets no answer.  With a route for the page and a
    loading delay shorter than the timeout, after [dt] milliseconds with
    no other event the load is still marked as running, and: before the
    delay nothing is shown that was not shown; from the delay on the
    loading indicator is shown; from the timeout on the indicator is
    hidden and the error panel shows the timeout message. *)
Theorem stalled_load_timeline
    (md : metadata) (html_title fragment : string) (width : Z) (h : host)
    (trace : list event) (spaId : string) (route : route) (dt : Z) :
  let w := run (initializeApp md html_title fragment width h) trace in
  let delay := Z.max 0 (loadingDelay (st_config (st w))) in
  let timeout := Z.max 0 (iframeTimeout (st_config (st w))) in
  spaRoutes (st_config (st w)) !! spaId = Some route →
  (delay < timeout)%Z →
  (0 ≤ dt)%Z →
  load_view (elapse dt (loadSpa spaId w))
  = if (dt <? delay)%Z
    then (true, loadingIndicator_show (page w), false,
          errorMessage_text (page w))
    else if (dt <? timeout)%Z
    then (true, true, false, errorMessage_text (page w))
    else (true, false, true, msg_timeout (the_messages w)).
Proof.
  intros w delay timeout Hroute Horder Hdt.
  apply (load_view_stalled spaId route w dt); try done.
  apply tracked_reachable.
Qed.

(** What a successful load signal leaves of the load. *)
Lemma load_view_handleIframeLoad_success (doc : frame_doc) (w : world) :
  is_success doc = true →
  load_view (handleIframeLoad doc w)
  = (false, false, errorDisplay_show (page w), errorMessage_text (page w)).
Proof.
  intros Hdoc. unfold handleIframeLoad.
  destruct doc as [|doc_title body_text]; simpl in *; [done|].
  apply negb_true_iff in Hdoc. by rewrite Hdoc.
Qed.

(** X24: a page that answers after the timeout is loaded behind the
    error.  With a route for the page and a loading delay shorter than
    the timeout: when the load signal of a good document arrives once
    the timeout has passed, the load is marked as finished and the
    indicator is hidden, but the error panel stays up with the timeout
    message, and the page remains the current one. *)
Theorem late_load_keeps_timeout_error
    (md : metadata) (html_title fragment : string) (width : Z) (h : host)
    (trace : list event) (spaId : string) (route : route) (dt : Z)
    (doc : frame_doc) :
  let w := run (initializeApp md html_title fragment width h) trace in
  let delay := Z.max 0 (loadingDelay (st_config (st w))) in
  let timeout := Z.max 0 (iframeTimeout (st_config (st w))) in
  spaRoutes (st_config (st w)) !! spaId = Some route →
  (delay < timeout)%Z →
  (timeout ≤ dt)%Z →
  is_success doc = true →
  let w' := run (loadSpa spaId w) [Elapse dt; IframeLoad doc] in
  load_view w' = (false, false, true, msg_timeout (the_messages w))
  ∧ currentSpa (st w') = Some spaId.
Proof.
  intros w delay timeout Hroute Horder Hlate Hdoc w'.
  assert (Htracked : timers_tracked w) by apply tracked_reachable.
  assert (Hdt : (0 ≤ dt)%Z) by (subst timeout; lia).
  pose proof (load_view_stalled spaId route w dt Htracked Hroute Horder Hdt)
    as Hview.
  fold delay timeout in Hview.
  destruct (Z.ltb_spec dt delay) as [?|_]; [lia|].
  destruct (Z.ltb_spec dt timeout) as [?|_]; [lia|].
  subst w'. cbn [run foldl dispatch].
  set (w1 := elapse dt (loadSpa spaId w)) in *.
  assert (Hcurrent : currentSpa (st (handleIframeLoad doc w1)) = Some spaId).
  { assert (Hnav : nav_view (handleIframeLoad doc w1)
                   = nav_view (loadSpa spaId w)).
    { transitivity (nav_view w1).
      - by apply (nav_view_dispatch _ (IframeLoad doc)).
      - by apply (nav_view_dispatch _ (Elapse dt)). }
    unfold nav_view in Hnav. injection Hnav as -> _ _ _ _.
    by rewrite (loadSpa_known _ _ _ Hroute). }
  clearbody w1.
  rewrite load_view_handleIframeLoad_success by done.
  unfold load_view in Hview. injection Hview as _ _ Herror Htext.
  by rewrite Herror, Htext.
Qed.

End StalledLoadFacts.

(** ** The shell: the debounced resize check *)

Section DebounceFacts.
Context `{JSON}.
Import Shell ShellTime.

Lemma mobile_view_checkMobileState (w w' : world) :
  mobile_view w = mobile_view w' →
  mobile_view (checkMobileState w) = mobile_view (checkMobileState w').
Proof.
  unfold mobile_view. intros Hview.
  injection Hview as Hmobile Hopen Hc1 Hc2 Hc3 Hwidth Hbreak.
  unfold checkMobileState. simpl.
  rewrite <- Hmobile, <- Hopen, <- Hwidth, <- Hbreak.
  destruct (isMobile (st w) && _ && sidebarOpen (st w)); simpl; congruence.
Qed.

Lemma mobile_view_fire_nav (t : timer) (w : world) :
  is_nav_callback (cb t) = true → mobile_view (fire t w) = mobile_view w.
Proof.
  intros Hnav. unfold fire. destruct (is_pending _ _); [|done].
  destruct (cb t); try discriminate; simpl; by destruct (loading (st w)).
Qed.

Lemma same_window_refl (id : nat) (w : world) : same_window id w w.
Proof. unfold same_window. auto. Qed.

(** The resize check does the same in two worlds whose windows stand
    alike. *)
Lemma fire_resize_window (id : nat) (t : timer) (w w' : world) :
  cb t = ResizeLaterCb →
  tid t = id →
  same_window id w w' → same_window id (fire t w) (fire t w').
Proof.
  intros Hcb Hid (Hview & Hhandle & Hpend). unfold fire.
  rewrite Hid, <- Hpend.
  destruct (is_pending id (timers w)) eqn:Hflag;
    [|split; [done|split; [done|congruence]]].
  rewrite Hcb. unfold run_callback.
  split; [|split].
  - by apply mobile_view_checkMobileState.
  - by rewrite !resizeTimeout_checkMobileState.
  - rewrite !timers_checkMobileState. simpl.
    rewrite !is_pending_clearTimeout, !is_pending_cancel.
    by rewrite Nat.eqb_refl, !andb_false_r.
Qed.

(** A timer of a navigation leaves the window as it stands. *)
Lemma fire_nav_window (id : nat) (t : timer) (w w' : world) :
  is_nav_callback (cb t) = true →
  tid t ≠ id →
  same_window id w w' → same_window id (fire t w) w'.
Proof.
  intros Hnav Hid (Hview & Hhandle & Hpend).
  split; [|split].
  - by rewrite mobile_view_fire_nav.
  - by rewrite resizeTimeout_fire.
  - rewrite is_pending_fire_nav by done. done.
Qed.

Lemma fire_all_window (id : nat) (l : list timer) (w w' : world) :
  (∀ t, t ∈ l →
        (cb t = ResizeLaterCb ∧ tid t = id)
        ∨ (is_nav_callback (cb t) = true ∧ tid t ≠ id)) →
  same_window id w w' →
  same_window id
    (foldl (λ w t, fire t w) w l)
    (foldl (λ w t, fire t w) w'
           (filter (λ t, is_nav_callback (cb t) = false) l)).
Proof.
  revert w w'. induction l as [|t l IH]; intros w w' Hl Hsame; [done|].
  rewrite filter_cons.
  destruct (Hl t) as [[Hcb Hid]|[Hnav Hid]]; [by left| |].
  - rewrite decide_True by by rewrite Hcb.
    simpl. apply IH; [|by apply fire_resize_window].
    intros u Hu. apply Hl. by right.
  - rewrite decide_False by (rewrite Hnav; discriminate).
    apply IH; [|by apply fire_nav_window].
    intros u Hu. apply Hl. by right.
Qed.

(** The world after the debounced function has been called. *)
Lemma debounced_checkMobileState_run (w : world) :
  debounced_checkMobileState w
  = mkWorld (st w) (page w)
      (mkPool (pending (clearTimeout (resizeTimeout w) (timers w))
               ++ [mkTimer (nextId (timers w)) (now (timers w) + 250)
                           ResizeLaterCb])
              (S (nextId (timers w))) (now (timers w)))
      (Some (nextId (timers w))) (hst w).
Proof.
  unfold debounced_checkMobileState. simpl.
  by rewrite nextId_clearTimeout, now_clearTimeout.
Qed.

(** X16: the resize check is debounced.  A resize event leaves exactly
    one check pending, due 250 ms later, whatever was pending before;
    until then the window state is as it was; once 250 ms have passed
    with no other event, [isMobile] says whether the new width is at most
    the breakpoint, and a sidebar that was open on a mobile screen is
    closed when the window has become wide. *)
Theorem resize_check_is_debounced
    (md : metadata) (html_title fragment : string) (width0 : Z) (h : host)
    (trace : list event) (width : Z) :
  let w := run (initializeApp md html_title fragment width0 h) trace in
  let w1 := dispatch w (Resize width) in
  let narrow := (width <=? mobileBreakpoint (st_config (st w)))%Z in
  filter (λ t, is_nav_callback (cb t) = false) (pending (timers w1))
  = [mkTimer (nextId (timers w)) (now (timers w) + 250) ResizeLaterCb]
  ∧ isMobile (st w1) = isMobile (st w)
  ∧ sidebarOpen (st w1) = sidebarOpen (st w)
  ∧ ∀ dt, (0 ≤ dt)%Z →
      let w2 := elapse dt w1 in
      innerWidth (page w2) = width
      ∧ isMobile (st w2) = (if (dt <? 250)%Z then isMobile (st w) else narrow)
      ∧ sidebarOpen (st w2)
        = (if (dt <? 250)%Z then sidebarOpen (st w)
           else sidebarOpen (st w) && negb (isMobile (st w) && negb narrow)).
Proof.
  intros w w1 narrow.
  assert (Htracked : timers_tracked w) by apply tracked_reachable.
  set (id := nextId (timers w)).
  set (t0 := mkTimer id (now (timers w) + 250) ResizeLaterCb).
  assert (Hw1 : w1 = mkWorld (st w) (set_innerWidth width (page w))
                       (mkPool (pending (clearTimeout (resizeTimeout w)
                                           (timers w)) ++ [t0])
                               (S id) (now (timers w)))
                       (Some id) (hst w)).
  { subst w1. cbn [dispatch]. by rewrite debounced_checkMobileState_run. }
  assert (Hpool : timers w1
                  = mkPool (pending (clearTimeout (resizeTimeout w) (timers w))
                            ++ [t0])
                           (S id) (now (timers w)))
    by by rewrite Hw1.
  assert (Hothers :
    filter (λ t, is_nav_callback (cb t) = false)
           (pending (clearTimeout (resizeTimeout w) (timers w))) = []).
  { destruct (filter _ _) as [|t rest] eqn:Hfilter; [done|].
    assert (Hmember : t ∈ t :: rest) by by left.
    rewrite <- Hfilter in Hmember.
    apply list_elem_of_filter in Hmember as [Hkind Ht].
    assert (Hcb : cb t = ResizeLaterCb) by by destruct (cb t).
    pose proof Ht as Hin. apply elem_of_clearTimeout in Hin.
    pose proof (tracked_handle _ Htracked t Hin) as Hhandle.
    rewrite Hcb in Hhandle. simpl in Hhandle. rewrite Hhandle in Ht.
    by apply clearTimeout_cancels in Ht. }
  assert (Hone :
    filter (λ t, is_nav_callback (cb t) = false) (pending (timers w1))
    = [t0]).
  { rewrite Hpool. simpl. by rewrite filter_app, Hothers. }
  assert (Hview1 : mobile_view w1
                   = mobile_view (with_page (set_innerWidth width) w))
    by by rewrite Hw1.
  split; [done|]. split; [by rewrite Hw1|]. split; [by rewrite Hw1|].
  intros dt Hdt w2.
  set (deadline := (now (timers w1) + Z.max 0 dt)%Z).
  set (l := due_timers deadline (timers w1)).
  assert (Hsame : same_window id
            (foldl (λ w t, fire t w) w1 l)
            (foldl (λ w t, fire t w) w1
                   (filter (λ t, is_nav_callback (cb t) = false) l))).
  { apply fire_all_window; [|apply same_window_refl].
    intros t Ht. apply elem_of_due_timers in Ht as [Ht _].
    destruct (is_nav_callback (cb t)) eqn:Hkind.
    - right. split; [done|].
      rewrite Hpool in Ht. simpl in Ht. apply elem_of_app in Ht as [Ht|Ht].
      + apply elem_of_clearTimeout in Ht.
        pose proof (tracked_fresh _ Htracked t Ht). subst id. lia.
      + apply list_elem_of_singleton in Ht as ->. done.
    - left. assert (Hin : t ∈ [t0]).
      { rewrite <- Hone. by apply list_elem_of_filter. }
      by apply list_elem_of_singleton in Hin as ->. }
  assert (Hw2 : mobile_view w2 = mobile_view (foldl (λ w t, fire t w) w1 l))
    by done.
  clearbody w2.
  destruct Hsame as (Hview & _ & _). rewrite Hview in Hw2. clear Hview.
  subst l. rewrite filter_due_timers, Hone in Hw2.
  rewrite filter_cons, filter_nil in Hw2.
  assert (Hnow : now (timers w1) = now (timers w)) by by rewrite Hpool.
  subst deadline. rewrite Hnow, Z.max_r in Hw2 by done.
  assert (Hpending : is_pending id (timers w1) = true).
  { apply is_pending_true. exists t0. split; [|done].
    rewrite Hpool. simpl. apply elem_of_app. right. by left. }
  clearbody w1.
  assert (Hresult :
    mobile_view w2
    = if (dt <? 250)%Z
      then mobile_view (with_page (set_innerWidth width) w)
      else mobile_view
             (checkMobileState (with_page (set_innerWidth width) w))).
  { rewrite Hw2. destruct (Z.ltb_spec dt 250) as [Hearly|Hlate].
    - rewrite decide_False by (simpl; lia). exact Hview1.
    - rewrite decide_True by (simpl; lia).
      change (sort_by_due [t0]) with [t0]. cbn [foldl].
      unfold fire. change (tid t0) with id. rewrite Hpending.
      change (cb t0) with ResizeLaterCb. unfold run_callback.
      apply mobile_view_checkMobileState.
      transitivity (mobile_view w1); [done|exact Hview1]. }
  clear Hw2. unfold mobile_view in Hresult.
  destruct (dt <? 250)%Z.
  - simpl in Hresult. injection Hresult as E1 E2 E3 E4 E5 E6 E7.
    by rewrite E1, E2, E6.
  - unfold checkMobileState in Hresult. simpl in Hresult.
    fold narrow in Hresult.
    destruct (isMobile (st w)) eqn:Hmobile, narrow eqn:Hnarrow,
      (sidebarOpen (st w)) eqn:Hopen;
      simpl in Hresult; injection Hresult as E1 E2 E3 E4 E5 E6 E7;
      rewrite E1, E2, E6, ?Hmobile, ?Hnarrow, ?Hopen; done.
Qed.

End DebounceFacts.

(** ** The greeting cycler: one interval at most *)

Section IntervalFacts.
Context `{JSON}.
Import Cycler CyclerLife.

Lemma startCycling_run (w : world) :
  startCycling w = (Normal tt, started w).
Proof.
  unfold startCycling, started, bind, gets, with_spa, with_ui, modify,
    setInterval, clearInterval, ret. simpl.
  by destruct (cycleInterval (spa w)).
Qed.

Lemma cycle_view_greeted (langCode : string) (w : world) :
  cycle_view (greeted langCode w) = cycle_view w.
Proof. unfold greeted. by destruct (find_language _ _). Qed.

Lemma cycle_view_tick (w : world) :
  cycle_view (handle tick w) = cycle_view w.
Proof.
  unfold handle, tick, bind, gets, with_spa, with_ui, modify, throw. simpl.
  destruct (language_at _ _) as [language|]; [|done].
  rewrite updateGreeting_run, saveToStorage_run. simpl.
  unfold greeted. simpl. by destruct (find_language _ _).
Qed.

Lemma one_interval_view (md : metadata) (w w' : world) :
  cycle_view w' = cycle_view w → one_interval md w → one_interval md w'.
Proof.
  unfold cycle_view, one_interval.
  intros [= -> -> -> -> _ -> -> ->]. done.
Qed.

Lemma one_interval_started (md : metadata) (w : world) :
  app_metadata (spa w) = md →
  match cycleInterval (spa w) with
  | Some id => ∃ period, intervals w = [mkInterval id period]
  | None => intervals w = []
  end →
  one_interval md (started w).
Proof.
  intros Hmd Hone. unfold one_interval, started. simpl.
  rewrite Hmd. split; [done|]. split; [done|]. split; [done|].
  split; [done|].
  destruct (cycleInterval (spa w)) as [id|].
  - destruct Hone as [period ->]. rewrite filter_cons, filter_nil. simpl.
    by rewrite decide_False by (intros Hne; by apply Hne).
  - by rewrite Hone.
Qed.

Lemma one_interval_stopped (md : metadata) (w : world) :
  one_interval md w → one_interval md (stopped w).
Proof.
  intros (Hmd & Hclass & Htext & Hone). unfold one_interval, stopped. simpl.
  rewrite Hmd. split; [done|]. split; [done|]. split; [done|].
  split; [done|].
  destruct (cycleInterval (spa w)) as [id|].
  - destruct Hone as [_ ->]. rewrite filter_cons, filter_nil. simpl.
    by rewrite decide_False by (intros Hne; by apply Hne).
  - by destruct Hone.
Qed.

Lemma one_interval_dispatch (md : metadata) (w : world) (e : event) :
  one_interval md w → one_interval md (dispatch w e).
Proof.
  intros Hinv.
  destruct e as [value|value|id|]; cbn [dispatch].
  - destruct (bool_decide (value ∈ select_options (ui w))); [|done].
    unfold handle, bind, with_ui, modify.
    rewrite on_language_change_run. simpl.
    set (w0 := mkWorld (spa w) (set_select_value value (ui w)) (intervals w)
                       (nextInterval w) (hst w)).
    assert (Hstopped : one_interval md (stopped w0)).
    { apply one_interval_stopped.
      by apply (one_interval_view md w). }
    eapply one_interval_view; [|exact Hstopped].
    by rewrite <- (cycle_view_greeted value (stopped w0)).
  - unfold handle, on_speed_input, bind, gets, with_ui, modify. simpl.
    rewrite saveToStorage_run. simpl.
    destruct Hinv as (Hmd & Hclass & Htext & Hone).
    destruct (isCycling (spa w)) eqn:Hcycling.
    + rewrite startCycling_run. simpl.
      apply one_interval_started; simpl; [done|].
      destruct (cycleInterval (spa w)) as [id0|].
      * destruct Hone as [_ ->]. eauto.
      * by destruct Hone.
    + simpl. unfold one_interval. simpl. rewrite Hcycling.
      split; [done|]. split; [done|]. split; [done|].
      destruct (cycleInterval (spa w)) as [id0|].
      * by destruct Hone.
      * done.
  - destruct (existsb _ _); [|done].
    eapply one_interval_view; [apply cycle_view_tick | done].
  - unfold handle. rewrite stopCycling_run. simpl.
    by apply one_interval_stopped.
Qed.

Lemma one_interval_run (md : metadata) (trace : list event) (w : world) :
  one_interval md w → one_interval md (run w trace).
Proof.
  revert w. induction trace as [|e trace IH]; intros w Hw; simpl; [done|].
  by apply IH, one_interval_dispatch.
Qed.

Lemma cycle_view_loadFromStorage (w : world) :
  ∃ w', loadFromStorage w = (Normal tt, w')
        ∧ app_metadata (spa w') = app_metadata (spa w)
        ∧ cycleInterval (spa w') = cycleInterval (spa w)
        ∧ intervals w' = intervals w.
Proof.
  unfold loadFromStorage, bind, on_host.
  destruct (storage_get_never_throws "selectedLanguage" JNull NAMESPACE
              (hst w)) as (savedLang & h1 & ->). simpl.
  destruct (storage_get_never_throws "cycleSpeed" JNull NAMESPACE h1)
    as (savedSpeed & h2 & ->). simpl.
  unfold gets, with_ui, modify, ret. simpl.
  destruct (truthy savedLang); [destruct savedLang as [| | |saved| |]|];
    simpl; try destruct (existsb _ _); simpl;
    destruct (truthy savedSpeed); simpl;
    eexists; (split; [reflexivity|]); done.
Qed.

Lemma one_interval_start (md : metadata) (h : host) :
  one_interval md (start md h).
Proof.
  unfold start, handle, initSPA02, bind.
  destruct (cycle_view_loadFromStorage (initial_world md h))
    as (w1 & -> & Hmd & Hhandle & Hintervals).
  unfold gets, with_spa, modify. simpl.
  rewrite updateGreeting_run. simpl. rewrite startCycling_run. simpl.
  apply one_interval_started.
  - unfold greeted. simpl. by destruct (find_language _ _).
  - unfold greeted. simpl.
    destruct (find_language _ _); simpl; by rewrite Hhandle, Hintervals.
Qed.

(** X17: the cycler never runs two timers.  In every state it reaches
    there is one interval, at the speed the slider shows, when it is in
    cycling mode, and none in manual mode; [cycleInterval] names that
    interval, and the status line says which mode it is. *)
Theorem one_interval_at_most
    (md : metadata) (h : host) (trace : list event) :
  let w := run (start md h) trace in
  intervals w
  = (if isCycling (spa w)
     then match cycleInterval (spa w) with
          | Some id => [mkInterval id (slider_value (ui w))]
          | None => []
          end
     else [])
  ∧ (isCycling (spa w) = true ↔ is_Some (cycleInterval (spa w)))
  ∧ status_cycling (ui w) = isCycling (spa w)
  ∧ status_text (ui w)
    = (if isCycling (spa w) then status_cycling_text md
       else status_manual_text md)
  ∧ intervals (dispatch w BeforeUnload) = [].
Proof.
  intros w.
  assert (Hinv : one_interval md w)
    by apply one_interval_run, one_interval_start.
  assert (Hunload : one_interval md (dispatch w BeforeUnload))
    by by apply one_interval_dispatch.
  destruct Hinv as (Hmd & Hclass & Htext & Hone).
  assert (Hgone : intervals (dispatch w BeforeUnload) = []).
  { destruct Hunload as (_ & _ & _ & Hone').
    assert (Hmanual : cycleInterval (spa (dispatch w BeforeUnload)) = None).
    { cbn [dispatch]. unfold handle. rewrite stopCycling_run. done. }
    rewrite Hmanual in Hone'. by destruct Hone'. }
  destruct (cycleInterval (spa w)) as [id|].
  - destruct Hone as [Hcycling Hintervals]. rewrite Hcycling in *.
    repeat split; try done; by exists id.
  - destruct Hone as [Hcycling Hintervals]. rewrite Hcycling in *.
    repeat split; try done; by intros [? ?].
Qed.

End IntervalFacts.

(** ** The greeting cycler: what is shown is what is selected *)

Section SelectionFacts.
Context `{JSON}.
Import Cycler CyclerLife.

Lemma shows_selection_view (w w' : world) :
  shown_view w' = shown_view w → shows_selection w → shows_selection w'.
Proof.
  unfold shown_view, shows_selection.
  intros [= -> -> -> -> ->]. done.
Qed.

Lemma shown_view_startCycling (w : world) :
  shown_view (started w) = shown_view w.
Proof. done. Qed.

Lemma shown_view_stopped (w : world) :
  shown_view (stopped w) = shown_view w.
Proof. done. Qed.

(** A world in which the code [value] has just been selected, greeted
    and looked up. *)
Lemma shows_selection_picked (ls : list language) (value : string)
    (w : world) :
  value ∈ map code ls →
  languages (spa w) = ls →
  select_value (ui w) = value →
  shows_selection
    (mkWorld (set_currentIndex (Idx (findIndex value ls)) (spa w))
             (ui (greeted value w)) (intervals w) (nextInterval w) (hst w)).
Proof.
  intros Hvalue Hls Hselect.
  destruct (find_language_elem _ _ Hvalue) as [first Hfind].
  destruct (findIndex_found _ _ _ Hfind) as (Hpos & Hat & Hcode).
  exists first, first. unfold greeted. rewrite Hls, Hfind. simpl.
  rewrite Hls, Hselect, Hfind.
  apply Z.leb_le in Hpos. rewrite Hpos. done.
Qed.

(** A world in which the timer has just moved on to [language]. *)
Lemma shows_selection_ticked (ls : list language) (i : Z)
    (language : language) (w : world) :
  languages (spa w) = ls →
  select_options (ui w) = map code ls →
  language_at (Idx i) ls = Some language →
  shows_selection
    (greeted (code language)
       (mkWorld (set_currentIndex (Idx i) (spa w))
                (set_select_value (code language) (ui w))
                (intervals w) (nextInterval w) (hst w))).
Proof.
  intros Hls Hopts Hat.
  assert (Hcode : code language ∈ map code ls).
  { simpl in Hat. destruct (0 <=? i)%Z; [|done].
    apply list_elem_of_fmap_2. by eapply list_elem_of_lookup_2. }
  destruct (find_language_elem _ _ Hcode) as [first Hfind].
  exists language, first. unfold greeted. simpl. rewrite Hls, Hfind. simpl.
  rewrite Hls, Hopts, bool_decide_eq_true_2 by done. done.
Qed.

Lemma shows_selection_dispatch (ls : list language) (w : world) (e : event) :
  cycler_inv ls w →
  shows_selection w → shows_selection (dispatch w e).
Proof.
  intros (Hls & Hopts & i & Hidx & Hi) Hshows.
  destruct e as [value|value|id|]; cbn [dispatch].
  - destruct (bool_decide_reflect (value ∈ select_options (ui w)))
      as [Hin|]; [|done].
    unfold handle, bind, with_ui, modify.
    rewrite on_language_change_run. simpl.
    rewrite Hopts in Hin.
    set (w0 := stopped _).
    assert (Hpicked := shows_selection_picked ls value w0 Hin).
    eapply shows_selection_view; [|apply Hpicked].
    + unfold shown_view, greeted. simpl. rewrite Hls.
      destruct (find_language value ls); subst w0; simpl; by rewrite ?Hls.
    + by subst w0.
    + subst w0. simpl. by rewrite Hopts, bool_decide_eq_true_2.
  - unfold handle, on_speed_input, bind, gets, with_ui, modify. simpl.
    rewrite saveToStorage_run. simpl.
    destruct (isCycling (spa w)).
    + rewrite startCycling_run. simpl.
      by eapply shows_selection_view; [|exact Hshows].
    + by eapply shows_selection_view; [|exact Hshows].
  - destruct (existsb _ _); [|done].
    unfold handle, tick, bind, gets, with_spa, with_ui, modify, throw. simpl.
    rewrite Hidx, Hls. rewrite Hls in Hi.
    destruct (next_index_in_range i _ Hi) as [Hnext Hrange].
    rewrite Hnext.
    destruct (language_at _ ls) as [language|] eqn:Hat.
    2:{ simpl in Hat.
        destruct (Z.leb_spec 0 ((i + 1) mod Z.of_nat (length ls))); [|lia].
        apply lookup_ge_None in Hat. lia. }
    rewrite updateGreeting_run, saveToStorage_run. simpl.
    pose proof (shows_selection_ticked ls _ language w Hls Hopts Hat)
      as Hticked.
    eapply shows_selection_view; [|exact Hticked].
    unfold shown_view, greeted. simpl.
    by destruct (find_language _ _).
  - unfold handle. rewrite stopCycling_run. simpl.
    by eapply shows_selection_view; [|exact Hshows].
Qed.

Lemma shows_selection_run (ls : list language) (trace : list event)
    (w : world) :
  cycler_inv ls w →
  shows_selection w → shows_selection (run w trace).
Proof.
  revert w. induction trace as [|e trace IH]; intros w Hinv Hshows;
    simpl; [done|].
  apply IH; [by apply cycler_inv_dispatch|].
  by eapply shows_selection_dispatch.
Qed.

Lemma shows_selection_start (md : metadata) (h : host) :
  md_languages md ≠ [] → shows_selection (start md h).
Proof.
  intros Hne. unfold start, handle, initSPA02, bind.
  destruct (loadFromStorage_frame (initial_world md h))
    as (w1 & -> & Hview & Hsel); simpl.
  { done. }
  { destruct (md_languages md) as [|l ls]; [done|]. simpl. by left. }
  unfold index_view in Hview. simpl in Hview.
  injection Hview as Hls _ Hopts.
  unfold gets, with_spa, modify. simpl.
  rewrite updateGreeting_run. simpl. rewrite startCycling_run. simpl.
  rewrite Hopts in Hsel.
  pose proof (shows_selection_picked (md_languages md)
                (select_value (ui w1)) w1 Hsel Hls eq_refl) as Hpicked.
  eapply shows_selection_view; [|exact Hpicked].
  unfold shown_view, greeted. simpl. rewrite Hls.
  destruct (find_language _ _); simpl; by rewrite ?Hls.
Qed.

(** Two languages at which the same code is found are one language when
    no code is used twice. *)
Lemma unique_code (ls : list language) (i : nat) (lang first : language) :
  NoDup (map code ls) →
  ls !! i = Some lang →
  find_language (code lang) ls = Some first →
  first = lang.
Proof.
  intros Hnodup Hat Hfind.
  destruct (findIndex_found _ _ _ Hfind) as (_ & Hfirst & Hcode).
  set (j := Z.to_nat (findIndex (code lang) ls)) in *.
  assert (Hsame : j = i).
  { eapply NoDup_lookup; [exact Hnodup| |].
    - by rewrite list_lookup_fmap, Hfirst.
    - rewrite list_lookup_fmap, Hat. simpl. by rewrite Hcode. }
  rewrite Hsame in Hfirst. congruence.
Qed.

(** X18: with a non-empty language list, in every state the cycler
    reaches the selector shows the code of the language at the current
    index, and the greeting and its direction are those of the first
    language with that code: of that very language when no code is used
    twice. *)
Theorem greeting_follows_selection
    (md : metadata) (h : host) (trace : list event) :
  md_languages md ≠ [] →
  let w := run (start md h) trace in
  ∃ lang first,
    language_at (currentIndex (spa w)) (md_languages md) = Some lang
    ∧ code lang = select_value (ui w)
    ∧ find_language (select_value (ui w)) (md_languages md) = Some first
    ∧ greeting_text (ui w) = greeting first
    ∧ greeting_rtl (ui w) = rtl first
    ∧ (NoDup (map code (md_languages md)) → first = lang).
Proof.
  intros Hne w.
  assert (Hinv : cycler_inv (md_languages md) w)
    by by apply cycler_inv_run, cycler_inv_start.
  assert (Hshows : shows_selection w).
  { eapply shows_selection_run; [by apply cycler_inv_start|].
    by apply shows_selection_start. }
  destruct Hinv as (Hls & _ & _).
  destruct Hshows as (lang & first & Hat & Hcode & Hfind & Htext & Hrtl).
  rewrite Hls in Hat, Hfind.
  exists lang, first. repeat split; try done.
  intros Hnodup. rewrite <- Hcode in Hfind.
  destruct (currentIndex (spa w)) as [i|]; [|done]. simpl in Hat.
  destruct (0 <=? i)%Z; [|done].
  by eapply unique_code.
Qed.

End SelectionFacts.

(** ** The greeting cycler: the store *)

Section CyclerStoreFacts.
Context `{JSON}.
Import Cycler CyclerLife.

Lemma lookup_saved_host (w : world) (k : string) :
  k ≠ "spa02.selectedLanguage" →
  k ≠ "spa02.cycleSpeed" →
  localStorage (saved_host w) !! k = localStorage (hst w) !! k.
Proof.
  intros Hlang Hspeed. unfold saved_host.
  rewrite !storage_set_other_key; done.
Qed.

Lemma hst_greeted_lookup (langCode : string) (w : world) :
  localStorage (hst (greeted langCode w)) = localStorage (hst w).
Proof. unfold greeted. by destruct (find_language _ _). Qed.

Lemma lookup_cycler_dispatch (w : world) (e : event) (k : string) :
  k ≠ "spa02.selectedLanguage" →
  k ≠ "spa02.cycleSpeed" →
  localStorage (hst (dispatch w e)) !! k = localStorage (hst w) !! k.
Proof.
  intros Hlang Hspeed.
  destruct e as [value|value|id|]; cbn [dispatch].
  - destruct (bool_decide (value ∈ select_options (ui w))); [|done].
    unfold handle, bind, with_ui, modify.
    rewrite on_language_change_run. simpl.
    rewrite lookup_saved_host by done.
    by rewrite hst_greeted_lookup.
  - unfold handle, on_speed_input, bind, gets, with_ui, modify. simpl.
    rewrite saveToStorage_run. simpl.
    destruct (isCycling (spa w)).
    + rewrite startCycling_run. simpl. by rewrite lookup_saved_host.
    + simpl. by rewrite lookup_saved_host.
  - destruct (existsb _ _); [|done].
    unfold handle, tick, bind, gets, with_spa, with_ui, modify, throw. simpl.
    destruct (language_at _ _) as [language|]; [|done].
    rewrite updateGreeting_run, saveToStorage_run. simpl.
    rewrite lookup_saved_host by done.
    by rewrite hst_greeted_lookup.
  - unfold handle. by rewrite stopCycling_run.
Qed.

(** X19: of all the entries of the store, the cycler only ever writes
    [spa02.selectedLanguage] and [spa02.cycleSpeed]: whatever happens,
    every other entry stays as it was. *)
Theorem cycler_writes_two_entries
    (w : world) (trace : list event) (k : string) :
  k ≠ "spa02.selectedLanguage" →
  k ≠ "spa02.cycleSpeed" →
  localStorage (hst (run w trace)) !! k = localStorage (hst w) !! k.
Proof.
  intros Hlang Hspeed. revert w.
  induction trace as [|e trace IH]; intros w; [done|].
  simpl. by rewrite IH, lookup_cycler_dispatch.
Qed.

End CyclerStoreFacts.

(** ** The greeting cycler: preferences and the next session *)

Section ReloadFacts.
Context `{JSON}.
Import Cycler CyclerLife CyclerEvents.

(** Saving again what is saved already changes nothing of the entry,
    whether the store has room or not. *)
Lemma storage_set_same (key : string) (v : jsval) (ns : string) (h : host) :
  localStorage h !! Utils.final_key ns key = Some (JSON_stringify v) →
  localStorage (snd (Utils.storage_set key v ns h)) !! Utils.final_key ns key
  = Some (JSON_stringify v).
Proof.
  intros Hentry. rewrite storage_set_run. simpl.
  destruct (_ <=? _); simpl; [|done]. by rewrite lookup_insert_eq.
Qed.

Lemma storage_set_saved (key : string) (v : jsval) (ns : string) (h : host) :
  fst (Utils.storage_set key v ns h) = Normal true →
  localStorage (snd (Utils.storage_set key v ns h)) !! Utils.final_key ns key
  = Some (JSON_stringify v).
Proof.
  rewrite storage_set_run. simpl.
  destruct (_ <=? _); simpl; [|discriminate].
  intros _. by rewrite lookup_insert_eq.
Qed.

(** The entry of the language after [saveToStorage]. *)
Lemma saved_host_language (w : world) (value : string) :
  select_value (ui w) = value →
  fst (Utils.storage_set "selectedLanguage" (JStr value) NAMESPACE (hst w))
  = Normal true
  ∨ localStorage (hst w) !! "spa02.selectedLanguage"
    = Some (JSON_stringify (JStr value)) →
  localStorage (saved_host w) !! "spa02.selectedLanguage"
  = Some (JSON_stringify (JStr value)).
Proof.
  intros Hvalue Hsaved. unfold saved_host.
  rewrite storage_set_other_key by done. rewrite Hvalue.
  destruct Hsaved as [Hok|Hentry].
  - by apply (storage_set_saved "selectedLanguage" _ NAMESPACE).
  - by apply (storage_set_same "selectedLanguage" _ NAMESPACE).
Qed.

(** The entry of the speed after [saveToStorage]. *)
Lemma saved_host_speed (w : world) (value : string) :
  slider_value (ui w) = value →
  fst (Utils.storage_set "cycleSpeed" (JStr value) NAMESPACE
         (snd (Utils.storage_set "selectedLanguage"
                 (JStr (select_value (ui w))) NAMESPACE (hst w))))
  = Normal true
  ∨ localStorage (hst w) !! "spa02.cycleSpeed"
    = Some (JSON_stringify (JStr value)) →
  localStorage (saved_host w) !! "spa02.cycleSpeed"
  = Some (JSON_stringify (JStr value)).
Proof.
  intros Hvalue Hsaved. unfold saved_host. rewrite Hvalue.
  destruct Hsaved as [Hok|Hentry].
  - by apply (storage_set_saved "cycleSpeed" _ NAMESPACE).
  - apply (storage_set_same "cycleSpeed" _ NAMESPACE).
    by rewrite storage_set_other_key.
Qed.

Lemma storage_get_keeps (key : string) (d : jsval) (ns : string) (h : host) :
  localStorage (snd (Utils.storage_get key d ns h)) = localStorage h.
Proof.
  rewrite storage_get_run.
  destruct (localStorage h !! _) as [text|]; [|done].
  destruct (JSON_parse text); [done|]. by destruct (String.eqb text "").
Qed.

(** What [loadFromStorage] makes of the two entries. *)
Lemma loadFromStorage_run (w : world) :
  let savedLang :=
    fst (Utils.storage_get "selectedLanguage" JNull NAMESPACE (hst w)) in
  let h1 :=
    snd (Utils.storage_get "selectedLanguage" JNull NAMESPACE (hst w)) in
  let savedSpeed :=
    fst (Utils.storage_get "cycleSpeed" JNull NAMESPACE h1) in
  ∃ w', loadFromStorage w = (Normal tt, w')
    ∧ spa w' = spa w
    ∧ intervals w' = intervals w
    ∧ nextInterval w' = nextInterval w
    ∧ localStorage (hst w') = localStorage (hst w)
    ∧ select_options (ui w') = select_options (ui w)
    ∧ (∀ value, savedLang = Normal (JStr value) →
         value ≠ "" →
         value ∈ map code (languages (spa w)) →
         value ∈ select_options (ui w) →
         select_value (ui w') = value)
    ∧ (∀ value, savedSpeed = Normal (JStr value) →
         value ≠ "" →
         slider_value (ui w') = value
         ∧ speedValue_text (ui w')
           = value +:+ (if String.eqb (speedUnit (app_metadata (spa w))) ""
                        then "s"
                        else speedUnit (app_metadata (spa w)))).
Proof.
  intros savedLang h1 savedSpeed. subst savedLang savedSpeed h1.
  unfold loadFromStorage, bind, on_host.
  destruct (storage_get_never_throws "selectedLanguage" JNull NAMESPACE
              (hst w)) as (savedLang & h1 & Hget1).
  pose proof (storage_get_keeps "selectedLanguage" JNull NAMESPACE
                (hst w)) as Hkeep1.
  rewrite Hget1 in *. simpl in *.
  destruct (storage_get_never_throws "cycleSpeed" JNull NAMESPACE h1)
    as (savedSpeed & h2 & Hget2).
  pose proof (storage_get_keeps "cycleSpeed" JNull NAMESPACE h1)
    as Hkeep2.
  rewrite Hget2 in *. simpl in *.
  unfold gets, with_ui, modify, ret. simpl.
  assert (Hexists : ∀ value,
            value ∈ map code (languages (spa w)) →
            existsb (λ lang, String.eqb (code lang) value)
                    (languages (spa w)) = true).
  { intros value Hin. apply existsb_exists.
    apply list_elem_of_In, in_map_iff in Hin as (lang & <- & Hlang).
    exists lang. split; [done|]. apply String.eqb_refl. }
  destruct (truthy savedLang) eqn:Hlang;
    [destruct savedLang as [| | |saved| |]|];
    simpl; try destruct (existsb _ _) eqn:Hex; simpl;
    destruct (truthy savedSpeed) eqn:Hspeed; simpl;
    eexists; (split; [reflexivity|]); simpl;
    (split; [done|]); (split; [done|]); (split; [done|]);
    (split; [congruence|]); (split; [done|]);
    (split;
     [intros value [= ->] Hne Hin Hopt; simpl in *;
      try rewrite (Hexists _ Hin) in Hex; try discriminate;
      try (by rewrite bool_decide_eq_true_2);
      try (by destruct (String.eqb_spec value ""))
     |intros value [= ->] Hne; simpl in *;
      try (by destruct (String.eqb_spec value ""));
      try done]).
Qed.

Lemma storage_get_entry (key : string) (d v : jsval) (ns : string)
    (h : host) :
  localStorage h !! Utils.final_key ns key = Some (JSON_stringify v) →
  json_serializable v →
  fst (Utils.storage_get key d ns h) = Normal v.
Proof.
  intros Hentry Hser. rewrite storage_get_run, Hentry.
  unfold json_serializable in Hser. by rewrite Hser.
Qed.

(** The page as [initSPA02] leaves it, from what [loadFromStorage] left. *)
Lemma start_run (md : metadata) (h : host) :
  ∃ w1, loadFromStorage (initial_world md h) = (Normal tt, w1)
    ∧ start md h
      = started
          (greeted (select_value (ui w1))
             (mkWorld
                (set_currentIndex
                   (Idx (findIndex (select_value (ui w1))
                                   (languages (spa w1))))
                   (spa w1))
                (ui w1) (intervals w1) (nextInterval w1) (hst w1))).
Proof.
  destruct (loadFromStorage_run (initial_world md h)) as (w1 & Hload & _).
  exists w1. split; [done|].
  unfold start, handle, initSPA02, bind. rewrite Hload.
  unfold gets, with_spa, modify. simpl.
  by rewrite updateGreeting_run, startCycling_run.
Qed.

(** In manual mode, as long as no other language is picked, the selector
    and the saved entry stay. *)
Lemma manual_mode_keeps (md : metadata) (value : string) (w : world)
    (e : event) :
  is_select e = false →
  one_interval md w ∧ cycleInterval (spa w) = None
  ∧ select_value (ui w) = value
  ∧ localStorage (hst w) !! "spa02.selectedLanguage"
    = Some (JSON_stringify (JStr value)) →
  one_interval md (dispatch w e) ∧ cycleInterval (spa (dispatch w e)) = None
  ∧ select_value (ui (dispatch w e)) = value
  ∧ localStorage (hst (dispatch w e)) !! "spa02.selectedLanguage"
    = Some (JSON_stringify (JStr value)).
Proof.
  intros Hkind (Hone & Hmanual & Hvalue & Hentry).
  split; [by apply one_interval_dispatch|].
  pose proof Hone as (_ & _ & _ & Hstate). rewrite Hmanual in Hstate.
  destruct Hstate as [Hcycling Hnone].
  destruct e as [v|v|id|]; [done| | |]; cbn [dispatch].
  - unfold handle, on_speed_input, bind, gets, with_ui, modify. simpl.
    rewrite saveToStorage_run. simpl. rewrite Hcycling. simpl.
    split; [done|]. split; [done|].
    apply saved_host_language; [done|]. by right.
  - by rewrite Hnone.
  - unfold handle. by rewrite stopCycling_run.
Qed.

(** X20: a language picked by hand is the language of the next session.
    When the pick is saved (the store has room, the code is not empty and
    survives JSON), then after any further events other than a new pick,
    a page started on the store as it is then has that language selected,
    indexed and greeted, and is cycling again. *)
Theorem language_survives_reload
    (md : metadata) (h : host) (trace rest : list event) (value : string) :
  md_languages md ≠ [] →
  let w := run (start md h) trace in
  value ∈ select_options (ui w) →
  value ≠ "" →
  json_serializable (JStr value) →
  fst (Utils.storage_set "selectedLanguage" (JStr value) NAMESPACE (hst w))
  = Normal true →
  Forall (λ e, is_select e = false) rest →
  let w' := run (dispatch w (SelectChange value)) rest in
  let w2 := start md (hst w') in
  select_value (ui w2) = value
  ∧ currentIndex (spa w2) = Idx (findIndex value (md_languages md))
  ∧ isCycling (spa w2) = true
  ∧ ∃ first, find_language value (md_languages md) = Some first
             ∧ greeting_text (ui w2) = greeting first
             ∧ greeting_rtl (ui w2) = rtl first.
Proof.
  intros Hne w Hin Hvalue Hser Hok Hrest w' w2.
  assert (Hinv : cycler_inv (md_languages md) w)
    by by apply cycler_inv_run, cycler_inv_start.
  destruct Hinv as (Hls & Hopts & _).
  assert (Hcode : value ∈ map code (md_languages md)) by by rewrite <- Hopts.
  destruct (find_language_elem _ _ Hcode) as [first Hfind].
  assert (Hone : one_interval md w)
    by apply one_interval_run, one_interval_start.
  set (w1 := dispatch w (SelectChange value)).
  assert (Hw1 : one_interval md w1 ∧ cycleInterval (spa w1) = None
                ∧ select_value (ui w1) = value
                ∧ localStorage (hst w1) !! "spa02.selectedLanguage"
                  = Some (JSON_stringify (JStr value))).
  { split; [by apply one_interval_dispatch|].
    subst w1. cbn [dispatch]. rewrite bool_decide_eq_true_2 by done.
    unfold handle, bind, with_ui, modify.
    rewrite on_language_change_run. simpl.
    unfold greeted. simpl. rewrite Hls, Hfind. simpl.
    rewrite bool_decide_eq_true_2 by done.
    split; [done|]. split; [done|].
    apply saved_host_language; simpl.
    - by rewrite bool_decide_eq_true_2.
    - by left. }
  assert (Hw' : one_interval md w' ∧ cycleInterval (spa w') = None
                ∧ select_value (ui w') = value
                ∧ localStorage (hst w') !! "spa02.selectedLanguage"
                  = Some (JSON_stringify (JStr value))).
  { subst w'. change (dispatch w (SelectChange value)) with w1.
    clearbody w1. revert w1 Hw1.
    induction Hrest as [|e rest He _ IH]; intros w1 Hw1; [exact Hw1|].
    simpl. apply IH. by apply manual_mode_keeps. }
  destruct Hw' as (_ & _ & _ & Hentry).
  clearbody w'.
  destruct (start_run md (hst w')) as (w3 & Hload & Hstart).
  destruct (loadFromStorage_run (initial_world md (hst w')))
    as (w3' & Hload' & Hspa & _ & _ & _ & _ & Hlang & _).
  rewrite Hload in Hload'. injection Hload' as <-.
  assert (Hselected : select_value (ui w3) = value).
  { apply Hlang; try done.
    by apply (storage_get_entry "selectedLanguage" _ _ NAMESPACE). }
  subst w2. rewrite Hstart, Hselected, Hspa. simpl.
  unfold greeted. simpl. rewrite ?Hspa. simpl. rewrite Hfind. simpl.
  split; [done|]. split; [done|]. split; [done|].
  by exists first.
Qed.

(** As long as the slider is not moved, its value and the saved entry
    stay. *)
Lemma slider_keeps (value : string) (w : world) (e : event) :
  is_slider e = false →
  slider_value (ui w) = value
  ∧ localStorage (hst w) !! "spa02.cycleSpeed"
    = Some (JSON_stringify (JStr value)) →
  slider_value (ui (dispatch w e)) = value
  ∧ localStorage (hst (dispatch w e)) !! "spa02.cycleSpeed"
    = Some (JSON_stringify (JStr value)).
Proof.
  intros Hkind (Hvalue & Hentry).
  destruct e as [v|v|id|]; [|done| |]; cbn [dispatch].
  - destruct (bool_decide (v ∈ select_options (ui w))); [|done].
    unfold handle, bind, with_ui, modify.
    rewrite on_language_change_run. simpl.
    split.
    + unfold greeted. simpl. by destruct (find_language _ _).
    + apply saved_host_speed.
      * unfold greeted. simpl. by destruct (find_language _ _).
      * right. by rewrite hst_greeted_lookup.
  - destruct (existsb _ _); [|done].
    unfold handle, tick, bind, gets, with_spa, with_ui, modify, throw. simpl.
    destruct (language_at _ _) as [language|]; [|done].
    rewrite updateGreeting_run, saveToStorage_run. simpl.
    split.
    + unfold greeted. simpl. by destruct (find_language _ _).
    + apply saved_host_speed.
      * unfold greeted. simpl. by destruct (find_language _ _).
      * right. by rewrite hst_greeted_lookup.
  - unfold handle. by rewrite stopCycling_run.
Qed.

(** X21: the speed set with the slider is the speed of the next session.
    When the value is saved (the store has room, the value is not empty
    and survives JSON), then after any further events other than a new
    slider input, a page started on the store as it is then shows that
    value on the slider and beside it, and cycles at that speed. *)
Theorem speed_survives_reload
    (md : metadata) (h : host) (trace rest : list event) (value : string) :
  let w := run (start md h) trace in
  value ≠ "" →
  json_serializable (JStr value) →
  fst (Utils.storage_set "cycleSpeed" (JStr value) NAMESPACE
         (snd (Utils.storage_set "selectedLanguage"
                 (JStr (select_value (ui w))) NAMESPACE (hst w))))
  = Normal true →
  Forall (λ e, is_slider e = false) rest →
  let w' := run (dispatch w (SliderInput value)) rest in
  let w2 := start md (hst w') in
  slider_value (ui w2) = value
  ∧ speedValue_text (ui w2)
    = value +:+ (if String.eqb (speedUnit md) "" then "s" else speedUnit md)
  ∧ intervals w2 = [mkInterval 1 value].
Proof.
  intros w Hvalue Hser Hok Hrest w' w2.
  set (w1 := dispatch w (SliderInput value)).
  assert (Hw1 : slider_value (ui w1) = value
                ∧ localStorage (hst w1) !! "spa02.cycleSpeed"
                  = Some (JSON_stringify (JStr value))).
  { subst w1. cbn [dispatch].
    unfold handle, on_speed_input, bind, gets, with_ui, modify. simpl.
    rewrite saveToStorage_run. simpl.
    assert (Hentry :
      localStorage
        (saved_host
           (mkWorld (spa w)
              (set_speedValue_text
                 (value +:+ (if String.eqb
                                  (speedUnit (app_metadata (spa w))) ""
                             then "s"
                             else speedUnit (app_metadata (spa w))))
                 (set_slider_value value (ui w)))
              (intervals w) (nextInterval w) (hst w)))
        !! "spa02.cycleSpeed"
      = Some (JSON_stringify (JStr value))).
    { apply saved_host_speed; [done|]. by left. }
    destruct (isCycling (spa w)).
    - rewrite startCycling_run. simpl. by split.
    - simpl. by split. }
  assert (Hw' : slider_value (ui w') = value
                ∧ localStorage (hst w') !! "spa02.cycleSpeed"
                  = Some (JSON_stringify (JStr value))).
  { subst w'. change (dispatch w (SliderInput value)) with w1.
    clearbody w1. revert w1 Hw1.
    induction Hrest as [|e rest He _ IH]; intros w1 Hw1; [exact Hw1|].
    simpl. apply IH. by apply slider_keeps. }
  destruct Hw' as (_ & Hentry).
  clearbody w'.
  destruct (start_run md (hst w')) as (w3 & Hload & Hstart).
  destruct (loadFromStorage_run (initial_world md (hst w')))
    as (w3' & Hload' & Hspa & Hintervals & Hnext & _ & _ & _ & Hspeed).
  rewrite Hload in Hload'. injection Hload' as <-.
  destruct (Hspeed value) as [Hslider Htext]; [|done|].
  { rewrite (storage_get_ext _ _ _ _ (hst w'))
      by apply storage_get_keeps.
    by apply (storage_get_entry "cycleSpeed" _ _ NAMESPACE). }
  subst w2. rewrite Hstart. unfold started, greeted. simpl.
  rewrite Hspa. simpl.
  destruct (find_language _ _); simpl;
    rewrite Hslider, Htext, Hintervals, Hnext; done.
Qed.

End ReloadFacts.

(** ** The shell: the retry button *)

Section RetryFacts.
Context `{JSON}.
Import Shell ShellPage.


End RetryFacts.

(** ** The greeting cycler: no languages *)

Section NoLanguagesFacts.
Context `{JSON}.
Import Cycler CyclerLife.

Lemma blank_dispatch (w : world) (e : event) :
  languages (spa w) = [] ∧ select_options (ui w) = []
  ∧ select_value (ui w) = "" ∧ greeting_text (ui w) = "" →
  languages (spa (dispatch w e)) = []
  ∧ select_options (ui (dispatch w e)) = []
  ∧ select_value (ui (dispatch w e)) = ""
  ∧ greeting_text (ui (dispatch w e)) = "".
Proof.
  intros (Hls & Hopts & Hvalue & Htext).
  destruct e as [value|value|id|]; cbn [dispatch].
  - rewrite Hopts. by rewrite bool_decide_eq_false_2 by apply not_elem_of_nil.
  - unfold handle, on_speed_input, bind, gets, with_ui, modify. simpl.
    rewrite saveToStorage_run. simpl.
    destruct (isCycling (spa w)); [|done].
    by rewrite startCycling_run.
  - destruct (existsb _ _); [|done].
    unfold handle, tick, bind, gets, with_spa, with_ui, modify, throw. simpl.
    rewrite Hls. simpl.
    by destruct (currentIndex (spa w)).
  - unfold handle. by rewrite stopCycling_run.
Qed.

(** X23: with an empty language list the page still starts: nothing is
    selected or greeted, the greeting lookup is reported once as an
    invalid language code, and the timer runs; but the timer's callback
    throws a [TypeError] on every tick, having set the index to [NaN] and
    before it touches the page or the store. *)
Theorem no_languages_every_tick_throws
    (md : metadata) (h : host) (trace : list event) :
  md_languages md = [] →
  let w := run (start md h) trace in
  ConsoleError "Invalid language code:" None ∈ console (hst (start md h))
  ∧ isCycling (spa (start md h)) = true
  ∧ select_value (ui w) = ""
  ∧ greeting_text (ui w) = ""
  ∧ fst (tick w) = Throw TypeError
  ∧ currentIndex (spa (snd (tick w))) = NaN
  ∧ ui (snd (tick w)) = ui w
  ∧ hst (snd (tick w)) = hst w.
Proof.
  intros Hempty w.
  destruct (start_run md h) as (w1 & Hload & Hstart).
  destruct (loadFromStorage_run (initial_world md h))
    as (w1' & Hload' & Hspa & _ & _ & _ & Hopts & _).
  rewrite Hload in Hload'. injection Hload' as <-.
  assert (Hui : select_value (ui w1) = "" ∧ greeting_text (ui w1) = "").
  { revert Hload. unfold loadFromStorage, bind, on_host.
    destruct (storage_get_never_throws "selectedLanguage" JNull NAMESPACE
                (hst (initial_world md h))) as (savedLang & h1 & ->). simpl.
    destruct (storage_get_never_throws "cycleSpeed" JNull NAMESPACE h1)
      as (savedSpeed & h2 & ->). simpl.
    unfold gets, with_ui, modify, ret. simpl. rewrite Hempty. simpl.
    destruct (truthy savedLang); [destruct savedLang|];
      destruct (truthy savedSpeed); simpl; intros [= <-]; simpl;
      rewrite ?Hempty; done. }
  destruct Hui as [Hselect Hgreeting].
  assert (Hblank : languages (spa (start md h)) = []
                   ∧ select_options (ui (start md h)) = []
                   ∧ select_value (ui (start md h)) = ""
                   ∧ greeting_text (ui (start md h)) = "").
  { rewrite Hstart, Hselect. unfold started, greeted. simpl.
    rewrite Hspa. simpl. rewrite Hempty. simpl.
    rewrite Hopts, Hselect, Hgreeting. simpl. by rewrite Hempty. }
  assert (Hw : languages (spa w) = [] ∧ select_options (ui w) = []
               ∧ select_value (ui w) = "" ∧ greeting_text (ui w) = "").
  { subst w. generalize (start md h) Hblank. clear.
    induction trace as [|e trace IH]; intros w0 Hw0; [exact Hw0|].
    simpl. by apply IH, blank_dispatch. }
  destruct Hw as (Hls & _ & Hvalue & Htext).
  split.
  { rewrite Hstart, Hselect. unfold started, greeted. simpl.
    rewrite Hspa. simpl. rewrite Hempty. simpl.
    apply elem_of_app. right. by left. }
  split; [by rewrite Hstart|].
  split; [done|]. split; [done|].
  unfold tick, bind, gets, with_spa, with_ui, modify, throw. simpl.
  rewrite Hls. simpl.
  by destruct (currentIndex (spa w)).
Qed.

End NoLanguagesFacts.

(** ** The shell: the loading indicator *)

Section IndicatorFacts.
Context `{JSON}.
Import Shell.

Lemma indicator_view (w w' : world) :
  load_view w' = load_view w →
  (loadingIndicator_show (page w) = true → loading (st w) = true) →
  loadingIndicator_show (page w') = true → loading (st w') = true.
Proof. unfold load_view. by intros [= -> -> _ _]. Qed.

Lemma load_view_closeSidebar (w : world) :
  load_view (closeSidebar w) = load_view w.
Proof. done. Qed.

Lemma load_view_checkMobileState (w : world) :
  load_view (checkMobileState w) = load_view w.
Proof. unfold checkMobileState. simpl. by destruct (_ && _ && _). Qed.

Lemma indicator_loadSpa (spaId : string) (w : world) :
  (loadingIndicator_show (page w) = true → loading (st w) = true) →
  loadingIndicator_show (page (loadSpa spaId w)) = true →
  loading (st (loadSpa spaId w)) = true.
Proof.
  intros Hinv.
  destruct (spaRoutes (st_config (st w)) !! spaId) as [route|] eqn:Hroute.
  - by rewrite (loadSpa_known _ _ _ Hroute).
  - by rewrite loadSpa_unknown.
Qed.

Lemma indicator_fire (t : timer) (w : world) :
  (loadingIndicator_show (page w) = true → loading (st w) = true) →
  loadingIndicator_show (page (fire t w)) = true →
  loading (st (fire t w)) = true.
Proof.
  intros Hinv. unfold fire. destruct (is_pending _ _); [|done].
  destruct (cb t); simpl.
  - destruct (loading (st w)) eqn:Hloading; simpl; intros Hshow;
      [exact Hloading | by specialize (Hinv Hshow)].
  - destruct (loading (st w)) eqn:Hloading; simpl; intros Hshow;
      [exact Hloading | by specialize (Hinv Hshow)].
  - apply (indicator_view w); [|done].
    by rewrite load_view_checkMobileState.
Qed.

Lemma indicator_fire_all (l : list timer) (w : world) :
  (loadingIndicator_show (page w) = true → loading (st w) = true) →
  loadingIndicator_show (page (foldl (λ w t, fire t w) w l)) = true →
  loading (st (foldl (λ w t, fire t w) w l)) = true.
Proof.
  revert w. induction l as [|t l IH]; intros w Hinv; [done|].
  simpl. by apply IH, indicator_fire.
Qed.

Lemma indicator_handleHashChange (w : world) :
  (loadingIndicator_show (page w) = true → loading (st w) = true) →
  loadingIndicator_show (page (handleHashChange w)) = true →
  loading (st (handleHashChange w)) = true.
Proof.
  intros Hinv. unfold handleHashChange.
  destruct (is_other_page _ w); [|done]. by apply indicator_loadSpa.
Qed.

Lemma indicator_dispatch (w : world) (e : event) :
  (loadingIndicator_show (page w) = true → loading (st w) = true) →
  loadingIndicator_show (page (dispatch w e)) = true →
  loading (st (dispatch w e)) = true.
Proof.
  intros Hinv.
  destruct e as [spaId|fragment|doc| | | | |key|width|dt]; cbn [dispatch].
  - assert (Hclick : loadingIndicator_show (page (handleNavClick spaId w))
                     = true →
                     loading (st (handleNavClick spaId w)) = true).
    { apply (indicator_view w); [|done].
      unfold handleNavClick. destruct (is_other_page spaId w); [|done].
      simpl. by destruct (isMobile (st w)). }
    destruct (String.eqb _ _); [done|].
    by apply indicator_handleHashChange.
  - unfold change_hash. destruct (String.eqb _ _); [done|].
    apply indicator_handleHashChange. by apply (indicator_view w).
  - unfold handleIframeLoad.
    destruct doc as [|doc_title body_text]; simpl; [done|].
    destruct (_ || _); simpl; [|done]. exact Hinv.
  - done.
  - unfold retryLoadSpa. destruct (currentSpa (st w)) as [spaId|]; [|done].
    destruct (negb _); [|done]. by apply indicator_loadSpa.
  - apply (indicator_view w); [|done].
    unfold toggleSidebar, openSidebar. destruct (sidebarOpen (st w)); simpl;
      [done|]. by destruct (navLinks (page w)).
  - by apply (indicator_view w).
  - apply (indicator_view w); [|done].
    unfold handleKeyDown. by destruct (_ && _).
  - apply (indicator_view w); [|done].
    unfold debounced_checkMobileState. simpl. by destruct (resizeTimeout w).
  - unfold elapse.
    set (l := due_timers _ _).
    pose proof (indicator_fire_all l w Hinv) as Hfired.
    exact Hfired.
Qed.

(** X25: the loading indicator is never up without a load in progress:
    in every state the shell reaches, if the indicator is shown then
    [state.loading] is set. *)
Theorem indicator_only_while_loading
    (md : metadata) (html_title fragment : string) (width : Z) (h : host)
    (trace : list event) :
  let w := run (initializeApp md html_title fragment width h) trace in
  loadingIndicator_show (page w) = true → loading (st w) = true.
Proof.
  intros w. subst w.
  assert (Hstart :
    loadingIndicator_show
      (page (initializeApp md html_title fragment width h)) = true →
    loading (st (initializeApp md html_title fragment width h)) = true).
  { unfold initializeApp, loadInitialSpa. apply indicator_loadSpa.
    unfold setupRouting.
    destruct (storage_get_never_throws "lastVisitedSpa" JNull NAMESPACE
                (hst (checkMobileState
                        (initial_world md html_title fragment width h))))
      as (v & h' & ->).
    simpl. by destruct (String.eqb fragment ""). }
  generalize (initializeApp md html_title fragment width h) Hstart.
  induction trace as [|e trace IH]; intros w Hw; [exact Hw|].
  simpl. by apply IH, indicator_dispatch.
Qed.

End IndicatorFacts.

(** ** The shell: the fragment and the current page *)

Section FragmentFacts.
Context `{JSON}.
Import Shell ShellPage.

(** X26: the address and the page agree: in every state the shell
    reaches, a non-empty fragment that names a route is the id of the
    current page. *)
Theorem fragment_is_current_page
    (md : metadata) (html_title fragment : string) (width : Z) (h : host)
    (trace : list event) (route : route) :
  let w := run (initializeApp md html_title fragment width h) trace in
  location_hash (page w) ≠ "" →
  spaRoutes (st_config (st w)) !! location_hash (page w) = Some route →
  currentSpa (st w) = Some (location_hash (page w)).
Proof.
  intros w Hne Hroute.
  destruct (consistent_reachable md html_title fragment width h trace)
    as [_ Hhash].
  apply Hhash; [done|]. by exists route.
Qed.

End FragmentFacts.

(** ** The shell: no timer is set twice *)

Section TimerCountFacts.
Context `{JSON}.
Import Shell ShellTimers.

Lemma NoDup_tid_cancel (id : nat) (l : list timer) :
  NoDup (map tid l) → NoDup (map tid (cancel id l)).
Proof.
  unfold cancel. induction l as [|t l IH]; [done|].
  simpl. intros [Hnotin Hl]%NoDup_cons. rewrite filter_cons.
  destruct (decide (tid t ≠ id)); [|by apply IH].
  simpl. apply NoDup_cons. split; [|by apply IH].
  intros Hin. apply Hnotin.
  apply list_elem_of_fmap in Hin as (u & Hid & Hu).
  apply list_elem_of_filter in Hu as [_ Hu].
  apply list_elem_of_fmap. by exists u.
Qed.

Lemma NoDup_tid_clearTimeout (handle : option nat) (p : pool) :
  NoDup (map tid (pending p)) →
  NoDup (map tid (pending (clearTimeout handle p))).
Proof.
  destruct handle as [id|]; [|done]. simpl. apply NoDup_tid_cancel.
Qed.

(** A timer with a fresh id can join the pending ones. *)
Lemma NoDup_tid_snoc (l : list timer) (t : timer) :
  (∀ u, u ∈ l → tid u < tid t) →
  NoDup (map tid l) → NoDup (map tid (l ++ [t])).
Proof.
  intros Hfresh Hl. rewrite map_app. apply NoDup_app.
  split; [done|]. split; [|apply NoDup_singleton].
  intros id Hin Hid. apply list_elem_of_singleton in Hid as ->.
  apply list_elem_of_fmap in Hin as (u & Hid & Hu).
  specialize (Hfresh u Hu). lia.
Qed.

Lemma distinct_shrink (w w' : world) :
  pending (timers w') = pending (timers w) →
  distinct_ids w → distinct_ids w'.
Proof. unfold distinct_ids. by intros ->. Qed.

Lemma distinct_loadSpa (spaId : string) (w : world) :
  timers_tracked w → distinct_ids w → distinct_ids (loadSpa spaId w).
Proof.
  intros Htracked Hdistinct. unfold distinct_ids in *.
  destruct (spaRoutes (st_config (st w)) !! spaId) as [route|] eqn:Hroute.
  2:{ by rewrite loadSpa_unknown. }
  rewrite (loadSpa_known _ _ _ Hroute). simpl.
  set (cleared := clearTimeout _ _).
  assert (Hcleared : NoDup (map tid (pending cleared)))
    by by apply NoDup_tid_clearTimeout, NoDup_tid_clearTimeout.
  assert (Hfresh : ∀ u, u ∈ pending cleared → tid u < nextId (timers w)).
  { intros u Hu. subst cleared.
    apply elem_of_clearTimeout, elem_of_clearTimeout in Hu.
    by apply (tracked_fresh _ Htracked). }
  change (pending cleared ++ [?a; ?b])
    with (pending cleared ++ [a] ++ [b]).
  rewrite app_assoc. apply NoDup_tid_snoc.
  - intros u [Hu|Hu]%elem_of_app; simpl.
    + specialize (Hfresh u Hu). lia.
    + apply list_elem_of_singleton in Hu as ->. simpl. lia.
  - apply NoDup_tid_snoc; [|done].
    intros u Hu. simpl. by apply Hfresh.
Qed.

Lemma distinct_handleIframeLoad (doc : frame_doc) (w : world) :
  distinct_ids w → distinct_ids (handleIframeLoad doc w).
Proof.
  intros Hdistinct.
  assert (Hcleared :
    NoDup (map tid (pending
      (clearTimeout (iframeLoadTimeout (st w))
         (clearTimeout (loadingTimeout (st w)) (timers w))))))
    by by apply NoDup_tid_clearTimeout, NoDup_tid_clearTimeout.
  unfold distinct_ids, handleIframeLoad.
  destruct doc as [|doc_title body_text]; simpl; [done|].
  by destruct (_ || _).
Qed.

Lemma distinct_handleIframeError (w : world) :
  distinct_ids w → distinct_ids (handleIframeError w).
Proof.
  intros Hdistinct. unfold distinct_ids, handleIframeError. simpl.
  by apply NoDup_tid_clearTimeout, NoDup_tid_clearTimeout.
Qed.

Lemma distinct_fire (t : timer) (w : world) :
  distinct_ids w → distinct_ids (fire t w).
Proof.
  intros Hdistinct. unfold distinct_ids, fire.
  destruct (is_pending _ _); [|done].
  rewrite timers_run_callback.
  assert (Hcancelled : NoDup (map tid (cancel (tid t) (pending (timers w)))))
    by by apply NoDup_tid_cancel.
  destruct (cb t); simpl; try done.
  by apply (NoDup_tid_clearTimeout _ (mkPool _ _ _)).
Qed.

Lemma distinct_fire_all (l : list timer) (w : world) :
  distinct_ids w → distinct_ids (foldl (λ w t, fire t w) w l).
Proof.
  revert w. induction l as [|t l IH]; intros w Hw; [done|].
  simpl. by apply IH, distinct_fire.
Qed.

Lemma distinct_debounced (w : world) :
  timers_tracked w → distinct_ids w →
  distinct_ids (debounced_checkMobileState w).
Proof.
  intros Htracked Hdistinct. unfold distinct_ids.
  rewrite debounced_checkMobileState_run. simpl.
  apply NoDup_tid_snoc.
  - intros u Hu. simpl. apply elem_of_clearTimeout in Hu.
    by apply (tracked_fresh _ Htracked).
  - by apply NoDup_tid_clearTimeout.
Qed.

Lemma distinct_handleHashChange (w : world) :
  timers_tracked w → distinct_ids w → distinct_ids (handleHashChange w).
Proof.
  intros Htracked Hdistinct. unfold handleHashChange.
  destruct (is_other_page _ w); [|done]. by apply distinct_loadSpa.
Qed.

Lemma distinct_dispatch (w : world) (e : event) :
  timers_tracked w → distinct_ids w → distinct_ids (dispatch w e).
Proof.
  intros Htracked Hdistinct.
  destruct e as [spaId|fragment|doc| | | | |key|width|dt]; cbn [dispatch].
  - assert (Hclick : timers (handleNavClick spaId w) = timers w
                     ∧ ∀ c, handle_of c (handleNavClick spaId w)
                            = handle_of c w).
    { unfold handleNavClick. destruct (is_other_page spaId w); [|done].
      simpl. destruct (isMobile (st w)); split; try done; by intros []. }
    destruct Hclick as [Htimers Hhandles].
    assert (Htracked' : timers_tracked (handleNavClick spaId w)).
    { apply (tracked_shrink w); [done|by rewrite Htimers|by rewrite Htimers|done]. }
    assert (Hdistinct' : distinct_ids (handleNavClick spaId w))
      by (apply (distinct_shrink w); [by rewrite Htimers|done]).
    destruct (String.eqb _ _); [done|].
    by apply distinct_handleHashChange.
  - unfold change_hash. destruct (String.eqb _ _); [done|].
    apply distinct_handleHashChange.
    + by apply (tracked_shrink w).
    + by apply (distinct_shrink w).
  - by apply distinct_handleIframeLoad.
  - by apply distinct_handleIframeError.
  - unfold retryLoadSpa. destruct (currentSpa (st w)) as [spaId|]; [|done].
    destruct (negb _); [|done]. by apply distinct_loadSpa.
  - apply (distinct_shrink w); [|done].
    unfold toggleSidebar, openSidebar. destruct (sidebarOpen (st w)); simpl;
      [done|]. by destruct (navLinks (page w)).
  - by apply (distinct_shrink w).
  - apply (distinct_shrink w); [|done].
    unfold handleKeyDown. by destruct (_ && _).
  - apply distinct_debounced.
    + by apply (tracked_shrink w).
    + by apply (distinct_shrink w).
  - unfold elapse. set (l := due_timers _ _).
    apply (distinct_shrink (foldl (λ w t, fire t w) w l)); [done|].
    by apply distinct_fire_all.
Qed.

Lemma distinct_reachable (md : metadata) (html_title fragment : string)
    (width : Z) (h : host) (trace : list event) :
  distinct_ids (run (initializeApp md html_title fragment width h) trace).
Proof.
  assert (Hstart : timers_tracked
                     (initializeApp md html_title fragment width h)
                   ∧ distinct_ids
                       (initializeApp md html_title fragment width h)).
  { split; [apply tracked_initializeApp|].
    unfold initializeApp, loadInitialSpa.
    set (w0 := setupRouting _).
    assert (Hnone : pending (timers w0) = []).
    { subst w0. by rewrite timers_setupRouting, timers_checkMobileState. }
    apply distinct_loadSpa.
    - by apply tracked_no_timers.
    - unfold distinct_ids. rewrite Hnone. apply NoDup_nil_2. }
  generalize (initializeApp md html_title fragment width h) Hstart.
  induction trace as [|e trace IH]; intros w [Htracked Hdistinct];
    [exact Hdistinct|].
  simpl. apply IH. split.
  - by apply tracked_dispatch.
  - by apply distinct_dispatch.
Qed.

(** Timers of one kind carry the id their handle names: with distinct
    ids there is one of a kind at most. *)
Lemma one_of_a_kind (l : list timer) (handle : callback → option nat) :
  (∀ t, t ∈ l → handle (cb t) = Some (tid t)) →
  NoDup (map tid l) → NoDup (map cb l).
Proof.
  induction l as [|t l IH]; intros Hhandle Hids; [apply NoDup_nil_2|].
  simpl in *. apply NoDup_cons in Hids as [Hnotin Hids].
  apply NoDup_cons. split.
  - intros Hin. apply Hnotin.
    apply list_elem_of_fmap in Hin as (u & Hcb & Hu).
    apply list_elem_of_fmap. exists u. split; [|done].
    assert (Ht : handle (cb t) = Some (tid t)) by (apply Hhandle; by left).
    assert (Hu' : handle (cb u) = Some (tid u)) by (apply Hhandle; by right).
    congruence.
  - apply IH; [|done]. intros u Hu. apply Hhandle. by right.
Qed.

(** X27: the shell never has two timers of a kind.  In every state it
    reaches the ids of the pending timers are distinct and there is at
    most one loading-delay timer, one iframe-timeout timer and one
    resize check pending: three timers at most, however many requests
    and resize events there have been. *)
Theorem one_timer_of_each_kind
    (md : metadata) (html_title fragment : string) (width : Z) (h : host)
    (trace : list event) :
  let w := run (initializeApp md html_title fragment width h) trace in
  NoDup (map tid (pending (timers w)))
  ∧ (∀ t u, t ∈ pending (timers w) → u ∈ pending (timers w) →
            cb t = cb u → t = u)
  ∧ length (pending (timers w)) ≤ 3.
Proof.
  intros w.
  assert (Htracked : timers_tracked w) by apply tracked_reachable.
  assert (Hdistinct : NoDup (map tid (pending (timers w))))
    by apply distinct_reachable.
  assert (Hkinds : NoDup (map cb (pending (timers w)))).
  { apply (one_of_a_kind _ (λ c, handle_of c w)); [|done].
    apply (tracked_handle _ Htracked). }
  split; [done|]. split.
  - intros t u Ht Hu Hcb.
    apply list_elem_of_lookup in Ht as [i Hi].
    apply list_elem_of_lookup in Hu as [j Hj].
    assert (Hsame : i = j).
    { eapply NoDup_lookup; [exact Hkinds| |].
      - by rewrite list_lookup_fmap, Hi.
      - rewrite list_lookup_fmap, Hj. simpl. by rewrite Hcb. }
    congruence.
  - rewrite <- (length_map cb).
    change 3 with (length callbacks).
    apply submseteq_length, NoDup_submseteq; [done|].
    intros c _. unfold callbacks. destruct c; set_solver.
Qed.

End TimerCountFacts.

(** * More concrete runs

    The theorems of the second part at explicit inputs, evaluated with
    the reference codec. *)

Section MoreConcreteRuns.
Import RefJSON.

(** ** Utils.format.template *)



(** ** The shell *)


Lemma shell_writes_one_entry_witness :
  "spa02.selectedLanguage" ≠ "spa03.lastVisitedSpa"
  ∧ localStorage
      (Shell.hst (Shell.run Demo.shell_loaded [Shell.NavClick "spa02"]))
      !! "spa02.selectedLanguage"
    = localStorage (Shell.hst Demo.shell_loaded) !! "spa02.selectedLanguage".
Proof.
  split; [discriminate|].
  apply shell_writes_one_entry. discriminate.
Defined.

Lemma last_page_reopens_witness :
  json_serializable (JStr "spa02")
  ∧ Shell.currentSpa
      (Shell.st
         (Shell.initializeApp Demo.shell_metadata "SPA03" "" 1024
            (Shell.hst
               (Shell.run (Shell.loadSpa "spa02" Demo.shell_loaded)
                          [Shell.Elapse 10000; Shell.IframeError]))))
    = Some "spa02".
Proof.
  split; [vm_compute; reflexivity|].
  destruct (last_page_reopens Demo.shell_metadata "SPA03" 1024
              Demo.shell_loaded "spa02"
              (Shell.mkRoute "../spa02/spa02.html" "Multi-Language")
              (Shell.mkRoute "../spa02/spa02.html" "Multi-Language")
              [Shell.Elapse 10000; Shell.IframeError])
    as [Hcurrent _];
    [vm_compute; reflexivity | vm_compute; reflexivity
     | vm_compute; reflexivity | discriminate | repeat constructor
     | vm_compute; reflexivity | exact Hcurrent].
Defined.


Lemma stalled_load_timeline_witness :
  let w := Shell.run
             (Shell.initializeApp Demo.shell_metadata "SPA03" "" 1024
                                  Demo.empty_host)
             [Shell.Elapse 50; Shell.IframeLoad Shell.CrossOrigin] in
  Shell.spaRoutes (Shell.st_config (Shell.st w)) !! "spa02"
  = Some (Shell.mkRoute "../spa02/spa02.html" "Multi-Language")
  ∧ (Z.max 0 (Shell.loadingDelay (Shell.st_config (Shell.st w)))
     < Z.max 0 (Shell.iframeTimeout (Shell.st_config (Shell.st w))))%Z
  ∧ Shell.load_view (Shell.elapse 400 (Shell.loadSpa "spa02" w))
    = (true, true, false, "")
  ∧ Shell.load_view (Shell.elapse 10000 (Shell.loadSpa "spa02" w))
    = (true, false, true,
       "Loading timeout. The application took too long to respond.").
Proof.
  intros w. subst w.
  match goal with
  | |- ?A ∧ ?B ∧ _ =>
      assert (Hroute : A) by (vm_compute; reflexivity);
      assert (Horder : B) by (vm_compute; reflexivity)
  end.
  split; [exact Hroute|]. split; [exact Horder|]. split.
  - etransitivity;
      [exact (stalled_load_timeline Demo.shell_metadata "SPA03" "" 1024
                Demo.empty_host
                [Shell.Elapse 50; Shell.IframeLoad Shell.CrossOrigin]
                "spa02" _ 400 Hroute Horder ltac:(lia))
      | vm_compute; reflexivity].
  - etransitivity;
      [exact (stalled_load_timeline Demo.shell_metadata "SPA03" "" 1024
                Demo.empty_host
                [Shell.Elapse 50; Shell.IframeLoad Shell.CrossOrigin]
                "spa02" _ 10000 Hroute Horder ltac:(lia))
      | vm_compute; reflexivity].
Defined.

Lemma late_load_keeps_timeout_error_witness :
  let w := Shell.run
             (Shell.initializeApp Demo.shell_metadata "SPA03" "" 1024
                                  Demo.empty_host)
             [Shell.Elapse 50; Shell.IframeLoad Shell.CrossOrigin] in
  Shell.spaRoutes (Shell.st_config (Shell.st w)) !! "spa02"
  = Some (Shell.mkRoute "../spa02/spa02.html" "Multi-Language")
  ∧ (Z.max 0 (Shell.loadingDelay (Shell.st_config (Shell.st w)))
     < Z.max 0 (Shell.iframeTimeout (Shell.st_config (Shell.st w))))%Z
  ∧ (Z.max 0 (Shell.iframeTimeout (Shell.st_config (Shell.st w)))
     ≤ 12000)%Z
  ∧ Shell.load_view
      (Shell.run (Shell.loadSpa "spa02" w)
                 [Shell.Elapse 12000; Shell.IframeLoad Shell.CrossOrigin])
    = (false, false, true,
       "Loading timeout. The application took too long to respond.").
Proof.
  intros w. subst w.
  match goal with
  | |- ?A ∧ ?B ∧ ?C ∧ _ =>
      assert (Hroute : A) by (vm_compute; reflexivity);
      assert (Horder : B) by (vm_compute; reflexivity);
      assert (Hlate : C) by (vm_compute; discriminate)
  end.
  split; [exact Hroute|]. split; [exact Horder|]. split; [exact Hlate|].
  etransitivity;
    [exact (proj1 (late_load_keeps_timeout_error Demo.shell_metadata "SPA03"
                     "" 1024 Demo.empty_host
                     [Shell.Elapse 50; Shell.IframeLoad Shell.CrossOrigin]
                     "spa02" _ 12000 Shell.CrossOrigin
                     Hroute Horder Hlate eq_refl))
    | vm_compute; reflexivity].
Defined.

Lemma indicator_only_while_loading_witness :
  let w := Shell.run
             (Shell.initializeApp Demo.shell_metadata "SPA03" "" 1024
                                  Demo.empty_host)
             [Shell.Elapse 400] in
  Shell.loadingIndicator_show (Shell.page w) = true
  ∧ Shell.loading (Shell.st w) = true.
Proof.
  intros w. subst w.
  match goal with
  | |- ?A ∧ _ => assert (Hshown : A) by (vm_compute; reflexivity)
  end.
  split; [exact Hshown|].
  exact (indicator_only_while_loading Demo.shell_metadata "SPA03" "" 1024
           Demo.empty_host [Shell.Elapse 400] Hshown).
Defined.

Lemma fragment_is_current_page_witness :
  let w := Shell.run
             (Shell.initializeApp Demo.shell_metadata "SPA03" "" 1024
                                  Demo.empty_host)
             [Shell.NavClick "spa02"] in
  Shell.location_hash (Shell.page w) ≠ ""
  ∧ Shell.spaRoutes (Shell.st_config (Shell.st w))
      !! Shell.location_hash (Shell.page w)
    = Some (Shell.mkRoute "../spa02/spa02.html" "Multi-Language")
  ∧ Shell.currentSpa (Shell.st w) = Some (Shell.location_hash (Shell.page w)).
Proof.
  intros w. subst w.
  match goal with
  | |- ?A ∧ ?B ∧ _ =>
      assert (Hne : A) by (vm_compute; discriminate);
      assert (Hroute : B) by (vm_compute; reflexivity)
  end.
  split; [exact Hne|]. split; [exact Hroute|].
  exact (fragment_is_current_page Demo.shell_metadata "SPA03" "" 1024
           Demo.empty_host [Shell.NavClick "spa02"] _ Hne Hroute).
Defined.

(** ** The greeting cycler *)

Lemma greeting_follows_selection_witness :
  Cycler.md_languages Demo.cycler_metadata ≠ []
  ∧ ∃ lang first,
      Cycler.language_at
        (Cycler.currentIndex
           (Cycler.spa (Cycler.run Demo.cycler_start [Cycler.Tick 1])))
        (Cycler.md_languages Demo.cycler_metadata) = Some lang
      ∧ Cycler.code lang
        = Cycler.select_value
            (Cycler.ui (Cycler.run Demo.cycler_start [Cycler.Tick 1]))
      ∧ Cycler.greeting_text
          (Cycler.ui (Cycler.run Demo.cycler_start [Cycler.Tick 1]))
        = Cycler.greeting first.
Proof.
  split; [discriminate|].
  destruct (greeting_follows_selection Demo.cycler_metadata Demo.empty_host
              [Cycler.Tick 1])
    as (lang & first & Hat & Hcode & _ & Htext & _); [discriminate|].
  exists lang, first. split; [exact Hat|]. split; [exact Hcode | exact Htext].
Defined.

Lemma cycler_writes_two_entries_witness :
  "spa03.lastVisitedSpa" ≠ "spa02.selectedLanguage"
  ∧ "spa03.lastVisitedSpa" ≠ "spa02.cycleSpeed"
  ∧ localStorage
      (Cycler.hst (Cycler.run Demo.cycler_start
                     [Cycler.Tick 1; Cycler.SelectChange "ar"]))
      !! "spa03.lastVisitedSpa"
    = localStorage (Cycler.hst Demo.cycler_start) !! "spa03.lastVisitedSpa".
Proof.
  split; [discriminate|]. split; [discriminate|].
  apply cycler_writes_two_entries; discriminate.
Defined.

Lemma language_survives_reload_witness :
  json_serializable (JStr "ja")
  ∧ (let w' := Cycler.run
                 (Cycler.dispatch Demo.cycler_start (Cycler.SelectChange "ja"))
                 [Cycler.SliderInput "2"; Cycler.BeforeUnload] in
     let w2 := Cycler.start Demo.cycler_metadata (Cycler.hst w') in
     Cycler.select_value (Cycler.ui w2) = "ja"
     ∧ Cycler.isCycling (Cycler.spa w2) = true).
Proof.
  split; [vm_compute; reflexivity|].
  destruct (language_survives_reload Demo.cycler_metadata Demo.empty_host
              [] [Cycler.SliderInput "2"; Cycler.BeforeUnload] "ja")
    as (Hselected & _ & Hcycling & _);
    [discriminate | vm_compute; right; left | discriminate
     | vm_compute; reflexivity | vm_compute; reflexivity
     | repeat constructor |].
  split; [exact Hselected | exact Hcycling].
Defined.

Lemma speed_survives_reload_witness :
  json_serializable (JStr "2.5")
  ∧ (let w' := Cycler.run
                 (Cycler.dispatch Demo.cycler_start (Cycler.SliderInput "2.5"))
                 [Cycler.Tick 2; Cycler.BeforeUnload] in
     let w2 := Cycler.start Demo.cycler_metadata (Cycler.hst w') in
     Cycler.slider_value (Cycler.ui w2) = "2.5"
     ∧ Cycler.intervals w2 = [Cycler.mkInterval 1 "2.5"]).
Proof.
  split; [vm_compute; reflexivity|].
  destruct (speed_survives_reload Demo.cycler_metadata Demo.empty_host
              [] [Cycler.Tick 2; Cycler.BeforeUnload] "2.5")
    as (Hslider & _ & Hintervals);
    [discriminate | vm_compute; reflexivity | vm_compute; reflexivity
     | repeat constructor |].
  split; [exact Hslider | exact Hintervals].
Defined.

Lemma no_languages_every_tick_throws_witness :
  let md := Cycler.mkMetadata [] "Auto-cycling through languages..."
              "Manual mode - select a language" "s" "1.5" in
  Cycler.md_languages md = []
  ∧ fst (Cycler.tick
           (Cycler.run (Cycler.start md Demo.empty_host) [Cycler.Tick 1]))
    = Throw TypeError.
Proof.
  intros md. subst md. split; [reflexivity|].
  destruct (no_languages_every_tick_throws
              (Cycler.mkMetadata [] "Auto-cycling through languages..."
                 "Manual mode - select a language" "s" "1.5")
              Demo.empty_host [Cycler.Tick 1] eq_refl)
    as (_ & _ & _ & _ & Hthrow & _).
  exact Hthrow.
Defined.

End MoreConcreteRuns.
